(** * Wiki-link knowledge base and auto-linking engine

    A shallow embedding of the wiki-link core of the journaling app:
    the SQLite queries of [database/queries.ts], the in-memory service
    [WikiLinkService.ts], the text rewriting of [markdownGenerator.ts], the
    directory walk of [utils/fileSystem.ts] and the vault scan of
    [VaultService.ts].

    Strings are sequences of UTF-16 code units below 256, one 8-bit
    character for each.  On that range the character classes of the regular
    expressions, the canonicalisation of the [i] flag and [toLowerCase] are
    those of JavaScript. *)

From Stdlib Require Import Bool Arith List ZArith Lia.
From Stdlib Require Import Ascii String Sorted.
From ExtLib Require Import Structures.Monad Structures.MonadExc.
Import ListNotations.
Import MonadNotation.

Local Open Scope string_scope.
Local Open Scope bool_scope.
Local Open Scope monad_scope.
Set Warnings "-register-all".

(* ================================================================== *)
(** * JavaScript string primitives *)
(* ================================================================== *)

Module JsString.

Definition code (c : ascii) : N := N_of_ascii c.

Definition in_range (lo hi : N) (c : ascii) : bool :=
  (lo <=? code c)%N && (code c <=? hi)%N.

(** [A-Z], [a-z], [0-9] *)
Definition is_upper (c : ascii) : bool := in_range 65 90 c.
Definition is_lower (c : ascii) : bool := in_range 97 122 c.
Definition is_digit (c : ascii) : bool := in_range 48 57 c.

(** [\w] of a non-unicode regular expression: [A-Za-z0-9_]. *)
Definition is_word (c : ascii) : bool :=
  is_upper c || is_lower c || is_digit c || Ascii.eqb c "_".

(** The lower case of a code unit below 256: [A-Z] and the capital letters
    of Latin-1 ([U+00C0] to [U+00DE] without the multiplication sign) go to
    the code unit 32 above. *)
Definition lower_char (c : ascii) : ascii :=
  let n := code c in
  if is_upper c then ascii_of_N (n + 32)
  else if ((192 <=? n) && (n <=? 214) || (216 <=? n) && (n <=? 222))%N
       then ascii_of_N (n + 32)
       else c.

(** [String.prototype.toLowerCase] *)
Fixpoint toLowerCase (s : string) : string :=
  match s with
  | EmptyString => EmptyString
  | String c r => String (lower_char c) (toLowerCase r)
  end.

(** [s.startsWith(p)] *)
Fixpoint startsWith (s p : string) : bool :=
  match p, s with
  | EmptyString, _ => true
  | String _ _, EmptyString => false
  | String a p', String b s' => Ascii.eqb a b && startsWith s' p'
  end.

(** [s.endsWith(p)] *)
Fixpoint endsWith (s p : string) : bool :=
  String.eqb s p ||
  match s with
  | EmptyString => false
  | String _ s' => endsWith s' p
  end.

(** [s.includes(p)] *)
Fixpoint includes (s p : string) : bool :=
  startsWith s p ||
  match s with
  | EmptyString => false
  | String _ s' => includes s' p
  end.

(** [s.split(' ')]: the pieces between the occurrences of the separator
    character; a string without separator gives one piece. *)
Fixpoint split (sep : ascii) (s : string) : list string :=
  match s with
  | EmptyString => [EmptyString]
  | String c r =>
      if Ascii.eqb c sep then EmptyString :: split sep r
      else match split sep r with
           | [] => [String c EmptyString]
           | p :: ps => String c p :: ps
           end
  end.

(** [s.trim()]: the white space and line terminators below 256 are tab,
    line feed, vertical tab, form feed, carriage return, space and the
    no-break space. *)
Definition is_space (c : ascii) : bool :=
  let n := code c in
  (n =? 32)%N || ((9 <=? n)%N && (n <=? 13)%N) || (n =? 160)%N.

Fixpoint trimStart (s : string) : string :=
  match s with
  | EmptyString => EmptyString
  | String c r => if is_space c then trimStart r else s
  end.

Fixpoint trimEnd (s : string) : string :=
  match s with
  | EmptyString => EmptyString
  | String c r =>
      match trimEnd r with
      | EmptyString => if is_space c then EmptyString else String c EmptyString
      | r' => String c r'
      end
  end.

Definition trim (s : string) : string := trimEnd (trimStart s).

(** [[...new Set(xs)]]: duplicates removed, first occurrences kept in
    order. *)
Fixpoint uniq_acc (seen : list string) (xs : list string) : list string :=
  match xs with
  | [] => []
  | x :: r =>
      if existsb (String.eqb x) seen then uniq_acc seen r
      else x :: uniq_acc (x :: seen) r
  end.

Definition uniq (xs : list string) : list string := uniq_acc [] xs.

End JsString.

(* ================================================================== *)
(** * Data model ([types/index.ts]) *)
(* ================================================================== *)

Inductive WikiLinkType : Type :=
| person | topic | place | concept | date | unknown.

(** Instants are milliseconds since the epoch.  A frequency is an integer
    held in a JavaScript number, an IEEE 754 double ([JsNumber]). *)
Definition Date := Z.

(** Arithmetic of JavaScript numbers on integers.  A double has 53 binary
    digits: an integer of magnitude up to [2^53] is held exactly, a larger
    one is rounded to the nearest integer with 53 leading digits, a tie
    going to the even one.  [x + y] is the exact sum, rounded. *)
Module JsNumber.

Definition round (z : Z) : Z :=
  let a := Z.abs z in
  if (a <? 2 ^ 53)%Z then z
  else
    let e := (Z.log2 a - 52)%Z in
    let q := (a / 2 ^ e)%Z in
    let r := (a mod 2 ^ e)%Z in
    let half := (2 ^ (e - 1))%Z in
    let q' := if (r <? half)%Z then q
              else if (half <? r)%Z then (q + 1)%Z
              else if Z.even q then q else (q + 1)%Z in
    (Z.sgn z * (q' * 2 ^ e))%Z.

Definition add (x y : Z) : Z := round (x + y).

End JsNumber.

Record WikiLink : Type := mkWikiLink {
  id : option Z;
  text : string;
  type : WikiLinkType;
  frequency : Z;
  aliases : list string;
  firstSeen : Date;
  lastUsed : Date
}.

(* ================================================================== *)
(** * Global replacement with the auto-link pattern *)
(* ================================================================== *)

(** Both auto-linkers build, for a link text [t], the regular expression
    [(?<!\[\[)\b t \b(?!\]\])] where every regex metacharacter of [t] is
    escaped, so [t] is matched literally, and call
    [result.replace(re, `[[${t}]]`)] with the [g] flag.  [AutoLink] is that
    replacement: the matcher of the pattern at one position, the expansion of
    the replacement template, and the left-to-right scan of [replace]. *)
Module AutoLink.
Import JsString.

(** [Canonicalize] of a pattern without the [u] flag, on the code units
    below 256 that a character of the model stands for: the upper case of the
    code unit if that is a single code unit.  [a-z] and the lower case
    letters of Latin-1 ([U+00E0] to [U+00FE] without the division sign) go
    to the code unit 32 below.  The upper case of the sharp s is two
    characters, so it is its own canonical form; the upper cases of the
    micro sign and of the y with diaeresis lie above 255 and are shared with
    no other code unit below 256, so these two stand for their canonical
    forms themselves. *)
Definition canonical (c : ascii) : ascii :=
  let n := code c in
  if is_lower c then ascii_of_N (n - 32)
  else if ((224 <=? n) && (n <=? 246) || (248 <=? n) && (n <=? 254))%N
       then ascii_of_N (n - 32)
       else c.

(** Comparison of a pattern character with a subject character; with the
    [i] flag both are canonicalised. *)
Definition char_eq (ci : bool) (a b : ascii) : bool :=
  if ci then Ascii.eqb (canonical a) (canonical b) else Ascii.eqb a b.

(** Literal match of [t] at the start of [s]: the matched characters of the
    subject and what follows them. *)
Fixpoint match_literal (ci : bool) (t s : string) : option (string * string) :=
  match t with
  | EmptyString => Some (EmptyString, s)
  | String a t' =>
      match s with
      | EmptyString => None
      | String b s' =>
          if char_eq ci a b then
            match match_literal ci t' s' with
            | Some (m, rest) => Some (String b m, rest)
            | None => None
            end
          else None
      end
  end.

Definition word_opt (c : option ascii) : bool :=
  match c with Some x => is_word x | None => false end.

(** [\b] between two neighbouring characters ([None] at either end of the
    subject). *)
Definition boundary (l r : option ascii) : bool :=
  xorb (word_opt l) (word_opt r).

Definition head (s : string) : option ascii :=
  match s with EmptyString => None | String c _ => Some c end.

Fixpoint last_char (dflt : option ascii) (s : string) : option ascii :=
  match s with
  | EmptyString => dflt
  | String c r => last_char (Some c) r
  end.

(** The subject before the current position is kept reversed, nearest
    character first. *)
Definition preceded_by_open (before : string) : bool :=
  startsWith before "[[".

Definition followed_by_close (after : string) : bool :=
  startsWith after "]]".

(** The whole pattern at the current position. *)
Definition match_here (ci : bool) (t before s : string)
  : option (string * string) :=
  if preceded_by_open before then None
  else if negb (boundary (head before) (head s)) then None
  else match match_literal ci t s with
       | None => None
       | Some (m, after) =>
           if negb (boundary (last_char (head before) m) (head after)) then None
           else if followed_by_close after then None
           else Some (m, after)
       end.

Fixpoint rev_append (a b : string) : string :=
  match a with
  | EmptyString => b
  | String c r => rev_append r (String c b)
  end.

(** [GetSubstitution] for a pattern without capture groups: [$$] is a
    dollar sign, [$&] the matched text, [$`] the subject before the match,
    [$'] the subject after it; any other [$] stands for itself. *)
Fixpoint getSubstitution (matched before after template : string) : string :=
  match template with
  | EmptyString => EmptyString
  | String c r =>
      if Ascii.eqb c "$" then
        match r with
        | String d r' =>
            if Ascii.eqb d "$" then
              String "$" (getSubstitution matched before after r')
            else if Ascii.eqb d "&" then
              matched ++ getSubstitution matched before after r'
            else if Ascii.eqb d "`" then
              rev_append before EmptyString
                ++ getSubstitution matched before after r'
            else if Ascii.eqb d "'" then
              after ++ getSubstitution matched before after r'
            else String c (getSubstitution matched before after r)
        | EmptyString => String c EmptyString
        end
      else String c (getSubstitution matched before after r)
  end.

(** The replacement template [`[[${t}]]`]. *)
Definition template (t : string) : string := "[[" ++ t ++ "]]".

(** The scan of [String.prototype.replace] with a global pattern.
    [before] is the reversed subject to the left of the position, [skip]
    the number of characters still covered by the last match.  After an
    empty match the scan moves one character on. *)
Fixpoint scan (ci : bool) (t : string) (before : string) (skip : nat)
         (s : string) {struct s} : string :=
  match skip with
  | S k =>
      match s with
      | EmptyString => EmptyString
      | String c r => scan ci t (String c before) k r
      end
  | O =>
      match match_here ci t before s with
      | Some (m, after) =>
          getSubstitution m before after (template t) ++
          match s with
          | EmptyString => EmptyString
          | String c r =>
              match String.length m with
              | O => String c (scan ci t (String c before) 0 r)
              | S k => scan ci t (String c before) k r
              end
          end
      | None =>
          match s with
          | EmptyString => EmptyString
          | String c r => String c (scan ci t (String c before) 0 r)
          end
      end
  end.

(** [s.replace(new RegExp(pattern(t), flags), `[[${t}]]`)] *)
Definition replace_link (ci : bool) (t s : string) : string :=
  scan ci t EmptyString 0 s.

(** Insertion into a list sorted by text length, longest first; an element
    goes in front of the elements of its own length, which come after it in
    the input, so that [sort_by_length] is the stable
    [Array.prototype.sort] with the comparator
    [(a, b) => b.text.length - a.text.length]. *)
Fixpoint insert_by_length (x : WikiLink) (l : list WikiLink) : list WikiLink :=
  match l with
  | [] => [x]
  | y :: r =>
      if Nat.ltb (String.length (text x)) (String.length (text y))
      then y :: insert_by_length x r
      else x :: l
  end.

Definition sort_by_length (l : list WikiLink) : list WikiLink :=
  fold_right insert_by_length [] l.

(** The loop over the sorted links. *)
Definition link_all (ci : bool) (links : list WikiLink) (s : string) : string :=
  fold_left (fun result link => replace_link ci (text link) result) links s.

End AutoLink.

(** [autoLinkText(text, wikiLinks)] of [markdownGenerator.ts]: the
    case-sensitive pass over the links, longest text first. *)
Definition autoLinkText (txt : string) (wikiLinks : list WikiLink) : string :=
  AutoLink.link_all false (AutoLink.sort_by_length wikiLinks) txt.

(* ================================================================== *)
(** * The world the services run in *)
(* ================================================================== *)

(** Rows of the two tables ([WikiLinkRow], [WikiLinkAliasRow]). *)
Record WikiLinkRow : Type := mkRow {
  row_id : Z;
  row_text : string;
  row_type : WikiLinkType;
  row_frequency : Z;
  first_seen : Date;
  last_used : Date
}.

Record WikiLinkAliasRow : Type := mkAliasRow {
  alias_id : Z;
  link_id : Z;
  alias : string
}.

(** The part of a table declaration that decides what an [INSERT OR IGNORE]
    ignores: whether [wiki_link_aliases] declares [UNIQUE (link_id, alias)]. *)
Record Schema : Type := mkSchema {
  aliases_unique_pair : bool
}.

(** The database file: the schema it was created with, both tables in rowid
    order and the [sqlite_sequence] counters of the two [AUTOINCREMENT]
    keys. *)
Record Database : Type := mkDatabase {
  schema : Schema;
  wiki_links : list WikiLinkRow;
  wiki_link_aliases : list WikiLinkAliasRow;
  seq_wiki_links : Z;
  seq_wiki_link_aliases : Z
}.

(** What [expo-file-system] shows at a path: a file with its content (if it
    can be read), a directory with its entries (if it can be listed), or a
    path whose [getInfoAsync] fails. *)
Inductive Node : Type :=
| File (content : option string)
| Dir (entries : option (list (string * Node)))
| NoInfo.

Record VaultConfig : Type := mkVaultConfig {
  vaultPath : string;
  dailyNotesPath : string
}.

Record World : Type := mkWorld {
  db_online : bool;                      (* [getDatabase()] succeeds *)
  db : Database;
  clock : Date;                          (* [Date.now()] *)
  cache : list (string * WikiLink);      (* [WikiLinkService.cache] *)
  cacheExpiry : Date;                    (* [WikiLinkService.cacheExpiry] *)
  config : option VaultConfig;           (* [VaultService.config] *)
  permission : bool;                     (* storage permission is granted *)
  vault : Node;                          (* the tree at [config.vaultPath] *)
  progress : list (Z * Z)                (* [onProgress] calls, latest first *)
}.

Inductive error : Type :=
| StoreUnavailable
| ConstraintFailed.

(** A call either returns or throws; the world it leaves behind is kept in
    both cases, as the effects before a [throw] stay in place. *)
Inductive outcome (A : Type) : Type :=
| Returned (a : A) (w : World)
| Thrown (e : error) (w : World).
Arguments Returned {A} a w.
Arguments Thrown {A} e w.

Definition Js (A : Type) : Type := World -> outcome A.

#[export] Instance Monad_Js : Monad Js := {
  ret := fun A a w => Returned a w;
  bind := fun A B c k w =>
    match c w with
    | Returned a w' => k a w'
    | Thrown e w' => Thrown e w'
    end
}.

(** [throw] and [try { c } catch (err) { h err }] *)
#[export] Instance Exception_Js : MonadExc error Js := {
  raise := fun A e w => Thrown e w;
  catch := fun A c h w =>
    match c w with
    | Returned a w' => Returned a w'
    | Thrown e w' => h e w'
    end
}.

Definition gets {A : Type} (f : World -> A) : Js A :=
  fun w => Returned (f w) w.

Definition modify (f : World -> World) : Js unit :=
  fun w => Returned tt (f w).

Definition world_of {A : Type} (o : outcome A) : World :=
  match o with Returned _ w => w | Thrown _ w => w end.

Definition set_db (d : Database) (w : World) : World :=
  mkWorld (db_online w) d (clock w) (cache w) (cacheExpiry w)
          (config w) (permission w) (vault w) (progress w).

Definition set_cache (c : list (string * WikiLink)) (w : World) : World :=
  mkWorld (db_online w) (db w) (clock w) c (cacheExpiry w)
          (config w) (permission w) (vault w) (progress w).

Definition set_cacheExpiry (t : Date) (w : World) : World :=
  mkWorld (db_online w) (db w) (clock w) (cache w) t
          (config w) (permission w) (vault w) (progress w).

Definition add_progress (p : Z * Z) (w : World) : World :=
  mkWorld (db_online w) (db w) (clock w) (cache w) (cacheExpiry w)
          (config w) (permission w) (vault w) (p :: progress w).

(** [for (const x of xs) { await body(x) }] *)
Fixpoint for_each {A : Type} (xs : list A) (body : A -> Js unit) : Js unit :=
  match xs with
  | [] => ret tt
  | x :: r => body x ;; for_each r body
  end.

(* ================================================================== *)
(** * The wiki-link queries ([database/queries.ts], [database/schema.ts]) *)
(* ================================================================== *)

Module Queries.
Import JsString.

(** [initializeSchema]: [wiki_link_aliases] is declared with the columns
    [id], [link_id], [alias] and the foreign key, and with no [UNIQUE]
    clause. *)
Definition initializeSchema : Schema := {| aliases_unique_pair := false |}.

Definition empty_database : Database :=
  mkDatabase initializeSchema [] [] 0 0.

(** [await getDatabase()] *)
Definition getDatabase : Js Database :=
  fun w => if db_online w then Returned (db w) w
           else Thrown StoreUnavailable w.

Definition commit (d : Database) : Js unit := modify (set_db d).

Definition set_links (rows : list WikiLinkRow) (d : Database) : Database :=
  mkDatabase (schema d) rows (wiki_link_aliases d)
             (seq_wiki_links d) (seq_wiki_link_aliases d).

(** [SELECT id, frequency FROM wiki_links WHERE text = ?] *)
Definition select_by_text (t : string) (d : Database) : option WikiLinkRow :=
  find (fun r => String.eqb (row_text r) t) (wiki_links d).

(** [UPDATE wiki_links SET frequency = ?, last_used = ?, type = ? WHERE id = ?] *)
Definition update_link (i f : Z) (used : Date) (ty : WikiLinkType)
           (d : Database) : Database :=
  set_links
    (map (fun r => if (row_id r =? i)%Z
                   then mkRow (row_id r) (row_text r) ty f (first_seen r) used
                   else r)
         (wiki_links d)) d.

(** [INSERT INTO wiki_links (text, type, frequency, first_seen, last_used)]:
    the new row takes the next [AUTOINCREMENT] id; a text already present
    violates [text TEXT UNIQUE]. *)
Definition insert_link (link : WikiLink) (d : Database)
  : option (Z * Database) :=
  match select_by_text (text link) d with
  | Some _ => None
  | None =>
      let i := (seq_wiki_links d + 1)%Z in
      Some (i, mkDatabase (schema d)
                 (wiki_links d ++
                  [mkRow i (text link) (type link) (frequency link)
                         (firstSeen link) (lastUsed link)])%list
                 (wiki_link_aliases d) i (seq_wiki_link_aliases d))
  end.

Definition upsertWikiLink (link : WikiLink) : Js Z :=
  d <- getDatabase ;;
  match select_by_text (text link) d with
  | Some existing =>
      now <- gets clock ;;
      commit (update_link (row_id existing)
                          (JsNumber.add (row_frequency existing) 1)
                          now (type link) d) ;;
      ret (row_id existing)
  | None =>
      match insert_link link d with
      | Some (i, d') => commit d' ;; ret i
      | None => raise ConstraintFailed
      end
  end.

Definition has_link_id (i : Z) (d : Database) : bool :=
  existsb (fun r => (row_id r =? i)%Z) (wiki_links d).

Definition has_alias_pair (i : Z) (a : string) (d : Database) : bool :=
  existsb (fun r => (link_id r =? i)%Z && String.eqb (alias r) a)
          (wiki_link_aliases d).

(** [INSERT OR IGNORE INTO wiki_link_aliases (link_id, alias)]: a row that
    would violate a uniqueness constraint of the table is skipped; a
    [link_id] without parent row fails the foreign key, which [OR IGNORE]
    does not cover. *)
Definition insert_or_ignore_alias (i : Z) (a : string) (d : Database)
  : option Database :=
  if negb (has_link_id i d) then None
  else if aliases_unique_pair (schema d) && has_alias_pair i a d then Some d
  else
    let k := (seq_wiki_link_aliases d + 1)%Z in
    Some (mkDatabase (schema d) (wiki_links d)
            (wiki_link_aliases d ++ [mkAliasRow k i a])%list
            (seq_wiki_links d) k).

Definition insertWikiLinkAlias (linkId : Z) (a : string) : Js unit :=
  d <- getDatabase ;;
  match insert_or_ignore_alias linkId (toLowerCase a) d with
  | Some d' => commit d'
  | None => raise ConstraintFailed
  end.

(** [ORDER BY frequency DESC]: rows of equal frequency stay in rowid
    order. *)
Fixpoint insert_by_frequency (r : WikiLinkRow) (l : list WikiLinkRow)
  : list WikiLinkRow :=
  match l with
  | [] => [r]
  | y :: l' =>
      if (row_frequency r <? row_frequency y)%Z
      then y :: insert_by_frequency r l'
      else r :: l
  end.

Definition order_by_frequency_desc (l : list WikiLinkRow) : list WikiLinkRow :=
  fold_right insert_by_frequency [] l.

(** [SELECT * FROM wiki_link_aliases WHERE link_id = ?] *)
Definition aliases_of (i : Z) (d : Database) : list WikiLinkAliasRow :=
  filter (fun a => (link_id a =? i)%Z) (wiki_link_aliases d).

Definition link_of_row (r : WikiLinkRow) (als : list string) : WikiLink :=
  mkWikiLink (Some (row_id r)) (row_text r) (row_type r) (row_frequency r)
             als (first_seen r) (last_used r).

Definition getAllWikiLinks : Js (list WikiLink) :=
  d <- getDatabase ;;
  ret (map (fun r => link_of_row r (map alias (aliases_of (row_id r) d)))
           (order_by_frequency_desc (wiki_links d))).

Definition findWikiLinkByAlias (a : string) : Js (option WikiLink) :=
  d <- getDatabase ;;
  match find (fun r => String.eqb (alias r) (toLowerCase a))
             (wiki_link_aliases d) with
  | None =>
      match find (fun r => String.eqb (toLowerCase (row_text r)) (toLowerCase a))
                 (wiki_links d) with
      | None => ret None
      | Some linkRow => ret (Some (link_of_row linkRow []))
      end
  | Some aliasRow =>
      match find (fun r => (row_id r =? link_id aliasRow)%Z) (wiki_links d) with
      | None => ret None
      | Some linkRow => ret (Some (link_of_row linkRow []))
      end
  end.

Definition getWikiLinkCount : Js Z :=
  d <- getDatabase ;;
  ret (Z.of_nat (List.length (wiki_links d))).

(** [DELETE FROM wiki_link_aliases; DELETE FROM wiki_links;] *)
Definition clearWikiLinks : Js unit :=
  d <- getDatabase ;;
  commit (mkDatabase (schema d) [] [] (seq_wiki_links d)
                     (seq_wiki_link_aliases d)).

End Queries.

(* ================================================================== *)
(** * Regular expressions for [RegExp.prototype.test] *)
(* ================================================================== *)

(** The patterns of [categorizeLink] are built from character classes,
    sequence, alternation and repetition; they are matched with Brzozowski
    derivatives. *)
Module Regex.
Import JsString.

Inductive regex : Type :=
| Void
| Eps
| Chr (class : ascii -> bool)
| Seq (r1 r2 : regex)
| Alt (r1 r2 : regex)
| Star (r : regex).

Fixpoint nullable (r : regex) : bool :=
  match r with
  | Void => false
  | Eps => true
  | Chr _ => false
  | Seq a b => nullable a && nullable b
  | Alt a b => nullable a || nullable b
  | Star _ => true
  end.

Fixpoint deriv (c : ascii) (r : regex) : regex :=
  match r with
  | Void => Void
  | Eps => Void
  | Chr p => if p c then Eps else Void
  | Seq a b =>
      if nullable a then Alt (Seq (deriv c a) b) (deriv c b)
      else Seq (deriv c a) b
  | Alt a b => Alt (deriv c a) (deriv c b)
  | Star a => Seq (deriv c a) (Star a)
  end.

(** The whole string is matched: a pattern between [^] and [$]. *)
Fixpoint matches (r : regex) (s : string) : bool :=
  match s with
  | EmptyString => nullable r
  | String c s' => matches (deriv c r) s'
  end.

Definition any : regex := Chr (fun _ => true).

(** A literal; with the [i] flag letters match in either case. *)
Fixpoint lit (ci : bool) (s : string) : regex :=
  match s with
  | EmptyString => Eps
  | String a s' => Seq (Chr (AutoLink.char_eq ci a)) (lit ci s')
  end.

Definition plus (r : regex) : regex := Seq r (Star r).
Definition opt (r : regex) : regex := Alt r Eps.

Fixpoint alts (rs : list regex) : regex :=
  match rs with
  | [] => Void
  | [r] => r
  | r :: rs' => Alt r (alts rs')
  end.

(** [/r/.test(s)]: some substring is matched. *)
Definition test (r : regex) (s : string) : bool :=
  matches (Seq (Star any) (Seq r (Star any))) s.

(** [/r$/.test(s)]: some suffix is matched. *)
Definition test_at_end (r : regex) (s : string) : bool :=
  matches (Seq (Star any) r) s.

End Regex.

(* ================================================================== *)
(** * The wiki-link service ([services/WikiLinkService.ts]) *)
(* ================================================================== *)

Module WikiLinkService.
Import JsString.
Import Regex.

(** One hour. *)
Definition CACHE_TTL_MS : Z := 60 * 60 * 1000.

(** ** The cache, a [Map<string, WikiLink>] in insertion order *)

Definition Cache := list (string * WikiLink).

(** [Map.prototype.set]: an existing key keeps its place and takes the new
    value, a new key goes to the end. *)
Fixpoint map_set (k : string) (v : WikiLink) (m : Cache) : Cache :=
  match m with
  | [] => [(k, v)]
  | (k', v') :: r =>
      if String.eqb k' k then (k, v) :: r else (k', v') :: map_set k v r
  end.

Definition map_get (k : string) (m : Cache) : option WikiLink :=
  match find (fun e => String.eqb (fst e) k) m with
  | Some e => Some (snd e)
  | None => None
  end.

Definition map_has (k : string) (m : Cache) : bool :=
  existsb (fun e => String.eqb (fst e) k) m.

Definition cache_set (k : string) (v : WikiLink) : Js unit :=
  modify (fun w => set_cache (map_set k v (cache w)) w).

(** ** Classification and aliases *)

Definition digit : regex := Chr is_digit.
Definition upper : regex := Chr is_upper.
Definition lower : regex := Chr is_lower.

(** [/^\d{1,2}\.\d{2}\.\d{2}$/] *)
Definition date_pattern : regex :=
  Seq digit (Seq (opt digit)
    (Seq (lit false ".") (Seq digit (Seq digit
      (Seq (lit false ".") (Seq digit digit)))))).

(** [/^[A-Z][a-z]+ [A-Z][a-z]+$/] *)
Definition person_pattern : regex :=
  Seq upper (Seq (plus lower)
    (Seq (lit false " ") (Seq upper (plus lower)))).

(** [/National Park|2025|2026|Park$|Japan|Mt\.|Lake |River /i]: the
    alternatives that may stand anywhere, and [Park$]. *)
Definition place_anywhere : regex :=
  alts (map (lit true)
            ["National Park"; "2025"; "2026"; "Japan"; "Mt."; "Lake "; "River "]).

Definition place_at_end : regex := lit true "Park".

(** [/^(Lord|Christ|God|Heavenly Father|Holy Ghost|Faith|Gospel)$/i] *)
Definition concept_pattern : regex :=
  alts (map (lit true)
            ["Lord"; "Christ"; "God"; "Heavenly Father"; "Holy Ghost";
             "Faith"; "Gospel"]).

Definition is_date (t : string) : bool := matches date_pattern t.
Definition is_person (t : string) : bool := matches person_pattern t.
Definition is_place (t : string) : bool :=
  test place_anywhere t || test_at_end place_at_end t.
Definition is_concept (t : string) : bool := matches concept_pattern t.

Definition categorizeLink (t : string) : WikiLinkType :=
  if is_date t then date
  else if is_person t then person
  else if is_place t then place
  else if is_concept t then concept
  else unknown.

Definition generateAliases (t : string) : list string :=
  let aliases := [toLowerCase t] in
  let aliases :=
    if includes t " " then
      let parts := split " " t in
      let aliases := (aliases ++ [toLowerCase (nth 0 parts EmptyString)])%list in
      if Nat.eqb (List.length parts) 2
      then (aliases ++ [toLowerCase (nth 1 parts EmptyString)])%list
      else aliases
    else aliases in
  uniq aliases.

(** ** Cache load and invalidation *)

Definition loadLinks : Js unit :=
  size <- gets (fun w => List.length (cache w)) ;;
  now <- gets clock ;;
  expiry <- gets cacheExpiry ;;
  if Nat.ltb 0 size && (now <? expiry)%Z then ret tt
  else
    links <- Queries.getAllWikiLinks ;;
    modify (set_cache []) ;;
    for_each links (fun link =>
      cache_set (toLowerCase (text link)) link ;;
      for_each (aliases link) (fun a => cache_set (toLowerCase a) link)) ;;
    now' <- gets clock ;;
    modify (set_cacheExpiry (now' + CACHE_TTL_MS)%Z).

Definition invalidateCache : Js unit := modify (set_cacheExpiry 0%Z).

(** ** Matching *)

(** The loop of the partial step: the first entry, in insertion order, whose
    key contains the input or is contained in it. *)
Definition partial_match (lower : string) (m : Cache) : option WikiLink :=
  match find (fun e => includes (fst e) lower || includes lower (fst e)) m with
  | Some e => Some (snd e)
  | None => None
  end.

Definition findMatch (t : string) : Js (option WikiLink) :=
  loadLinks ;;
  let lower := toLowerCase t in
  m <- gets cache ;;
  if map_has lower m then ret (map_get lower m)
  else
    dbMatch <- Queries.findWikiLinkByAlias lower ;;
    match dbMatch with
    | Some l => ret (Some l)
    | None =>
        m' <- gets cache ;;
        ret (partial_match lower m')
    end.

(** ** Writing *)

Definition set_id (i : Z) (l : WikiLink) : WikiLink :=
  mkWikiLink (Some i) (text l) (type l) (frequency l) (aliases l)
             (firstSeen l) (lastUsed l).

Definition addLink (t : string) (ty : option WikiLinkType) : Js WikiLink :=
  let linkType := match ty with Some x => x | None => categorizeLink t end in
  now <- gets clock ;;
  let link := mkWikiLink None t linkType 1 (generateAliases t) now now in
  i <- Queries.upsertWikiLink link ;;
  for_each (aliases link) (fun a => Queries.insertWikiLinkAlias i a) ;;
  invalidateCache ;;
  ret (set_id i link).

Definition bulkAddLinks (links : list WikiLink) : Js unit :=
  for_each links (fun link =>
    i <- Queries.upsertWikiLink link ;;
    for_each (aliases link) (fun a => Queries.insertWikiLinkAlias i a)) ;;
  invalidateCache.

Definition clearAllLinks : Js unit :=
  Queries.clearWikiLinks ;;
  invalidateCache.

(** ** Auto-linking from the cache *)

(** The distinct links of the cache, by text, in the order of [values()]. *)
Fixpoint unique_links (seen : list string) (vals : list WikiLink)
  : list WikiLink :=
  match vals with
  | [] => []
  | l :: r =>
      if existsb (String.eqb (text l)) seen then unique_links seen r
      else l :: unique_links (text l :: seen) r
  end.

Definition autoLinkText (t : string) : Js string :=
  loadLinks ;;
  m <- gets cache ;;
  let allLinks := unique_links [] (map snd m) in
  ret (AutoLink.link_all true (AutoLink.sort_by_length allLinks) t).

End WikiLinkService.

(* ================================================================== *)
(** * File access ([utils/fileSystem.ts]) *)
(* ================================================================== *)

Module FileSystem.
Import JsString.

Definition requestStoragePermissions : Js bool := gets permission.

Definition join (current item : string) : string := current ++ "/" ++ item.

(** [getAllMarkdownFiles(dir)]: the paths pushed by [walk(current)], in
    order.  A directory that cannot be listed contributes nothing; a failing
    [getInfoAsync] ends the loop over the directory it occurs in. *)
Fixpoint walk (current : string) (n : Node) {struct n} : list string :=
  match n with
  | Dir (Some items) =>
      (fix loop (items : list (string * Node)) : list string :=
         match items with
         | [] => []
         | (item, child) :: rest =>
             let fullPath := join current item in
             match child with
             | NoInfo => []
             | Dir _ => (walk fullPath child ++ loop rest)%list
             | File _ =>
                 if endsWith item ".md" then fullPath :: loop rest
                 else loop rest
             end
         end) items
  | _ => []
  end.

Definition getAllMarkdownFiles (dir : string) : Js (list string) :=
  root <- gets vault ;;
  ret (walk dir root).

(** Every path of the tree with what is found there. *)
Fixpoint index (current : string) (n : Node) {struct n}
  : list (string * Node) :=
  (current, n) ::
  match n with
  | Dir (Some items) =>
      (fix loop (items : list (string * Node)) : list (string * Node) :=
         match items with
         | [] => []
         | (item, child) :: rest =>
             (index (join current item) child ++ loop rest)%list
         end) items
  | _ => []
  end.

Definition node_at (root_path : string) (root : Node) (path : string)
  : option Node :=
  match find (fun e => String.eqb (fst e) path) (index root_path root) with
  | Some e => Some (snd e)
  | None => None
  end.

(** [pathExists]: [info.exists], and [false] when [getInfoAsync] throws. *)
Definition pathExists (root_path path : string) : Js bool :=
  root <- gets vault ;;
  match node_at root_path root path with
  | Some (File _) | Some (Dir _) => ret true
  | Some NoInfo | None => ret false
  end.

(** [readTextFile]: [null] if the file does not exist or cannot be read. *)
Definition readTextFile (root_path path : string) : Js (option string) :=
  ok <- pathExists root_path path ;;
  if ok then
    root <- gets vault ;;
    match node_at root_path root path with
    | Some (File (Some content)) => ret (Some content)
    | _ => ret None
    end
  else ret None.

End FileSystem.

(* ================================================================== *)
(** * The vault scan ([services/VaultService.ts]) *)
(* ================================================================== *)

Module VaultService.
Import JsString.

(** The captures of [/\[\[([^\]]+)\]\]/g] in a text, left to right.
    [run] is the longest prefix without a closing bracket. *)
Fixpoint run (s : string) : string * string :=
  match s with
  | EmptyString => (EmptyString, EmptyString)
  | String c r =>
      if Ascii.eqb c "]" then (EmptyString, s)
      else let (a, b) := run r in (String c a, b)
  end.

(** The pattern at the start of [s]: the capture and the length of the
    match. *)
Definition link_here (s : string) : option (string * nat) :=
  match s with
  | String "[" (String "[" r) =>
      let (inner, rest) := run r in
      match inner with
      | EmptyString => None
      | _ => if startsWith rest "]]"
             then Some (inner, String.length inner + 4)
             else None
      end
  | _ => None
  end.

Fixpoint exec_all (skip : nat) (s : string) {struct s} : list string :=
  match s with
  | EmptyString => []
  | String _ r =>
      match skip with
      | S k => exec_all k r
      | O =>
          match link_here s with
          | Some (inner, len) => inner :: exec_all (len - 1) r
          | None => exec_all 0 r
          end
      end
  end.

Definition LinksMap := list (string * WikiLink).

Definition bump (l : WikiLink) : WikiLink :=
  mkWikiLink (id l) (text l) (type l) (frequency l + 1) (aliases l)
             (firstSeen l) (lastUsed l).

(** [linksMap.get(linkText)!.frequency++] *)
Fixpoint increment (k : string) (m : LinksMap) : LinksMap :=
  match m with
  | [] => []
  | (k', v) :: r =>
      if String.eqb k' k then (k', bump v) :: r else (k', v) :: increment k r
  end.

(** The body of the [while] loop for one capture. *)
Definition record_link (now : Date) (m : LinksMap) (capture : string)
  : LinksMap :=
  let linkText := trim capture in
  match linkText with
  | EmptyString => m
  | _ =>
      if WikiLinkService.map_has linkText m then increment linkText m
      else WikiLinkService.map_set linkText
             (mkWikiLink None linkText
                (WikiLinkService.categorizeLink linkText) 1
                (WikiLinkService.generateAliases linkText) now now) m
  end.

(** The [for] loop over the files, [i] counting from [0]. *)
Fixpoint scan_files (root_path : string) (total : Z) (i : Z)
         (files : list string) (m : LinksMap) : Js LinksMap :=
  match files with
  | [] => ret m
  | f :: rest =>
      modify (add_progress (i + 1, total)%Z) ;;
      content <- FileSystem.readTextFile root_path f ;;
      match content with
      | None | Some EmptyString => scan_files root_path total (i + 1)%Z rest m
      | Some c =>
          now <- gets clock ;;
          scan_files root_path total (i + 1)%Z rest
                     (fold_left (record_link now) (exec_all 0 c) m)
      end
  end.

Definition scanVaultForLinks : Js Z :=
  cfg <- gets config ;;
  match cfg with
  | None => ret 0%Z
  | Some c =>
      hasPermission <- FileSystem.requestStoragePermissions ;;
      if negb hasPermission then ret 0%Z
      else
        catch
          (files <- FileSystem.getAllMarkdownFiles (vaultPath c) ;;
           linksMap <- scan_files (vaultPath c)
                         (Z.of_nat (List.length files)) 0%Z files [] ;;
           let links := map snd linksMap in
           WikiLinkService.clearAllLinks ;;
           WikiLinkService.bulkAddLinks links ;;
           ret (Z.of_nat (List.length links)))
          (fun _ => ret 0%Z)
  end.

End VaultService.

(* ================================================================== *)
(** * Properties *)
(* ================================================================== *)

(** A link with the given text, frequency and aliases, for examples. *)
Definition sample_link (t : string) (f : Z) (als : list string) : WikiLink :=
  mkWikiLink None t unknown f als 0%Z 0%Z.

(** A world with an open database and nothing cached. *)
Definition world_with (d : Database) : World :=
  mkWorld true d 1000%Z [] 0%Z None true (Dir (Some [])) [].

(** The database after [bulkAddLinks] of the given links into an empty
    one. *)
Definition database_of (links : list WikiLink) : Database :=
  db (world_of (WikiLinkService.bulkAddLinks links
                  (world_with Queries.empty_database))).

(* ------------------------------------------------------------------ *)
(** ** Auto-linking: a link text inside a wrapped longer one *)
(* ------------------------------------------------------------------ *)

Module AutoLinkExamples.

Definition new_york_city : WikiLink := sample_link "New York City" 1 [].
Definition york : WikiLink := sample_link "York" 1 [].

Definition corpus : Database := database_of [new_york_city; york].

End AutoLinkExamples.

(** C1.  With the canonical texts "New York City" and "York" in the corpus,
    both auto-linkers wrap "New York City" first and then wrap the "York"
    inside the link just made: the look-around of the pattern only sees the
    two characters next to a candidate, and here they are a space on either
    side.  The span consumed by the first replacement is replaced again in
    the same pass. *)
Theorem autoLink_rewraps_inside_link :
  autoLinkText "New York City"
    [AutoLinkExamples.york; AutoLinkExamples.new_york_city]
    = "[[New [[York]] City]]"
  /\ (exists w,
        WikiLinkService.autoLinkText "New York City"
          (world_with AutoLinkExamples.corpus)
        = Returned "[[New [[York]] City]]" w).
Proof.
  split.
  - vm_compute. reflexivity.
  - eexists. vm_compute. reflexivity.
Qed.

(* ------------------------------------------------------------------ *)
(** ** Alias rows *)
(* ------------------------------------------------------------------ *)

Section AliasInserts.
Import Queries.

(** With the table as [initializeSchema] declares it, an insert that
    passes the foreign key always appends a row. *)
Lemma insert_or_ignore_alias_appends (i : Z) (a : string) (d : Database) :
  schema d = initializeSchema ->
  has_link_id i d = true ->
  insert_or_ignore_alias i a d =
    Some (mkDatabase (schema d) (wiki_links d)
            (wiki_link_aliases d ++ [mkAliasRow (seq_wiki_link_aliases d + 1) i a])
            (seq_wiki_links d) (seq_wiki_link_aliases d + 1)%Z).
Proof.
  intros Hs Hl. unfold insert_or_ignore_alias.
  rewrite Hl, Hs. reflexivity.
Qed.

(** Had the table declared [UNIQUE (link_id, alias)], the second insert of
    a pair would have been ignored. *)
Lemma insert_or_ignore_alias_unique_schema (i : Z) (a : string) (d d' : Database) :
  aliases_unique_pair (schema d) = true ->
  insert_or_ignore_alias i a d = Some d' ->
  insert_or_ignore_alias i a d' = Some d'.
Proof.
  unfold insert_or_ignore_alias. intros Hu.
  destruct (has_link_id i d) eqn:Hl; simpl; [|discriminate].
  rewrite Hu. simpl.
  destruct (has_alias_pair i a d) eqn:Hp; intros E; inversion E; subst; clear E.
  - rewrite Hl, Hu, Hp. reflexivity.
  - unfold has_link_id, has_alias_pair in *. simpl. rewrite Hl, Hu. simpl.
    rewrite existsb_app. simpl.
    rewrite Z.eqb_refl, String.eqb_refl. simpl.
    rewrite orb_true_r. reflexivity.
Qed.

Lemma insertWikiLinkAlias_run (w : World) (i : Z) (a : string) :
  db_online w = true ->
  insertWikiLinkAlias i a w =
    match insert_or_ignore_alias i (JsString.toLowerCase a) (db w) with
    | Some d' => Returned tt (set_db d' w)
    | None => Thrown ConstraintFailed w
    end.
Proof.
  intros Hon. unfold insertWikiLinkAlias, getDatabase.
  cbn [bind Monad_Js]. rewrite Hon.
  destruct (insert_or_ignore_alias i (JsString.toLowerCase a) (db w));
    reflexivity.
Qed.

End AliasInserts.

(** C3.  [insertWikiLinkAlias] is not idempotent on the schema the program
    creates: [wiki_link_aliases] has no uniqueness constraint, so
    [INSERT OR IGNORE] has nothing to ignore, and the second insert of the
    same (id, alias) pair stores a second row. *)
Theorem insertWikiLinkAlias_twice_adds_two_rows
        (w : World) (linkId : Z) (a : string) :
  db_online w = true ->
  schema (db w) = Queries.initializeSchema ->
  Queries.has_link_id linkId (db w) = true ->
  let once := world_of (Queries.insertWikiLinkAlias linkId a w) in
  let twice := world_of (Queries.insertWikiLinkAlias linkId a once) in
  wiki_link_aliases (db once) =
    (wiki_link_aliases (db w) ++
     [mkAliasRow (seq_wiki_link_aliases (db w) + 1) linkId
                 (JsString.toLowerCase a)])%list
  /\ wiki_link_aliases (db twice) =
    (wiki_link_aliases (db once) ++
     [mkAliasRow (seq_wiki_link_aliases (db w) + 2) linkId
                 (JsString.toLowerCase a)])%list
  /\ wiki_link_aliases (db twice) <> wiki_link_aliases (db once).
Proof.
  intros Hon Hs Hl. cbv zeta.
  rewrite (insertWikiLinkAlias_run w _ _ Hon).
  rewrite (insert_or_ignore_alias_appends _ _ _ Hs Hl).
  cbn [world_of].
  set (w1 := set_db _ w).
  assert (Hon1 : db_online w1 = true) by exact Hon.
  assert (Hs1 : schema (db w1) = Queries.initializeSchema) by exact Hs.
  assert (Hl1 : Queries.has_link_id linkId (db w1) = true) by exact Hl.
  rewrite (insertWikiLinkAlias_run w1 _ _ Hon1).
  rewrite (insert_or_ignore_alias_appends _ _ _ Hs1 Hl1).
  subst w1. cbn.
  split; [reflexivity|]. split.
  - do 3 f_equal. lia.
  - intros E. apply (f_equal (@List.length _)) in E.
    rewrite !length_app in E. simpl in E. lia.
Qed.

Lemma insertWikiLinkAlias_twice_witness :
  let w := world_with (database_of [sample_link "Nate Stapleton" 1 []]) in
  let once := world_of (Queries.insertWikiLinkAlias 1 "nate" w) in
  let twice := world_of (Queries.insertWikiLinkAlias 1 "nate" once) in
  db_online w = true
  /\ schema (db w) = Queries.initializeSchema
  /\ Queries.has_link_id 1 (db w) = true
  /\ wiki_link_aliases (db twice) <> wiki_link_aliases (db once).
Proof.
  cbv zeta. repeat split; try reflexivity.
  exact (proj2 (proj2 (insertWikiLinkAlias_twice_adds_two_rows
           (world_with (database_of [sample_link "Nate Stapleton" 1 []]))
           1%Z "nate" eq_refl eq_refl eq_refl))).
Defined.

(* ------------------------------------------------------------------ *)
(** ** The scan of a vault that cannot be listed *)
(* ------------------------------------------------------------------ *)

(** [readDirectoryAsync] succeeds on the node. *)
Definition listable (n : Node) : bool :=
  match n with Dir (Some _) => true | _ => false end.

Lemma walk_unlistable (dir : string) (n : Node) :
  listable n = false -> FileSystem.walk dir n = [].
Proof.
  destruct n as [c|[items|]|]; simpl; intros H; try reflexivity; discriminate.
Qed.

(** The world after the commit of an empty scan: both tables empty, the
    cache invalidated. *)
Definition cleared (w : World) : World :=
  set_cacheExpiry 0%Z
    (set_cacheExpiry 0%Z
       (set_db (mkDatabase (schema (db w)) [] [] (seq_wiki_links (db w))
                           (seq_wiki_link_aliases (db w))) w)).

(** C5.  When the root of the vault cannot be listed, [getAllMarkdownFiles]
    swallows the failure and returns no files; [scanVaultForLinks] then takes
    the empty result for a finished walk and commits it: the stored corpus is
    cleared and the scan returns 0.  The [catch] of the scan, which would
    have left the corpus alone, is never reached. *)
Theorem scan_of_unlistable_vault_clears_corpus (w : World) (c : VaultConfig) :
  config w = Some c ->
  permission w = true ->
  db_online w = true ->
  listable (vault w) = false ->
  VaultService.scanVaultForLinks w = Returned 0%Z (cleared w)
  /\ wiki_links (db (cleared w)) = []
  /\ wiki_link_aliases (db (cleared w)) = [].
Proof.
  intros Hc Hp Hon Hl. split; [|split; reflexivity].
  unfold VaultService.scanVaultForLinks.
  cbn [bind Monad_Js gets]. rewrite Hc.
  unfold FileSystem.requestStoragePermissions.
  cbn [bind Monad_Js gets]. rewrite Hp. cbn [negb].
  cbn [catch Exception_Js].
  unfold FileSystem.getAllMarkdownFiles.
  cbn [bind Monad_Js gets ret].
  rewrite (walk_unlistable _ _ Hl).
  cbn [VaultService.scan_files List.length map Z.of_nat ret Monad_Js].
  unfold WikiLinkService.clearAllLinks, Queries.clearWikiLinks,
    Queries.getDatabase.
  cbn [bind Monad_Js]. rewrite Hon.
  reflexivity.
Qed.

Lemma scan_of_unlistable_vault_witness :
  let w := mkWorld true (database_of [sample_link "Nate Stapleton" 3 ["nate"]])
                   1000%Z [] 0%Z (Some (mkVaultConfig "/vault" "Daily Notes"))
                   true (Dir None) [] in
  config w = Some (mkVaultConfig "/vault" "Daily Notes")
  /\ permission w = true
  /\ db_online w = true
  /\ listable (vault w) = false
  /\ List.length (wiki_links (db w)) = 1%nat
  /\ VaultService.scanVaultForLinks w = Returned 0%Z (cleared w).
Proof.
  cbv zeta. do 5 (split; [reflexivity|]).
  apply (scan_of_unlistable_vault_clears_corpus
           (mkWorld true (database_of [sample_link "Nate Stapleton" 3 ["nate"]])
                    1000%Z [] 0%Z (Some (mkVaultConfig "/vault" "Daily Notes"))
                    true (Dir None) [])
           (mkVaultConfig "/vault" "Daily Notes")); reflexivity.
Defined.


Section Aliases.
Import JsString.

Lemma split_not_nil (sep : ascii) (s : string) : split sep s <> [].
Proof.
  destruct s as [|c r]; cbn [split]; [discriminate|].
  destruct (Ascii.eqb c sep); [discriminate|].
  destruct (split sep r); discriminate.
Qed.

Lemma includes_space_cons (c : ascii) (r : string) :
  includes (String c r) " " = Ascii.eqb c " " || includes r " ".
Proof.
  cbn [includes startsWith]. rewrite Ascii.eqb_sym.
  destruct r; cbn [startsWith]; rewrite andb_true_r; reflexivity.
Qed.

(** Without a space there is one piece, the text itself. *)
Lemma split_without_space (s : string) :
  includes s " " = false -> split " " s = [s].
Proof.
  induction s as [|c r IH]; [reflexivity|].
  rewrite includes_space_cons. cbn [split].
  destruct (Ascii.eqb c " "); cbn [orb]; [discriminate|].
  intros H. rewrite (IH H). reflexivity.
Qed.

(** With a space there are at least two. *)
Lemma split_with_space (s : string) :
  includes s " " = true -> exists a b r, split " " s = a :: b :: r.
Proof.
  induction s as [|c r IH]; [discriminate|].
  rewrite includes_space_cons. cbn [split].
  destruct (Ascii.eqb c " "); cbn [orb].
  - intros _. destruct (split " " r) as [|p ps] eqn:E.
    + destruct (split_not_nil _ _ E).
    + eauto.
  - intros H. destruct (IH H) as (a & b & q & E). rewrite E. eauto.
Qed.

Lemma uniq_acc_In (xs seen : list string) (x : string) :
  In x (uniq_acc seen xs) <-> In x xs /\ ~ In x seen.
Proof.
  revert seen. induction xs as [|y r IH]; intros seen; cbn [uniq_acc In].
  - tauto.
  - destruct (existsb (String.eqb y) seen) eqn:E.
    + rewrite IH. apply existsb_exists in E. destruct E as (z & Hz & Ez).
      apply String.eqb_eq in Ez. subst z.
      split; [tauto|]. intros [[->|H] Hn]; tauto.
    + assert (Hy : ~ In y seen).
      { intros Hin.
        assert (T : existsb (String.eqb y) seen = true).
        { apply existsb_exists. exists y. split; [exact Hin|].
          apply String.eqb_refl. }
        rewrite T in E. discriminate. }
      cbn [In]. rewrite IH. cbn [In].
      destruct (string_dec y x) as [->|Hne]; [tauto|]. tauto.
Qed.

Lemma uniq_In (xs : list string) (x : string) : In x (uniq xs) <-> In x xs.
Proof. unfold uniq. rewrite uniq_acc_In. cbn [In]. tauto. Qed.

End Aliases.

(** C6, as the code has it.  The lowercase full text is always an alias.  A
    text without space has no other alias; a text of two tokens has both
    tokens, lowercased, as well; a text of more than two tokens has, besides
    the full text, its first token lowercased, and no other token. *)
Theorem generateAliases_spec (t : string) :
  In (JsString.toLowerCase t) (WikiLinkService.generateAliases t)
  /\ (forall a, JsString.split " " t = [a] ->
        WikiLinkService.generateAliases t = [JsString.toLowerCase t])
  /\ (forall a b, JsString.split " " t = [a; b] ->
        forall x, In x (WikiLinkService.generateAliases t) <->
                  x = JsString.toLowerCase t \/
                  x = JsString.toLowerCase a \/
                  x = JsString.toLowerCase b)
  /\ (forall a b c r, JsString.split " " t = a :: b :: c :: r ->
        forall x, In x (WikiLinkService.generateAliases t) <->
                  x = JsString.toLowerCase t \/
                  x = JsString.toLowerCase a)
  /\ WikiLinkService.generateAliases "Nate Stapleton"
       = ["nate stapleton"; "nate"; "stapleton"]
  /\ WikiLinkService.generateAliases "Climbing" = ["climbing"].
Proof.
  assert (Hin : forall x l, In x (JsString.uniq l) <-> In x l)
    by (intros; apply uniq_In).
  unfold WikiLinkService.generateAliases.
  destruct (JsString.includes t " ") eqn:Hs.
  - destruct (split_with_space _ Hs) as (p & q & rest & E). rewrite E.
    split; [|split; [|split; [|split; [|split]]]].
    + destruct rest; cbn [List.length Nat.eqb]; rewrite Hin; cbn; tauto.
    + intros a Ha. discriminate.
    + intros a b Hab x. inversion Hab; subst.
      cbn [List.length Nat.eqb nth]. rewrite Hin. cbn [In app].
      intuition auto.
    + intros a b c r Hab x. inversion Hab; subst.
      cbn [List.length Nat.eqb nth]. rewrite Hin. cbn [In app].
      intuition auto.
    + vm_compute. reflexivity.
    + vm_compute. reflexivity.
  - rewrite (split_without_space _ Hs).
    split; [|split; [|split; [|split; [|split]]]]; try discriminate.
    + cbn. tauto.
    + intros a _. reflexivity.
    + vm_compute. reflexivity.
    + vm_compute. reflexivity.
Qed.

Lemma generateAliases_spec_witness :
  JsString.split " " "Nate B Stapleton" = ["Nate"; "B"; "Stapleton"]
  /\ (In "stapleton" (WikiLinkService.generateAliases "Nate B Stapleton") <->
      "stapleton" = "nate b stapleton" \/ "stapleton" = "nate").
Proof.
  split; [reflexivity|].
  apply (proj1 (proj2 (proj2 (proj2 (generateAliases_spec "Nate B Stapleton"))))
           "Nate" "B" "Stapleton" []).
  reflexivity.
Defined.

(** The claim as stated fails on a text of three tokens: its first token is
    an alias next to the full text. *)
Lemma generateAliases_three_tokens_counterexample :
  JsString.split " " "Nate B Stapleton" = ["Nate"; "B"; "Stapleton"]
  /\ WikiLinkService.generateAliases "Nate B Stapleton"
       = ["nate b stapleton"; "nate"]
  /\ WikiLinkService.generateAliases "Nate B Stapleton"
       <> [JsString.toLowerCase "Nate B Stapleton"].
Proof.
  split; [reflexivity|]. split; [reflexivity|]. discriminate.
Qed.

(* ------------------------------------------------------------------ *)
(** ** Classification *)
(* ------------------------------------------------------------------ *)

(** The language of a pattern, and the matcher against it. *)
Inductive lang : Regex.regex -> string -> Prop :=
| lang_eps : lang Regex.Eps ""
| lang_chr (p : ascii -> bool) (c : ascii) :
    p c = true -> lang (Regex.Chr p) (String c "")
| lang_seq (r1 r2 : Regex.regex) (s1 s2 : string) :
    lang r1 s1 -> lang r2 s2 -> lang (Regex.Seq r1 r2) (s1 ++ s2)
| lang_alt_l (r1 r2 : Regex.regex) (s : string) :
    lang r1 s -> lang (Regex.Alt r1 r2) s
| lang_alt_r (r1 r2 : Regex.regex) (s : string) :
    lang r2 s -> lang (Regex.Alt r1 r2) s
| lang_star_nil (r : Regex.regex) : lang (Regex.Star r) ""
| lang_star_more (r : Regex.regex) (s1 s2 : string) :
    lang r s1 -> lang (Regex.Star r) s2 -> lang (Regex.Star r) (s1 ++ s2).

Section RegexCorrect.
Import Regex.

Lemma append_is_nil (a b : string) : a ++ b = "" -> a = "" /\ b = "".
Proof. destruct a; cbn; [auto|discriminate]. Qed.

Lemma nullable_lang (r : regex) : nullable r = true <-> lang r "".
Proof.
  induction r as [| |p|r1 IH1 r2 IH2|r1 IH1 r2 IH2|r IH]; cbn [nullable].
  - split; [discriminate|]. intros H. inversion H.
  - split; [constructor|reflexivity].
  - split; [discriminate|]. intros H. inversion H.
  - rewrite andb_true_iff, IH1, IH2. split.
    + intros [H1 H2]. exact (lang_seq _ _ "" "" H1 H2).
    + intros H. inversion H as [| |? ? s1 s2 H1 H2 E1 E2| | | |]; subst.
      destruct (append_is_nil _ _ E2) as [-> ->]. auto.
  - rewrite orb_true_iff, IH1, IH2. split.
    + intros [H|H]; [apply lang_alt_l|apply lang_alt_r]; exact H.
    + intros H. inversion H; subst; auto.
  - split; [constructor|reflexivity].
Qed.

(** A word of a repetition that starts with [c] starts with a word of the
    body that starts with [c]. *)
Lemma lang_star_cons (r : regex) (s : string) :
  lang (Star r) s ->
  forall c s', s = String c s' ->
    exists s1 s2, s' = s1 ++ s2 /\ lang r (String c s1) /\ lang (Star r) s2.
Proof.
  intros H. remember (Star r) as q eqn:Eq.
  induction H as [| | | | | r0 | r0 s1 s2 H1 _ H2 IH2]; try discriminate.
  inversion Eq; subst r0. intros c s' E.
  destruct s1 as [|x s1'].
  - cbn [append] in E. exact (IH2 eq_refl c s' E).
  - cbn [append] in E. inversion E; subst.
    exists s1', s2. auto.
Qed.

Lemma deriv_lang (r : regex) :
  forall c s, lang (deriv c r) s <-> lang r (String c s).
Proof.
  induction r as [| |p|r1 IH1 r2 IH2|r1 IH1 r2 IH2|r IH]; intros c s;
    cbn [deriv].
  - split; intros H; inversion H.
  - split; intros H; inversion H.
  - destruct (p c) eqn:E; split; intros H; inversion H; subst.
    + constructor. exact E.
    + constructor.
    + congruence.
  - destruct (nullable r1) eqn:N.
    + split.
      * intros H. inversion H as [| | |? ? ? H'|? ? ? H'| |]; subst.
        -- inversion H' as [| |? ? s1 s2 H1 H2| | | |]; subst.
           apply IH1 in H1.
           exact (lang_seq _ _ (String c s1) s2 H1 H2).
        -- apply IH2 in H'. apply nullable_lang in N.
           exact (lang_seq _ _ "" (String c s) N H').
      * intros H. inversion H as [| |? ? s1 s2 H1 H2 E1 E2| | | |]; subst.
        destruct s1 as [|x s1'].
        -- cbn [append] in E2. subst s2. apply lang_alt_r. apply IH2. exact H2.
        -- cbn [append] in E2. inversion E2; subst.
           apply lang_alt_l. apply lang_seq; [apply IH1; exact H1|exact H2].
    + split.
      * intros H. inversion H as [| |? ? s1 s2 H1 H2| | | |]; subst.
        apply IH1 in H1. exact (lang_seq _ _ (String c s1) s2 H1 H2).
      * intros H. inversion H as [| |? ? s1 s2 H1 H2 E1 E2| | | |]; subst.
        destruct s1 as [|x s1'].
        -- apply nullable_lang in H1. congruence.
        -- cbn [append] in E2. inversion E2; subst.
           apply lang_seq; [apply IH1; exact H1|exact H2].
  - split.
    + intros H. inversion H; subst;
        [apply lang_alt_l; apply IH1|apply lang_alt_r; apply IH2]; assumption.
    + intros H. inversion H; subst;
        [apply lang_alt_l; apply IH1|apply lang_alt_r; apply IH2]; assumption.
  - split.
    + intros H. inversion H as [| |? ? s1 s2 H1 H2| | | |]; subst.
      apply IH in H1. exact (lang_star_more _ (String c s1) s2 H1 H2).
    + intros H.
      destruct (lang_star_cons _ _ H c s eq_refl) as (s1 & s2 & -> & H1 & H2).
      apply lang_seq; [apply IH; exact H1|exact H2].
Qed.

(** [matches] decides the language of the pattern. *)
Lemma matches_lang (s : string) :
  forall r, matches r s = true <-> lang r s.
Proof.
  induction s as [|c s IH]; intros r; cbn [matches].
  - apply nullable_lang.
  - rewrite IH. apply deriv_lang.
Qed.

End RegexCorrect.

(* ------------------------------------------------------------------ *)
(** ** Upserts *)
(* ------------------------------------------------------------------ *)

(** What the declaration of [wiki_links] maintains: [text] is unique, [id]
    is a key, and no id exceeds the [AUTOINCREMENT] counter. *)
Definition well_formed (d : Database) : Prop :=
  NoDup (map row_text (wiki_links d))
  /\ NoDup (map row_id (wiki_links d))
  /\ Forall (fun r => (row_id r <= seq_wiki_links d)%Z) (wiki_links d).

Definition rows_with_text (t : string) (d : Database) : list WikiLinkRow :=
  filter (fun r => String.eqb (row_text r) t) (wiki_links d).

(** The mutating and reading operations of the store. *)
Inductive store_op : Type :=
| OpUpsert (link : WikiLink)
| OpInsertAlias (linkId : Z) (a : string)
| OpClear
| OpGetAll
| OpFindByAlias (a : string)
| OpCount.

Definition run_op (o : store_op) : Js unit :=
  match o with
  | OpUpsert link => Queries.upsertWikiLink link ;; ret tt
  | OpInsertAlias i a => Queries.insertWikiLinkAlias i a
  | OpClear => Queries.clearWikiLinks
  | OpGetAll => Queries.getAllWikiLinks ;; ret tt
  | OpFindByAlias a => Queries.findWikiLinkByAlias a ;; ret tt
  | OpCount => Queries.getWikiLinkCount ;; ret tt
  end.

(** The world after [n] calls of [upsertWikiLink] with the same link. *)
Fixpoint upsert_times (n : nat) (link : WikiLink) (w : World) : World :=
  match n with
  | O => w
  | S k => upsert_times k link (world_of (Queries.upsertWikiLink link w))
  end.

Section Upserts.
Import Queries.

Definition touched (link : WikiLink) (now : Date) (r : WikiLinkRow)
  : WikiLinkRow :=
  mkRow (row_id r) (row_text r) (type link)
        (JsNumber.add (row_frequency r) 1) (first_seen r) now.

Definition inserted (link : WikiLink) (d : Database) : WikiLinkRow :=
  mkRow (seq_wiki_links d + 1) (text link) (type link) (frequency link)
        (firstSeen link) (lastUsed link).

Lemma upsertWikiLink_run (w : World) (link : WikiLink) :
  db_online w = true ->
  upsertWikiLink link w =
    match select_by_text (text link) (db w) with
    | Some existing =>
        Returned (row_id existing)
          (set_db (update_link (row_id existing)
                               (JsNumber.add (row_frequency existing) 1)
                               (clock w) (type link) (db w)) w)
    | None =>
        Returned (seq_wiki_links (db w) + 1)%Z
          (set_db (mkDatabase (schema (db w))
                     (wiki_links (db w) ++ [inserted link (db w)])
                     (wiki_link_aliases (db w))
                     (seq_wiki_links (db w) + 1)
                     (seq_wiki_link_aliases (db w))) w)
    end.
Proof.
  intros Hon. unfold upsertWikiLink, getDatabase.
  cbn [bind Monad_Js]. rewrite Hon.
  destruct (select_by_text (text link) (db w)) as [ex|] eqn:E.
  - reflexivity.
  - unfold insert_link. rewrite E. reflexivity.
Qed.

Lemma NoDup_map_inj {A B : Type} (f : A -> B) (l : list A) (a b : A) :
  NoDup (map f l) -> In a l -> In b l -> f a = f b -> a = b.
Proof.
  induction l as [|x r IH]; cbn [map In]; [tauto|].
  intros Hnd Ha Hb E. inversion Hnd as [|y q Hnot Hnd']; subst.
  destruct Ha as [->|Ha], Hb as [->|Hb]; auto.
  - exfalso. apply Hnot. rewrite E. apply in_map. exact Hb.
  - exfalso. apply Hnot. rewrite <- E. apply in_map. exact Ha.
Qed.

Lemma find_app_miss {A : Type} (f : A -> bool) (l l' : list A) :
  find f l = None -> find f (l ++ l') = find f l'.
Proof.
  induction l as [|x r IH]; cbn [find app]; [reflexivity|].
  destruct (f x); [discriminate|exact IH].
Qed.

Lemma select_by_text_Some (t : string) (d : Database) (r : WikiLinkRow) :
  select_by_text t d = Some r -> In r (wiki_links d) /\ row_text r = t.
Proof.
  unfold select_by_text. intros H. apply find_some in H.
  destruct H as [Hin He]. apply String.eqb_eq in He. auto.
Qed.

Lemma select_by_text_None (t : string) (d : Database) :
  select_by_text t d = None -> ~ In t (map row_text (wiki_links d)).
Proof.
  unfold select_by_text. intros H Hin.
  apply in_map_iff in Hin. destruct Hin as (r & Hr & Hin).
  pose proof (find_none _ _ H r Hin) as Hn. cbn beta in Hn.
  rewrite Hr, String.eqb_refl in Hn. discriminate.
Qed.

(** A unique text is carried by exactly one row. *)
Lemma one_row_per_text (rows : list WikiLinkRow) (r : WikiLinkRow) :
  NoDup (map row_text rows) -> In r rows ->
  List.length (filter (fun x => String.eqb (row_text x) (row_text r)) rows)
    = 1%nat.
Proof.
  induction rows as [|x q IH]; cbn [map In filter]; [tauto|].
  intros Hnd Hin. inversion Hnd as [|y z Hnot Hnd']; subst.
  destruct Hin as [->|Hin].
  - rewrite String.eqb_refl. cbn [List.length]. f_equal.
    rewrite (proj2 (length_zero_iff_nil _)); [reflexivity|].
    destruct (filter _ q) as [|e l] eqn:F; [reflexivity|].
    exfalso. assert (He : In e (filter (fun x => String.eqb (row_text x) (row_text r)) q))
      by (rewrite F; left; reflexivity).
    apply filter_In in He. destruct He as [He1 He2].
    apply String.eqb_eq in He2. apply Hnot. rewrite <- He2.
    apply in_map. exact He1.
  - destruct (String.eqb (row_text x) (row_text r)) eqn:E.
    + exfalso. apply String.eqb_eq in E. apply Hnot. rewrite E.
      apply in_map. exact Hin.
    + apply IH; assumption.
Qed.

Section Touch.
Variables (link : WikiLink) (now : Date) (ex : WikiLinkRow).

Let upd (r : WikiLinkRow) : WikiLinkRow :=
  if (row_id r =? row_id ex)%Z
  then mkRow (row_id r) (row_text r) (type link)
             (JsNumber.add (row_frequency ex) 1) (first_seen r) now
  else r.

Lemma upd_text (r : WikiLinkRow) : row_text (upd r) = row_text r.
Proof. unfold upd. destruct (row_id r =? row_id ex)%Z; reflexivity. Qed.

Lemma upd_id (r : WikiLinkRow) : row_id (upd r) = row_id r.
Proof. unfold upd. destruct (row_id r =? row_id ex)%Z; reflexivity. Qed.

Lemma update_link_rows (d : Database) :
  wiki_links (update_link (row_id ex) (JsNumber.add (row_frequency ex) 1)
                          now (type link) d)
  = map upd (wiki_links d).
Proof. reflexivity. Qed.

Lemma map_upd_texts (rows : list WikiLinkRow) :
  map row_text (map upd rows) = map row_text rows.
Proof.
  rewrite map_map. apply map_ext. intros r. apply upd_text.
Qed.

Lemma map_upd_ids (rows : list WikiLinkRow) :
  map row_id (map upd rows) = map row_id rows.
Proof.
  rewrite map_map. apply map_ext. intros r. apply upd_id.
Qed.

Lemma find_text_upd (t : string) (rows : list WikiLinkRow) :
  find (fun r => String.eqb (row_text r) t) (map upd rows)
  = option_map upd (find (fun r => String.eqb (row_text r) t) rows).
Proof.
  induction rows as [|x q IH]; cbn [map find]; [reflexivity|].
  rewrite upd_text. destruct (String.eqb (row_text x) t); [reflexivity|].
  exact IH.
Qed.

Lemma filter_text_upd (t : string) (rows : list WikiLinkRow) :
  List.length (filter (fun r => String.eqb (row_text r) t) (map upd rows))
  = List.length (filter (fun r => String.eqb (row_text r) t) rows).
Proof.
  induction rows as [|x q IH]; cbn [map filter]; [reflexivity|].
  rewrite upd_text. destruct (String.eqb (row_text x) t); cbn [List.length];
    rewrite IH; reflexivity.
Qed.

Lemma upd_ex : upd ex = touched link now ex.
Proof. unfold upd, touched. rewrite Z.eqb_refl. reflexivity. Qed.

Lemma upd_other (r : WikiLinkRow) : row_id r <> row_id ex -> upd r = r.
Proof.
  intros H. unfold upd. destruct (Z.eqb_spec (row_id r) (row_id ex)); tauto.
Qed.

Lemma well_formed_update (d : Database) :
  well_formed d ->
  well_formed (update_link (row_id ex) (JsNumber.add (row_frequency ex) 1)
                           now (type link) d).
Proof.
  intros (Ht & Hi & Hs). unfold well_formed.
  rewrite update_link_rows, map_upd_texts, map_upd_ids.
  split; [exact Ht|]. split; [exact Hi|].
  apply Forall_forall. intros r Hr. apply in_map_iff in Hr.
  destruct Hr as (r0 & <- & Hr0). rewrite upd_id.
  rewrite Forall_forall in Hs. exact (Hs r0 Hr0).
Qed.
End Touch.

Lemma well_formed_insert (link : WikiLink) (d : Database) :
  well_formed d ->
  select_by_text (text link) d = None ->
  well_formed (mkDatabase (schema d) (wiki_links d ++ [inserted link d])
                 (wiki_link_aliases d) (seq_wiki_links d + 1)
                 (seq_wiki_link_aliases d)).
Proof.
  intros (Ht & Hi & Hs) Hn. unfold well_formed. cbn [wiki_links seq_wiki_links].
  rewrite !map_app. cbn [map inserted row_text row_id].
  rewrite Forall_forall in Hs.
  split; [|split].
  - apply NoDup_app; [exact Ht | repeat constructor; cbn; tauto |].
    intros x Hx [<-|[]]. exact (select_by_text_None _ _ Hn Hx).
  - apply NoDup_app; [exact Hi | repeat constructor; cbn; tauto |].
    intros x Hx [<-|[]]. apply in_map_iff in Hx.
    destruct Hx as (r & Hr & Hin). specialize (Hs r Hin). cbn beta in Hs. lia.
  - apply Forall_app. split.
    + apply Forall_forall. intros r Hr. specialize (Hs r Hr).
      cbn beta in Hs. lia.
    + repeat constructor. cbn. lia.
Qed.

End Upserts.
Section UpsertProperties.
Import Queries.

Lemma upsert_existing (w : World) (link : WikiLink) (ex : WikiLinkRow) :
  db_online w = true ->
  well_formed (db w) ->
  select_by_text (text link) (db w) = Some ex ->
  let w' := world_of (upsertWikiLink link w) in
  upsertWikiLink link w = Returned (row_id ex) w'
  /\ db_online w' = true
  /\ well_formed (db w')
  /\ List.length (wiki_links (db w')) = List.length (wiki_links (db w))
  /\ select_by_text (text link) (db w') = Some (touched link (clock w) ex)
  /\ (forall t, t <> text link ->
        select_by_text t (db w') = select_by_text t (db w)).
Proof.
  intros Hon Hwf Hsel. cbv zeta.
  rewrite (upsertWikiLink_run w link Hon), Hsel. cbn [world_of].
  destruct (select_by_text_Some _ _ _ Hsel) as [Hin Htxt].
  split; [reflexivity|]. split; [exact Hon|].
  split; [apply well_formed_update; exact Hwf|].
  split; [cbn; apply length_map|].
  split.
  - unfold select_by_text in *. cbn [db set_db].
    rewrite update_link_rows, find_text_upd, Hsel. cbn [option_map].
    rewrite upd_ex. reflexivity.
  - intros t Ht. unfold select_by_text. cbn [db set_db].
    rewrite update_link_rows, find_text_upd.
    destruct (find _ (wiki_links (db w))) as [r|] eqn:F; [|reflexivity].
    cbn [option_map]. f_equal. apply upd_other.
    intros Hid. apply find_some in F. destruct F as [Hr Hrt].
    apply String.eqb_eq in Hrt.
    destruct Hwf as (_ & Hids & _).
    pose proof (NoDup_map_inj row_id _ _ _ Hids Hr Hin Hid). subst r.
    congruence.
Qed.

Lemma upsert_new (w : World) (link : WikiLink) :
  db_online w = true ->
  well_formed (db w) ->
  select_by_text (text link) (db w) = None ->
  let w' := world_of (upsertWikiLink link w) in
  upsertWikiLink link w = Returned (seq_wiki_links (db w) + 1)%Z w'
  /\ db_online w' = true
  /\ well_formed (db w')
  /\ wiki_links (db w') = (wiki_links (db w) ++ [inserted link (db w)])%list
  /\ select_by_text (text link) (db w') = Some (inserted link (db w)).
Proof.
  intros Hon Hwf Hsel. cbv zeta.
  rewrite (upsertWikiLink_run w link Hon), Hsel. cbn [world_of].
  split; [reflexivity|]. split; [exact Hon|].
  split; [apply well_formed_insert; assumption|].
  split; [reflexivity|].
  unfold select_by_text in *. cbn [db set_db wiki_links].
  rewrite (find_app_miss _ _ _ Hsel). cbn [find inserted row_text].
  rewrite String.eqb_refl. reflexivity.
Qed.

Lemma select_count (t : string) (d : Database) (r : WikiLinkRow) :
  well_formed d -> select_by_text t d = Some r ->
  List.length (rows_with_text t d) = 1%nat.
Proof.
  intros (Ht & _) Hsel. destruct (select_by_text_Some _ _ _ Hsel) as [Hin <-].
  apply one_row_per_text; assumption.
Qed.

(** The frequencies of the store are counts that a number holds exactly. *)
Definition count_range (f : Z) : Prop := (0 <= f <= 2 ^ 53)%Z.

Definition counts (d : Database) : Prop :=
  Forall (fun r => count_range (row_frequency r)) (wiki_links d).

(** Adding one to a count: exact below [2^53], without effect at [2^53]. *)
Lemma add_one_count (f : Z) :
  count_range f -> JsNumber.add f 1 = Z.min (f + 1) (2 ^ 53).
Proof.
  unfold count_range, JsNumber.add. intros H.
  change (2 ^ 53)%Z with 9007199254740992%Z in *.
  assert (C : (f + 1 < 9007199254740992 \/ f = 9007199254740991
               \/ f = 9007199254740992)%Z) by lia.
  destruct C as [C|[->| ->]]; [|vm_compute; reflexivity..].
  unfold JsNumber.round. cbv zeta.
  change (2 ^ 53)%Z with 9007199254740992%Z.
  rewrite Z.abs_eq by lia.
  destruct (Z.ltb_spec (f + 1) 9007199254740992); lia.
Qed.

Lemma add_one_count_range (f : Z) :
  count_range f -> count_range (JsNumber.add f 1) /\ (f <= JsNumber.add f 1)%Z.
Proof.
  intros H. rewrite (add_one_count f H). unfold count_range in *.
  change (2 ^ 53)%Z with 9007199254740992%Z in *. lia.
Qed.

(** Repeated calls on a text that is stored. *)
Lemma upsert_times_existing (n : nat) (link : WikiLink) :
  forall (w : World) (ex : WikiLinkRow),
  db_online w = true ->
  well_formed (db w) ->
  select_by_text (text link) (db w) = Some ex ->
  count_range (row_frequency ex) ->
  let wn := upsert_times n link w in
  well_formed (db wn)
  /\ List.length (wiki_links (db wn)) = List.length (wiki_links (db w))
  /\ exists r, select_by_text (text link) (db wn) = Some r
               /\ row_frequency r
                  = Z.min (row_frequency ex + Z.of_nat n) (2 ^ 53).
Proof.
  induction n as [|n IH]; intros w ex Hon Hwf Hsel Hc; cbn [upsert_times].
  - split; [exact Hwf|]. split; [reflexivity|].
    exists ex. split; [exact Hsel|]. unfold count_range in Hc.
    change (2 ^ 53)%Z with 9007199254740992%Z in *. cbn [Z.of_nat]. lia.
  - destruct (upsert_existing w link ex Hon Hwf Hsel)
      as (_ & Hon' & Hwf' & Hlen & Hsel' & _).
    assert (Hc' : count_range (row_frequency (touched link (clock w) ex))).
    { cbn [touched row_frequency]. apply add_one_count_range. exact Hc. }
    destruct (IH _ _ Hon' Hwf' Hsel' Hc') as (Hwfn & Hlenn & r & Hr & Hf).
    split; [exact Hwfn|]. split; [congruence|].
    exists r. split; [exact Hr|]. rewrite Hf. cbn [touched row_frequency].
    rewrite (add_one_count _ Hc). unfold count_range in Hc.
    change (2 ^ 53)%Z with 9007199254740992%Z in *. lia.
Qed.

Lemma reads_keep_world (w : World) :
  world_of ((getAllWikiLinks ;; ret tt) w) = w
  /\ (forall a, world_of ((findWikiLinkByAlias a ;; ret tt) w) = w)
  /\ world_of ((getWikiLinkCount ;; ret tt) w) = w.
Proof.
  unfold getAllWikiLinks, findWikiLinkByAlias, getWikiLinkCount, getDatabase.
  cbn [bind Monad_Js ret].
  destruct (db_online w); cbn [world_of]; repeat split; try reflexivity.
  intros a.
  destruct (find _ (wiki_link_aliases (db w))) as [ar|].
  - destruct (find _ (wiki_links (db w))); reflexivity.
  - destruct (find _ (wiki_links (db w))); reflexivity.
Qed.

(** No operation of the store lowers the frequency of a row that holds a
    count. *)
Lemma run_op_no_decrement (o : store_op) (w : World) :
  well_formed (db w) ->
  forall r r',
    In r (wiki_links (db w)) ->
    count_range (row_frequency r) ->
    In r' (wiki_links (db (world_of (run_op o w)))) ->
    row_id r' = row_id r ->
    (row_frequency r <= row_frequency r')%Z.
Proof.
  intros Hwf r r' Hr Hc Hr' Hid.
  assert (Hsame : In r' (wiki_links (db w)) ->
                  (row_frequency r <= row_frequency r')%Z).
  { intros H. destruct Hwf as (_ & Hids & _).
    rewrite (NoDup_map_inj row_id _ _ _ Hids H Hr Hid). lia. }
  destruct o as [link|i a| | |a| ]; cbn [run_op] in Hr'.
  - (* upsert *)
    assert (E : world_of ((upsertWikiLink link ;; ret tt) w)
                = world_of (upsertWikiLink link w)).
    { cbn [bind Monad_Js ret]. destruct (upsertWikiLink link w); reflexivity. }
    rewrite E in Hr'. clear E.
    destruct (db_online w) eqn:Hon.
    + rewrite (upsertWikiLink_run w link Hon) in Hr'.
      destruct (select_by_text (text link) (db w)) as [ex|] eqn:Hsel;
        cbn [world_of db set_db] in Hr'.
      * rewrite update_link_rows in Hr'. apply in_map_iff in Hr'.
        destruct Hr' as (r0 & <- & Hr0).
        rewrite upd_id in Hid.
        destruct Hwf as (_ & Hids & _).
        pose proof (NoDup_map_inj row_id _ _ _ Hids Hr0 Hr Hid). subst r0.
        destruct (select_by_text_Some _ _ _ Hsel) as [Hex _].
        destruct (Z.eq_dec (row_id r) (row_id ex)) as [Heq|Hne].
        -- pose proof (NoDup_map_inj row_id _ _ _ Hids Hr Hex Heq). subst r.
           rewrite upd_ex. cbn [touched row_frequency].
           apply add_one_count_range. exact Hc.
        -- rewrite (upd_other _ _ _ _ Hne). lia.
      * cbn [wiki_links] in Hr'. apply in_app_iff in Hr'.
        destruct Hr' as [H|[<-|[]]]; [exact (Hsame H)|].
        cbn [inserted row_id] in Hid.
        destruct Hwf as (_ & _ & Hseq). rewrite Forall_forall in Hseq.
        specialize (Hseq r Hr). cbn beta in Hseq. lia.
    + unfold upsertWikiLink, getDatabase in Hr'.
      cbn [bind Monad_Js] in Hr'. rewrite Hon in Hr'. exact (Hsame Hr').
  - (* alias insert *)
    unfold insertWikiLinkAlias, getDatabase in Hr'.
    cbn [bind Monad_Js] in Hr'.
    destruct (db_online w); [|exact (Hsame Hr')].
    unfold insert_or_ignore_alias in Hr'.
    destruct (negb (has_link_id i (db w))); [exact (Hsame Hr')|].
    destruct (aliases_unique_pair (schema (db w))
              && has_alias_pair i (JsString.toLowerCase a) (db w));
      exact (Hsame Hr').
  - (* clear *)
    unfold clearWikiLinks, getDatabase in Hr'. cbn [bind Monad_Js] in Hr'.
    destruct (db_online w); [destruct Hr'|exact (Hsame Hr')].
  - rewrite (proj1 (reads_keep_world w)) in Hr'. exact (Hsame Hr').
  - rewrite (proj1 (proj2 (reads_keep_world w))) in Hr'. exact (Hsame Hr').
  - rewrite (proj2 (proj2 (reads_keep_world w))) in Hr'. exact (Hsame Hr').
Qed.

End UpsertProperties.

(** C7.  [upsertWikiLink] merges by canonical text.  On a database whose
    texts are unique and whose frequencies are counts of at most [2^53], a
    call for a stored text returns the id of its row, sets [last_used] to the
    current time and leaves the number of rows as it was; it adds exactly 1
    to the frequency while that is below [2^53], and leaves a frequency of
    [2^53] as it is, because [2^53 + 1] is not a JavaScript number.  A call
    for a new text appends one row with the frequency given.  Either way the
    text is carried by exactly one row afterwards, and it still is after any
    number of further calls, each of which adds 1 up to [2^53].  No
    operation of the store lowers the frequency of a row. *)
Theorem upsertWikiLink_merges_by_text (w : World) (link : WikiLink) :
  db_online w = true ->
  well_formed (db w) ->
  counts (db w) ->
  count_range (frequency link) ->
  let w' := world_of (Queries.upsertWikiLink link w) in
  well_formed (db w')
  /\ List.length (rows_with_text (text link) (db w')) = 1%nat
  /\ match Queries.select_by_text (text link) (db w) with
     | Some existing =>
         Queries.upsertWikiLink link w = Returned (row_id existing) w'
         /\ List.length (wiki_links (db w')) = List.length (wiki_links (db w))
         /\ Queries.select_by_text (text link) (db w')
            = Some (mkRow (row_id existing) (row_text existing) (type link)
                          (Z.min (row_frequency existing + 1) (2 ^ 53))
                          (first_seen existing) (clock w))
     | None =>
         Queries.upsertWikiLink link w
           = Returned (seq_wiki_links (db w) + 1)%Z w'
         /\ wiki_links (db w')
            = (wiki_links (db w) ++
               [mkRow (seq_wiki_links (db w) + 1) (text link) (type link)
                      (frequency link) (firstSeen link) (lastUsed link)])%list
     end
  /\ (forall n,
        let wn := upsert_times (S n) link w in
        List.length (rows_with_text (text link) (db wn)) = 1%nat
        /\ exists r,
             Queries.select_by_text (text link) (db wn) = Some r
             /\ row_frequency r =
                match Queries.select_by_text (text link) (db w) with
                | Some existing =>
                    Z.min (row_frequency existing + Z.of_nat (S n)) (2 ^ 53)
                | None => Z.min (frequency link + Z.of_nat n) (2 ^ 53)
                end)
  /\ (forall o r r',
        In r (wiki_links (db w)) ->
        In r' (wiki_links (db (world_of (run_op o w)))) ->
        row_id r' = row_id r ->
        (row_frequency r <= row_frequency r')%Z).
Proof.
  intros Hon Hwf Hcs Hcl. cbv zeta.
  assert (Hdec : forall o r r',
             In r (wiki_links (db w)) ->
             In r' (wiki_links (db (world_of (run_op o w)))) ->
             row_id r' = row_id r ->
             (row_frequency r <= row_frequency r')%Z).
  { intros o r r' Hr. apply (run_op_no_decrement o w Hwf r r' Hr).
    unfold counts in Hcs. rewrite Forall_forall in Hcs. exact (Hcs r Hr). }
  destruct (Queries.select_by_text (text link) (db w)) as [ex|] eqn:Hsel.
  - destruct (upsert_existing w link ex Hon Hwf Hsel)
      as (Hret & Hon' & Hwf' & Hlen & Hsel' & _).
    assert (Hc : count_range (row_frequency ex)).
    { unfold counts in Hcs. rewrite Forall_forall in Hcs.
      exact (Hcs ex (proj1 (select_by_text_Some _ _ _ Hsel))). }
    split; [exact Hwf'|].
    split; [exact (select_count _ _ _ Hwf' Hsel')|].
    split.
    { split; [exact Hret|]. split; [exact Hlen|].
      rewrite Hsel'. unfold touched. rewrite (add_one_count _ Hc).
      reflexivity. }
    split; [|exact Hdec].
    intros n.
    destruct (upsert_times_existing (S n) link w ex Hon Hwf Hsel Hc)
      as (Hwfn & _ & r & Hr & Hf).
    split; [exact (select_count _ _ _ Hwfn Hr)|].
    exists r. split; [exact Hr|exact Hf].
  - destruct (upsert_new w link Hon Hwf Hsel)
      as (Hret & Hon' & Hwf' & Hrows & Hsel').
    split; [exact Hwf'|].
    split; [exact (select_count _ _ _ Hwf' Hsel')|].
    split; [split; [exact Hret|exact Hrows]|].
    split; [|exact Hdec].
    intros n. cbn [upsert_times].
    destruct (upsert_times_existing n link _ _ Hon' Hwf' Hsel' Hcl)
      as (Hwfn & _ & r & Hr & Hf).
    split; [exact (select_count _ _ _ Hwfn Hr)|].
    exists r. split; [exact Hr|exact Hf].
Qed.

Lemma upsertWikiLink_merges_by_text_witness :
  let w := world_with (database_of [sample_link "Climbing" 2 ["climbing"]]) in
  let link := sample_link "Climbing" 1 ["climbing"] in
  db_online w = true
  /\ well_formed (db w)
  /\ counts (db w)
  /\ count_range (frequency link)
  /\ List.length (rows_with_text "Climbing"
                    (db (world_of (Queries.upsertWikiLink link w)))) = 1%nat.
Proof.
  cbv zeta.
  assert (Hwf : well_formed
                  (db (world_with (database_of
                                     [sample_link "Climbing" 2 ["climbing"]])))).
  { vm_compute. repeat constructor; cbn; try tauto; try lia.
    discriminate. }
  assert (Hcs : counts
                  (db (world_with (database_of
                                     [sample_link "Climbing" 2 ["climbing"]])))).
  { repeat constructor; vm_compute; discriminate. }
  assert (Hcl : count_range
                  (frequency (sample_link "Climbing" 1 ["climbing"]))).
  { split; vm_compute; discriminate. }
  split; [reflexivity|]. split; [exact Hwf|].
  split; [exact Hcs|]. split; [exact Hcl|].
  exact (proj1 (proj2 (upsertWikiLink_merges_by_text
                         (world_with (database_of
                                        [sample_link "Climbing" 2 ["climbing"]]))
                         (sample_link "Climbing" 1 ["climbing"])
                         eq_refl Hwf Hcs Hcl))).
Defined.

(** The claim as stated fails: a stored frequency of [2^53] is left as it is
    by a further call, since [2^53 + 1] is rounded to [2^53]. *)
Lemma upsertWikiLink_frequency_counterexample :
  let stored := sample_link "Climbing" 9007199254740992 [] in
  let w := world_with (database_of [stored]) in
  let w' := world_of (Queries.upsertWikiLink (sample_link "Climbing" 1 []) w) in
  db_online w = true
  /\ option_map row_frequency (Queries.select_by_text "Climbing" (db w))
     = Some 9007199254740992%Z
  /\ option_map row_frequency (Queries.select_by_text "Climbing" (db w'))
     = Some 9007199254740992%Z
  /\ (9007199254740992 + 1)%Z <> 9007199254740992%Z.
Proof.
  cbv zeta. split; [reflexivity|]. split; [vm_compute; reflexivity|].
  split; [vm_compute; reflexivity|]. discriminate.
Qed.

(** The invariant holds in the empty database and is kept by every
    operation: it holds in every state the store can reach. *)
Lemma well_formed_empty : well_formed Queries.empty_database.
Proof. repeat split; constructor. Qed.

Lemma run_op_well_formed (o : store_op) (w : World) :
  well_formed (db w) -> well_formed (db (world_of (run_op o w))).
Proof.
  intros Hwf.
  destruct o as [link|i a| | |a| ]; cbn [run_op].
  - assert (E : world_of ((Queries.upsertWikiLink link ;; ret tt) w)
                = world_of (Queries.upsertWikiLink link w)).
    { cbn [bind Monad_Js ret].
      destruct (Queries.upsertWikiLink link w); reflexivity. }
    rewrite E. destruct (db_online w) eqn:Hon.
    + destruct (Queries.select_by_text (text link) (db w)) as [ex|] eqn:Hsel.
      * exact (proj1 (proj2 (proj2 (upsert_existing w link ex Hon Hwf Hsel)))).
      * exact (proj1 (proj2 (proj2 (upsert_new w link Hon Hwf Hsel)))).
    + unfold Queries.upsertWikiLink, Queries.getDatabase.
      cbn [bind Monad_Js]. rewrite Hon. exact Hwf.
  - unfold Queries.insertWikiLinkAlias, Queries.getDatabase.
    cbn [bind Monad_Js].
    destruct (db_online w); [|exact Hwf].
    unfold Queries.insert_or_ignore_alias.
    destruct (negb (Queries.has_link_id i (db w))); [exact Hwf|].
    destruct (aliases_unique_pair (schema (db w))
              && Queries.has_alias_pair i (JsString.toLowerCase a) (db w));
      exact Hwf.
  - unfold Queries.clearWikiLinks, Queries.getDatabase. cbn [bind Monad_Js].
    destruct (db_online w); [|exact Hwf].
    repeat split; constructor.
  - rewrite (proj1 (reads_keep_world w)). exact Hwf.
  - rewrite (proj1 (proj2 (reads_keep_world w))). exact Hwf.
  - rewrite (proj2 (proj2 (reads_keep_world w))). exact Hwf.
Qed.

(* ------------------------------------------------------------------ *)
(** ** Cache load and matching when the store is unavailable *)
(* ------------------------------------------------------------------ *)

Section StoreUnavailable.
Import WikiLinkService.

(** [loadLinks] has to query the store: the cache is empty or expired. *)
Definition must_reload (w : World) : bool :=
  negb (Nat.ltb 0 (List.length (cache w)) && (clock w <? cacheExpiry w)%Z).

Lemma loadLinks_fresh (w : World) :
  must_reload w = false -> loadLinks w = Returned tt w.
Proof.
  unfold must_reload, loadLinks. cbn [bind Monad_Js gets].
  intros H. apply negb_false_iff in H. rewrite H. reflexivity.
Qed.

Lemma loadLinks_offline (w : World) :
  db_online w = false -> must_reload w = true ->
  loadLinks w = Thrown StoreUnavailable w.
Proof.
  unfold must_reload, loadLinks. cbn [bind Monad_Js gets].
  intros Hoff H. apply negb_true_iff in H. rewrite H.
  unfold Queries.getAllWikiLinks, Queries.getDatabase.
  cbn [bind Monad_Js]. rewrite Hoff. reflexivity.
Qed.

Lemma findWikiLinkByAlias_offline (w : World) (a : string) :
  db_online w = false ->
  Queries.findWikiLinkByAlias a w = Thrown StoreUnavailable w.
Proof.
  intros Hoff. unfold Queries.findWikiLinkByAlias, Queries.getDatabase.
  cbn [bind Monad_Js]. rewrite Hoff. reflexivity.
Qed.

End StoreUnavailable.

(** C8, as the code has it.  Neither [loadLinks] nor [findMatch] catches a
    failure of the store.  With the store unavailable, a cache load that has
    to query it throws and leaves the world, the cache included, as it was,
    and so does every [findMatch] that starts with such a load.  While the
    cache is fresh and not empty, [loadLinks] returns without a query and
    [findMatch] answers a cached key from the cache; for any other input it
    goes on to the alias query and throws. *)
Theorem store_failure_propagates (w : World) :
  db_online w = false ->
  (must_reload w = true ->
     WikiLinkService.loadLinks w = Thrown StoreUnavailable w
     /\ forall t, WikiLinkService.findMatch t w = Thrown StoreUnavailable w)
  /\ (must_reload w = false ->
     WikiLinkService.loadLinks w = Returned tt w
     /\ forall t,
          WikiLinkService.findMatch t w =
            if WikiLinkService.map_has (JsString.toLowerCase t) (cache w)
            then Returned
                   (WikiLinkService.map_get (JsString.toLowerCase t) (cache w)) w
            else Thrown StoreUnavailable w).
Proof.
  intros Hoff. split; intros Hr.
  - split; [exact (loadLinks_offline w Hoff Hr)|].
    intros t. unfold WikiLinkService.findMatch.
    cbn [bind Monad_Js]. rewrite (loadLinks_offline w Hoff Hr). reflexivity.
  - split; [exact (loadLinks_fresh w Hr)|].
    intros t. unfold WikiLinkService.findMatch.
    cbn [bind Monad_Js]. rewrite (loadLinks_fresh w Hr).
    cbn [gets].
    destruct (WikiLinkService.map_has (JsString.toLowerCase t) (cache w));
      [reflexivity|].
    rewrite (findWikiLinkByAlias_offline _ _ Hoff). reflexivity.
Qed.

Module StoreUnavailableExamples.

Definition nate : WikiLink :=
  mkWikiLink (Some 1%Z) "Nate Stapleton" person 3
             ["nate stapleton"; "nate"; "stapleton"] 0%Z 0%Z.

(** The store is down and nothing is cached. *)
Definition cold : World :=
  mkWorld false (database_of [nate]) 1000%Z [] 0%Z None true (Dir (Some [])) [].

(** The store is down and the cache is fresh. *)
Definition warm : World :=
  mkWorld false (database_of [nate]) 1000%Z
          [("nate stapleton", nate); ("nate", nate); ("stapleton", nate)]
          5000%Z None true (Dir (Some [])) [].

End StoreUnavailableExamples.

Lemma store_failure_propagates_witness :
  db_online StoreUnavailableExamples.cold = false
  /\ must_reload StoreUnavailableExamples.cold = true
  /\ WikiLinkService.loadLinks StoreUnavailableExamples.cold
     = Thrown StoreUnavailable StoreUnavailableExamples.cold
  /\ db_online StoreUnavailableExamples.warm = false
  /\ must_reload StoreUnavailableExamples.warm = false
  /\ WikiLinkService.loadLinks StoreUnavailableExamples.warm
     = Returned tt StoreUnavailableExamples.warm.
Proof.
  split; [reflexivity|]. split; [reflexivity|].
  split; [exact (proj1 (proj1 (store_failure_propagates
                                 StoreUnavailableExamples.cold eq_refl)
                               eq_refl))|].
  split; [reflexivity|]. split; [reflexivity|].
  exact (proj1 (proj2 (store_failure_propagates
                         StoreUnavailableExamples.warm eq_refl)
                      eq_refl)).
Defined.

(** The claim as stated fails: with the store unavailable and nothing
    cached, the cache load and the match throw instead of returning an empty
    snapshot or no match. *)
Lemma store_failure_counterexample :
  WikiLinkService.loadLinks StoreUnavailableExamples.cold
    = Thrown StoreUnavailable StoreUnavailableExamples.cold
  /\ WikiLinkService.findMatch "Nate" StoreUnavailableExamples.cold
    = Thrown StoreUnavailable StoreUnavailableExamples.cold
  /\ ~ (exists w, WikiLinkService.findMatch "Nate" StoreUnavailableExamples.cold
                  = Returned None w).
Proof.
  split; [reflexivity|]. split; [reflexivity|].
  intros [w H]. vm_compute in H. discriminate.
Qed.

(* ------------------------------------------------------------------ *)
(** ** The cache after a load *)
(* ------------------------------------------------------------------ *)

Section CacheLoad.
Import JsString WikiLinkService.

(** The keys under which a link is put into the cache, in order. *)
Definition link_keys (l : WikiLink) : list string :=
  toLowerCase (text l) :: map toLowerCase (aliases l).

Definition load_link (m : Cache) (l : WikiLink) : Cache :=
  fold_left (fun m k => map_set k l m) (link_keys l) m.

(** The cache the two loops of [loadLinks] build from the loaded list. *)
Definition load_cache (links : list WikiLink) : Cache :=
  fold_left load_link links [].

(** The list [getAllWikiLinks] returns for a database. *)
Definition links_of (d : Database) : list WikiLink :=
  map (fun r => Queries.link_of_row r
                  (map alias (Queries.aliases_of (row_id r) d)))
      (Queries.order_by_frequency_desc (wiki_links d)).

Lemma getAllWikiLinks_run (w : World) :
  db_online w = true ->
  Queries.getAllWikiLinks w = Returned (links_of (db w)) w.
Proof.
  intros Hon. unfold Queries.getAllWikiLinks, Queries.getDatabase.
  cbn [bind Monad_Js]. rewrite Hon. reflexivity.
Qed.

Lemma set_cache_same (w : World) : set_cache (cache w) w = w.
Proof. destruct w; reflexivity. Qed.

Lemma for_each_cache_set {A : Type} (g : A -> string) (l : WikiLink)
      (xs : list A) :
  forall w,
    for_each xs (fun x => cache_set (g x) l) w =
      Returned tt
        (set_cache (fold_left (fun m x => map_set (g x) l m) xs (cache w)) w).
Proof.
  induction xs as [|x r IH]; intros w; cbn [for_each fold_left].
  - cbn [ret Monad_Js]. rewrite set_cache_same. reflexivity.
  - cbn [bind Monad_Js]. unfold cache_set at 1. unfold modify.
    rewrite IH. reflexivity.
Qed.

Lemma fold_left_over_map {A B C : Type} (f : A -> B -> A) (g : C -> B)
      (xs : list C) :
  forall a, fold_left f (map g xs) a = fold_left (fun a x => f a (g x)) xs a.
Proof.
  induction xs as [|x r IH]; intros a; cbn [map fold_left];
    [reflexivity|apply IH].
Qed.

Lemma load_link_run (l : WikiLink) (w : World) :
  (cache_set (toLowerCase (text l)) l ;;
   for_each (aliases l) (fun a => cache_set (toLowerCase a) l)) w
  = Returned tt (set_cache (load_link (cache w) l) w).
Proof.
  cbn [bind Monad_Js]. unfold cache_set at 1. unfold modify.
  rewrite for_each_cache_set. unfold load_link, link_keys.
  cbn [fold_left]. rewrite fold_left_over_map. reflexivity.
Qed.

Lemma for_each_load (links : list WikiLink) :
  forall w,
    for_each links (fun link =>
      cache_set (toLowerCase (text link)) link ;;
      for_each (aliases link) (fun a => cache_set (toLowerCase a) link)) w
    = Returned tt (set_cache (fold_left load_link links (cache w)) w).
Proof.
  induction links as [|l r IH]; intros w; cbn [for_each fold_left].
  - cbn [ret Monad_Js]. rewrite set_cache_same. reflexivity.
  - cbn [bind Monad_Js].
    pose proof (load_link_run l w) as H. cbn [bind Monad_Js] in H.
    rewrite H. rewrite IH. reflexivity.
Qed.

(** The world after a reload. *)
Definition reloaded (w : World) : World :=
  set_cacheExpiry (clock w + CACHE_TTL_MS)%Z
    (set_cache (load_cache (links_of (db w))) w).

Lemma loadLinks_reload (w : World) :
  db_online w = true -> must_reload w = true ->
  loadLinks w = Returned tt (reloaded w).
Proof.
  intros Hon Hr. unfold loadLinks. cbn [bind Monad_Js gets].
  unfold must_reload in Hr. apply negb_true_iff in Hr. rewrite Hr.
  rewrite (getAllWikiLinks_run w Hon).
  unfold modify at 1.
  rewrite for_each_load. reflexivity.
Qed.

(** ** Lookups in a [Map] *)

Lemma map_get_map_set (k k' : string) (v : WikiLink) (m : Cache) :
  map_get k (map_set k' v m)
  = if String.eqb k' k then Some v else map_get k m.
Proof.
  unfold map_get. induction m as [|[k0 v0] r IH]; cbn [map_set find fst snd].
  - destruct (String.eqb k' k); reflexivity.
  - destruct (String.eqb_spec k0 k') as [->|Hne]; cbn [find fst snd].
    + destruct (String.eqb k' k); reflexivity.
    + destruct (String.eqb_spec k0 k) as [->|Hne'].
      * destruct (String.eqb_spec k' k) as [->|_]; [congruence|reflexivity].
      * exact IH.
Qed.

Lemma map_has_get (k : string) (m : Cache) :
  map_has k m = match map_get k m with Some _ => true | None => false end.
Proof.
  unfold map_has, map_get. induction m as [|[k0 v0] r IH]; cbn; [reflexivity|].
  destruct (String.eqb k0 k); [reflexivity|exact IH].
Qed.

Lemma map_get_set_keys (k : string) (l : WikiLink) (ks : list string) :
  forall m,
    map_get k (fold_left (fun m k' => map_set k' l m) ks m)
    = if existsb (String.eqb k) ks then Some l else map_get k m.
Proof.
  induction ks as [|k0 r IH]; intros m; cbn [fold_left existsb];
    [reflexivity|].
  rewrite IH, map_get_map_set, (String.eqb_sym k k0).
  destruct (String.eqb k0 k); cbn [orb]; [|reflexivity].
  destruct (existsb (String.eqb k) r); reflexivity.
Qed.

Lemma existsb_eqb_In (k : string) (ks : list string) :
  existsb (String.eqb k) ks = true <-> In k ks.
Proof.
  rewrite existsb_exists. split.
  - intros (x & Hx & E). apply String.eqb_eq in E. subst. exact Hx.
  - intros H. exists k. split; [exact H|apply String.eqb_refl].
Qed.

Lemma map_get_load_link (k : string) (l : WikiLink) (m : Cache) :
  map_get k (load_link m l)
  = if existsb (String.eqb k) (link_keys l) then Some l else map_get k m.
Proof. apply map_get_set_keys. Qed.

(** The last link of the load list that carries a key owns it. *)
Lemma map_get_load_last (k : string) (e : WikiLink) (after : list WikiLink) :
  forall m,
    In k (link_keys e) ->
    (forall x, In x after -> ~ In k (link_keys x)) ->
    map_get k (fold_left load_link after (load_link m e)) = Some e.
Proof.
  intros m Hk. revert m.
  assert (G : forall m, map_get k m = Some e ->
              (forall x, In x after -> ~ In k (link_keys x)) ->
              map_get k (fold_left load_link after m) = Some e).
  { induction after as [|x r IH]; intros m Hm Hno; cbn [fold_left];
      [exact Hm|].
    apply IH.
    - rewrite map_get_load_link.
      destruct (existsb (String.eqb k) (link_keys x)) eqn:E; [|exact Hm].
      apply existsb_eqb_In in E. destruct (Hno x (or_introl eq_refl) E).
    - intros y Hy. apply Hno. right. exact Hy. }
  intros m Hno. apply G; [|exact Hno].
  rewrite map_get_load_link.
  rewrite (proj2 (existsb_eqb_In k (link_keys e)) Hk). reflexivity.
Qed.

Lemma map_get_load_cache (k : string) (before after : list WikiLink)
      (e : WikiLink) :
  In k (link_keys e) ->
  (forall x, In x after -> ~ In k (link_keys x)) ->
  map_get k (load_cache (before ++ e :: after)) = Some e.
Proof.
  intros Hk Hno. unfold load_cache.
  rewrite fold_left_app. cbn [fold_left].
  apply map_get_load_last; assumption.
Qed.

(** ** The order of the load list *)

Definition by_frequency_desc (a b : WikiLinkRow) : Prop :=
  (row_frequency b <= row_frequency a)%Z.

Lemma insert_by_frequency_In (r x : WikiLinkRow) (l : list WikiLinkRow) :
  In x (Queries.insert_by_frequency r l) <-> x = r \/ In x l.
Proof.
  induction l as [|y q IH]; cbn [Queries.insert_by_frequency In].
  - intuition auto.
  - destruct (row_frequency r <? row_frequency y)%Z; cbn [In].
    + rewrite IH. intuition auto.
    + intuition auto.
Qed.

Lemma insert_by_frequency_sorted (r : WikiLinkRow) (l : list WikiLinkRow) :
  StronglySorted by_frequency_desc l ->
  StronglySorted by_frequency_desc (Queries.insert_by_frequency r l).
Proof.
  induction l as [|y q IH]; intros Hs; cbn [Queries.insert_by_frequency].
  - repeat constructor.
  - inversion Hs as [|? ? Hq Hall]; subst.
    destruct (Z.ltb_spec (row_frequency r) (row_frequency y)) as [Hlt|Hge].
    + constructor; [exact (IH Hq)|].
      apply Forall_forall. intros x Hx.
      apply insert_by_frequency_In in Hx. destruct Hx as [->|Hx].
      * unfold by_frequency_desc. lia.
      * rewrite Forall_forall in Hall. exact (Hall x Hx).
    + constructor; [exact Hs|].
      constructor; [unfold by_frequency_desc; lia|].
      rewrite Forall_forall in Hall. apply Forall_forall. intros x Hx.
      specialize (Hall x Hx). unfold by_frequency_desc in *. lia.
Qed.

Lemma order_by_frequency_desc_sorted (l : list WikiLinkRow) :
  StronglySorted by_frequency_desc (Queries.order_by_frequency_desc l).
Proof.
  induction l as [|r q IH]; cbn; [constructor|].
  apply insert_by_frequency_sorted. exact IH.
Qed.

Lemma links_of_sorted (d : Database) :
  StronglySorted (fun a b => (frequency b <= frequency a)%Z) (links_of d).
Proof.
  unfold links_of.
  induction (order_by_frequency_desc_sorted (wiki_links d))
    as [|r q Hq IH Hall]; cbn [map]; constructor.
  - exact IH.
  - apply Forall_forall. intros x Hx. apply in_map_iff in Hx.
    destruct Hx as (y & <- & Hy). rewrite Forall_forall in Hall.
    exact (Hall y Hy).
Qed.

End CacheLoad.

(** C10, as the code has it.  A cache load takes the links in
    frequency-descending order and lets every key of a link overwrite the
    entry of that key.  If a lowercased alias of [e2] equals the lowercased
    text of an earlier link [e1], and no link after [e2] in the load order
    carries that key, the loaded cache maps the key to [e2] and [findMatch]
    on the text of [e1] returns [e2] at the exact-match step. *)
Theorem alias_shadows_canonical_text
        (w : World) (before after : list WikiLink) (e1 e2 : WikiLink)
        (a : string) :
  db_online w = true ->
  must_reload w = true ->
  links_of (db w) = (before ++ e2 :: after)%list ->
  In e1 before ->
  In a (aliases e2) ->
  JsString.toLowerCase a = JsString.toLowerCase (text e1) ->
  (forall x, In x after -> ~ In (JsString.toLowerCase (text e1)) (link_keys x)) ->
  Queries.getAllWikiLinks w = Returned (before ++ e2 :: after)%list w
  /\ StronglySorted (fun x y => (frequency y <= frequency x)%Z)
                    (before ++ e2 :: after)%list
  /\ WikiLinkService.loadLinks w = Returned tt (reloaded w)
  /\ WikiLinkService.map_get (JsString.toLowerCase (text e1))
                             (cache (reloaded w)) = Some e2
  /\ WikiLinkService.findMatch (text e1) w = Returned (Some e2) (reloaded w).
Proof.
  intros Hon Hr Hl He1 Ha Hlow Hno.
  assert (Hk : In (JsString.toLowerCase (text e1)) (link_keys e2)).
  { unfold link_keys. right. rewrite <- Hlow. apply in_map. exact Ha. }
  assert (Hget : WikiLinkService.map_get (JsString.toLowerCase (text e1))
                   (cache (reloaded w)) = Some e2).
  { cbn [reloaded cache set_cacheExpiry set_cache]. rewrite Hl.
    apply map_get_load_cache; assumption. }
  split; [rewrite <- Hl; exact (getAllWikiLinks_run w Hon)|].
  split; [rewrite <- Hl; apply links_of_sorted|].
  split; [exact (loadLinks_reload w Hon Hr)|].
  split; [exact Hget|].
  unfold WikiLinkService.findMatch. cbn [bind Monad_Js].
  rewrite (loadLinks_reload w Hon Hr). cbn [gets].
  rewrite map_has_get, Hget. reflexivity.
Qed.

Module ShadowExamples.

Definition nate : WikiLink := sample_link "Nate" 3 ["nate"].
Definition nate_stapleton : WikiLink :=
  sample_link "Nate Stapleton" 2 ["nate stapleton"; "nate"; "stapleton"].
Definition nate_jones : WikiLink :=
  sample_link "Nate Jones" 1 ["nate jones"; "nate"; "jones"].

Definition two : World := world_with (database_of [nate; nate_stapleton]).
Definition three : World :=
  world_with (database_of [nate; nate_stapleton; nate_jones]).

End ShadowExamples.

Lemma alias_shadows_canonical_text_witness :
  let w := ShadowExamples.two in
  let e1 := WikiLinkService.set_id 1 ShadowExamples.nate in
  let e2 := WikiLinkService.set_id 2 ShadowExamples.nate_stapleton in
  db_online w = true
  /\ must_reload w = true
  /\ links_of (db w) = [e1; e2]
  /\ WikiLinkService.findMatch "Nate" w = Returned (Some e2) (reloaded w).
Proof.
  cbv zeta. do 3 (split; [reflexivity|]).
  refine (proj2 (proj2 (proj2 (proj2
    (alias_shadows_canonical_text ShadowExamples.two
       [WikiLinkService.set_id 1 ShadowExamples.nate]
       []
       (WikiLinkService.set_id 1 ShadowExamples.nate)
       (WikiLinkService.set_id 2 ShadowExamples.nate_stapleton)
       "nate" eq_refl eq_refl eq_refl _ _ eq_refl _))))).
  - left. reflexivity.
  - right. left. reflexivity.
  - intros x [].
Defined.

(** The claim as stated fails when a third link carries the same key: the
    alias "nate" of "Nate Stapleton" equals the lowercased text of the
    earlier "Nate", yet the cache maps "nate" to "Nate Jones", which is loaded
    last, and [findMatch] returns that link. *)
Lemma alias_shadows_counterexample :
  let w := ShadowExamples.three in
  let e1 := WikiLinkService.set_id 1 ShadowExamples.nate in
  let e2 := WikiLinkService.set_id 2 ShadowExamples.nate_stapleton in
  let e3 := WikiLinkService.set_id 3 ShadowExamples.nate_jones in
  links_of (db w) = [e1; e2; e3]
  /\ In "nate" (aliases e2)
  /\ JsString.toLowerCase "nate" = JsString.toLowerCase (text e1)
  /\ WikiLinkService.map_get (JsString.toLowerCase (text e1))
                             (cache (reloaded w)) = Some e3
  /\ WikiLinkService.findMatch (text e1) w = Returned (Some e3) (reloaded w)
  /\ e3 <> e2.
Proof.
  cbv zeta. split; [reflexivity|].
  split; [right; left; reflexivity|].
  split; [reflexivity|]. split; [reflexivity|]. split; [reflexivity|].
  discriminate.
Qed.

(* ------------------------------------------------------------------ *)
(** ** The partial step of [findMatch] *)
(* ------------------------------------------------------------------ *)

(** A key is a candidate for an input if one contains the other. *)
Definition candidate (lower key : string) : bool :=
  JsString.includes key lower || JsString.includes lower key.

Lemma find_first {A : Type} (f : A -> bool) (l : list A) :
  match find f l with
  | Some x => exists pre post, l = (pre ++ x :: post)%list /\ f x = true
                               /\ forall y, In y pre -> f y = false
  | None => forall y, In y l -> f y = false
  end.
Proof.
  induction l as [|x r IH]; cbn [find].
  - intros y [].
  - destruct (f x) eqn:E.
    + exists [], r. split; [reflexivity|]. split; [exact E|]. intros y [].
    + destruct (find f r) as [z|].
      * destruct IH as (pre & post & -> & Hz & Hpre).
        exists (x :: pre), post. split; [reflexivity|]. split; [exact Hz|].
        intros y [<-|Hy]; [exact E|exact (Hpre y Hy)].
      * intros y [<-|Hy]; [exact E|exact (IH y Hy)].
Qed.

Lemma findWikiLinkByAlias_keeps_world (a : string) (w w' : World)
      (r : option WikiLink) :
  Queries.findWikiLinkByAlias a w = Returned r w' -> w' = w.
Proof.
  unfold Queries.findWikiLinkByAlias, Queries.getDatabase.
  cbn [bind Monad_Js ret].
  destruct (db_online w); [|discriminate].
  destruct (find _ (wiki_link_aliases (db w)));
    destruct (find _ (wiki_links (db w))); intros H; inversion H; reflexivity.
Qed.

(** C4, as the code has it.  When [findMatch] reaches the partial step (the
    lowercased input is no cached key and the alias query finds nothing), it
    returns the link of the first cached key, in the insertion order of the
    cache, that contains the input or is contained in it, and no match if
    there is no such key.  Neither the frequency nor the length of the key
    takes part in the choice. *)
Theorem findMatch_partial_first_in_cache_order (w w1 : World) (t : string) :
  WikiLinkService.loadLinks w = Returned tt w1 ->
  WikiLinkService.map_has (JsString.toLowerCase t) (cache w1) = false ->
  Queries.findWikiLinkByAlias (JsString.toLowerCase t) w1 = Returned None w1 ->
  match WikiLinkService.partial_match (JsString.toLowerCase t) (cache w1) with
  | Some v =>
      WikiLinkService.findMatch t w = Returned (Some v) w1
      /\ exists pre k post,
           cache w1 = (pre ++ (k, v) :: post)%list
           /\ candidate (JsString.toLowerCase t) k = true
           /\ forall e, In e pre ->
                        candidate (JsString.toLowerCase t) (fst e) = false
  | None =>
      WikiLinkService.findMatch t w = Returned None w1
      /\ forall e, In e (cache w1) ->
                   candidate (JsString.toLowerCase t) (fst e) = false
  end.
Proof.
  intros Hload Hmiss Halias.
  assert (Hrun : WikiLinkService.findMatch t w =
                 Returned (WikiLinkService.partial_match
                             (JsString.toLowerCase t) (cache w1)) w1).
  { unfold WikiLinkService.findMatch. cbn [bind Monad_Js].
    rewrite Hload. cbn [gets]. rewrite Hmiss, Halias. reflexivity. }
  rewrite Hrun. unfold WikiLinkService.partial_match.
  pose proof (find_first
                (fun e => JsString.includes (fst e) (JsString.toLowerCase t)
                          || JsString.includes (JsString.toLowerCase t) (fst e))
                (cache w1)) as H.
  destruct (find _ (cache w1)) as [[k v]|].
  - split; [reflexivity|].
    destruct H as (pre & post & Hc & Hk & Hpre).
    exists pre, k, post. split; [exact Hc|]. split; [exact Hk|exact Hpre].
  - split; [reflexivity|exact H].
Qed.

Module PartialExamples.

Definition nate : WikiLink := sample_link "Nate" 5 ["nate"].
Definition natalie : WikiLink := sample_link "Natalie" 3 ["natalie"].
Definition nate_stapleton : WikiLink :=
  sample_link "Nate Stapleton" 1 ["nate stapleton"; "nate"; "stapleton"].

Definition corpus : World :=
  world_with (database_of [nate; natalie; nate_stapleton]).

End PartialExamples.

Lemma findMatch_partial_witness :
  let w := PartialExamples.corpus in
  WikiLinkService.loadLinks w = Returned tt (reloaded w)
  /\ WikiLinkService.map_has (JsString.toLowerCase "nat") (cache (reloaded w))
     = false
  /\ Queries.findWikiLinkByAlias (JsString.toLowerCase "nat") (reloaded w)
     = Returned None (reloaded w)
  /\ WikiLinkService.findMatch "nat" w
     = Returned (Some (WikiLinkService.set_id 3 PartialExamples.nate_stapleton))
                (reloaded w).
Proof.
  cbv zeta. do 3 (split; [reflexivity|]).
  exact (proj1 (findMatch_partial_first_in_cache_order
                  PartialExamples.corpus (reloaded PartialExamples.corpus)
                  "nat" eq_refl eq_refl eq_refl)).
Defined.

(** The claim as stated fails: for the input "nat" the partial step is
    reached, the keys "nate" and "natalie" both contain the input, and
    [findMatch] returns "Nate Stapleton" of frequency 1, whose alias "nate"
    comes first in the cache, although "Natalie" has frequency 3. *)
Lemma findMatch_partial_counterexample :
  let w := PartialExamples.corpus in
  let chosen := WikiLinkService.set_id 3 PartialExamples.nate_stapleton in
  let other := WikiLinkService.set_id 2 PartialExamples.natalie in
  WikiLinkService.map_has "nat" (cache (reloaded w)) = false
  /\ Queries.findWikiLinkByAlias "nat" (reloaded w) = Returned None (reloaded w)
  /\ WikiLinkService.findMatch "nat" w = Returned (Some chosen) (reloaded w)
  /\ WikiLinkService.map_get "natalie" (cache (reloaded w)) = Some other
  /\ candidate "nat" "natalie" = true
  /\ (frequency chosen < frequency other)%Z.
Proof.
  cbv zeta. do 5 (split; [reflexivity|]). reflexivity.
Qed.

(* ------------------------------------------------------------------ *)
(** ** Idempotence of auto-linking *)
(* ------------------------------------------------------------------ *)

(** A link text is linkable when it is not empty and contains none of the
    characters of the link markup and no dollar sign (which the replacement
    template of [replace] would interpret). *)
Definition bracket (c : ascii) : bool := Ascii.eqb c "[" || Ascii.eqb c "]".

Definition plain_char (c : ascii) : bool :=
  negb (bracket c) && negb (Ascii.eqb c "$").

Fixpoint plain (t : string) : bool :=
  match t with
  | EmptyString => true
  | String c r => plain_char c && plain r
  end.

Definition linkable (t : string) : bool :=
  negb (String.eqb t EmptyString) && plain t.

Section Idempotence.
Import JsString AutoLink.

Variable ci : bool.

(** The pattern of [t] matches at a position. *)
Definition cand (t before s : string) : bool :=
  match match_here ci t before s with Some _ => true | None => false end.

(** The pattern of [t] matches at no position of [s]. *)
Fixpoint free (t before s : string) : bool :=
  negb (cand t before s) &&
  match s with
  | EmptyString => true
  | String c r => free t (String c before) r
  end.

(** Wherever [t] matches in [s], [u] matches too and is not longer. *)
Fixpoint dominated (t u before s : string) : bool :=
  implb (cand t before s)
        (cand u before s && Nat.leb (String.length u) (String.length t)) &&
  match s with
  | EmptyString => true
  | String c r => dominated t u (String c before) r
  end.

(** Pointwise [char_eq]. *)
Fixpoint eqv (t m : string) : bool :=
  match t, m with
  | EmptyString, EmptyString => true
  | String a t', String b m' => char_eq ci a b && eqv t' m'
  | _, _ => false
  end.

(** *** Characters *)

Lemma canonical_word (a : ascii) : is_word (canonical a) = is_word a.
Proof. destruct a as [[] [] [] [] [] [] [] []]; vm_compute; reflexivity. Qed.

Lemma canonical_bracket (a : ascii) : bracket (canonical a) = bracket a.
Proof. destruct a as [[] [] [] [] [] [] [] []]; vm_compute; reflexivity. Qed.

Lemma canonical_open (a : ascii) :
  Ascii.eqb (canonical a) "[" = Ascii.eqb a "[".
Proof. destruct a as [[] [] [] [] [] [] [] []]; vm_compute; reflexivity. Qed.

Lemma canonical_close (a : ascii) :
  Ascii.eqb (canonical a) "]" = Ascii.eqb a "]".
Proof. destruct a as [[] [] [] [] [] [] [] []]; vm_compute; reflexivity. Qed.

Lemma char_eq_canonical (a x : ascii) :
  char_eq ci a x = true -> canonical a = canonical x.
Proof.
  unfold char_eq. destruct ci; intros H; apply Ascii.eqb_eq in H;
    [exact H|congruence].
Qed.

Lemma char_eq_word (a x : ascii) :
  char_eq ci a x = true -> is_word x = is_word a.
Proof.
  intros H. apply char_eq_canonical in H.
  rewrite <- (canonical_word x), <- (canonical_word a), H. reflexivity.
Qed.

Lemma char_eq_bracket (a x : ascii) :
  char_eq ci a x = true -> bracket x = bracket a.
Proof.
  intros H. apply char_eq_canonical in H.
  rewrite <- (canonical_bracket x), <- (canonical_bracket a), H. reflexivity.
Qed.

Lemma char_eq_trans (a x y : ascii) :
  char_eq ci a x = true -> char_eq ci x y = true -> char_eq ci a y = true.
Proof.
  unfold char_eq. destruct ci; intros H1 H2;
    apply Ascii.eqb_eq in H1; apply Ascii.eqb_eq in H2;
    apply Ascii.eqb_eq; congruence.
Qed.

Lemma plain_char_not_bracket (c : ascii) :
  plain_char c = true -> bracket c = false.
Proof.
  unfold plain_char. intros H. apply andb_true_iff in H.
  destruct H as [H _]. apply negb_true_iff in H. exact H.
Qed.

Lemma bracket_open : bracket "[" = true.
Proof. reflexivity. Qed.

Lemma bracket_close : bracket "]" = true.
Proof. reflexivity. Qed.

Lemma not_bracket_open (c : ascii) : bracket c = false -> Ascii.eqb c "[" = false.
Proof. unfold bracket. intros H. apply orb_false_iff in H. tauto. Qed.

Lemma not_bracket_close (c : ascii) : bracket c = false -> Ascii.eqb c "]" = false.
Proof. unfold bracket. intros H. apply orb_false_iff in H. tauto. Qed.

Lemma bracket_not_word (c : ascii) : bracket c = true -> is_word c = false.
Proof.
  unfold bracket. intros H. apply orb_true_iff in H.
  destruct H as [H|H]; apply Ascii.eqb_eq in H; subst; reflexivity.
Qed.

(** *** Strings *)

Lemma append_nil (s : string) : s ++ "" = s.
Proof. induction s as [|c r IH]; cbn; [reflexivity|rewrite IH; reflexivity]. Qed.

Lemma append_assoc (a b c : string) : (a ++ b) ++ c = a ++ (b ++ c).
Proof. induction a as [|x r IH]; cbn; [reflexivity|rewrite IH; reflexivity]. Qed.

Lemma length_append (a b : string) :
  String.length (a ++ b) = (String.length a + String.length b)%nat.
Proof. induction a as [|x r IH]; cbn; [reflexivity|rewrite IH; reflexivity]. Qed.

Lemma rev_append_app (a b c : string) :
  rev_append (a ++ b) c = rev_append b (rev_append a c).
Proof.
  revert c. induction a as [|x r IH]; intros c; cbn; [reflexivity|apply IH].
Qed.

(** The last character of a string that is not empty. *)
Lemma head_rev_append (m b : string) (d : option ascii) :
  m <> "" -> head (rev_append m b) = last_char d m.
Proof.
  revert b d. induction m as [|c r IH]; intros b d Hne; [congruence|].
  cbn [rev_append last_char]. destruct r as [|c' r'].
  - reflexivity.
  - apply IH. discriminate.
Qed.

Lemma last_char_nonempty (m : string) (d d' : option ascii) :
  m <> "" -> last_char d m = last_char d' m.
Proof.
  intros H. rewrite <- (head_rev_append m "" d H).
  apply head_rev_append. exact H.
Qed.

(** *** Literal matches *)

Lemma match_literal_split (t s m after : string) :
  match_literal ci t s = Some (m, after) -> s = m ++ after /\ eqv t m = true.
Proof.
  revert s m after. induction t as [|a t' IH]; intros s m after; cbn [match_literal].
  - intros H. inversion H; subst. split; reflexivity.
  - destruct s as [|b s']; [discriminate|].
    destruct (char_eq ci a b) eqn:E; [|discriminate].
    destruct (match_literal ci t' s') as [[m' r']|] eqn:M; [|discriminate].
    intros H. inversion H; subst. destruct (IH _ _ _ M) as [-> Hv].
    split; [reflexivity|]. cbn [eqv]. rewrite E, Hv. reflexivity.
Qed.

Lemma match_literal_eqv (t m after : string) :
  eqv t m = true -> match_literal ci t (m ++ after) = Some (m, after).
Proof.
  revert m. induction t as [|a t' IH]; intros m; destruct m as [|b m'];
    cbn [eqv match_literal append]; try discriminate; [reflexivity|].
  intros H. apply andb_true_iff in H. destruct H as [E Hv].
  rewrite E, (IH _ Hv). reflexivity.
Qed.

Lemma eqv_length (t m : string) :
  eqv t m = true -> String.length m = String.length t.
Proof.
  revert m. induction t as [|a t' IH]; intros m; destruct m as [|b m'];
    cbn [eqv String.length]; try discriminate; [reflexivity|].
  intros H. apply andb_true_iff in H. destruct H as [_ Hv].
  rewrite (IH _ Hv). reflexivity.
Qed.

Lemma eqv_plain_brackets (t m : string) :
  eqv t m = true -> plain t = true ->
  forall x y, m = x ++ y -> y <> "" ->
              match head y with Some c => bracket c = false | None => True end.
Proof.
  revert m. induction t as [|a t' IH]; intros m; destruct m as [|b m'];
    cbn [eqv plain]; try discriminate.
  - intros _ _ x y E. destruct x; destruct y; cbn in E; congruence.
  - intros H Hp x y E Hy. apply andb_true_iff in H. destruct H as [Hc Hv].
    apply andb_true_iff in Hp. destruct Hp as [Ha Hp].
    destruct x as [|x0 x'].
    + cbn in E. subst y. cbn [head].
      rewrite (char_eq_bracket _ _ Hc). apply plain_char_not_bracket. exact Ha.
    + cbn in E. inversion E; subst. exact (IH _ Hv Hp x' y eq_refl Hy).
Qed.


(** *** The pattern at one position *)

Lemma match_here_Some (t b s m after : string) :
  match_here ci t b s = Some (m, after) <->
  preceded_by_open b = false
  /\ boundary (head b) (head s) = true
  /\ match_literal ci t s = Some (m, after)
  /\ boundary (last_char (head b) m) (head after) = true
  /\ followed_by_close after = false.
Proof.
  unfold match_here.
  destruct (preceded_by_open b); [split; [discriminate|intros (H & _); discriminate]|].
  destruct (boundary (head b) (head s)); cbn [negb];
    [|split; [discriminate|intros (_ & H & _); discriminate]].
  destruct (match_literal ci t s) as [[m0 a0]|];
    [|split; [discriminate|intros (_ & _ & H & _); discriminate]].
  destruct (boundary (last_char (head b) m0) (head a0)) eqn:B; cbn [negb].
  - destruct (followed_by_close a0) eqn:F.
    + split; [discriminate|]. intros (_ & _ & H & _ & H'). inversion H; subst.
      congruence.
    + split.
      * intros H. inversion H; subst. auto.
      * intros (_ & _ & H & _). exact H.
  - split; [discriminate|]. intros (_ & _ & H & H' & _). inversion H; subst.
    congruence.
Qed.

Lemma cand_true (t b s : string) :
  cand t b s = true -> exists m after, match_here ci t b s = Some (m, after).
Proof.
  unfold cand. destruct (match_here ci t b s) as [[m a]|]; [eauto|discriminate].
Qed.

Lemma cand_of_match (t b s m after : string) :
  match_here ci t b s = Some (m, after) -> cand t b s = true.
Proof. unfold cand. intros ->. reflexivity. Qed.

Lemma linkable_plain (t : string) : linkable t = true -> plain t = true.
Proof. unfold linkable. intros H. apply andb_true_iff in H. tauto. Qed.

Lemma linkable_nonempty (t : string) : linkable t = true -> t <> "".
Proof.
  unfold linkable. intros H. apply andb_true_iff in H. destruct H as [H _].
  apply negb_true_iff in H. apply String.eqb_neq in H. exact H.
Qed.

Lemma eqv_nonempty (t m : string) : eqv t m = true -> t <> "" -> m <> "".
Proof. destruct t, m; cbn [eqv]; congruence. Qed.

Lemma match_here_end (t b : string) : t <> "" -> match_here ci t b "" = None.
Proof.
  intros Hne. destruct (match_here ci t b "") as [[m a]|] eqn:E; [|reflexivity].
  apply match_here_Some in E. destruct E as (_ & _ & E & _).
  destruct t; [congruence|discriminate].
Qed.

(** *** The replacement text *)

Lemma getSubstitution_plain (m b a t tail : string) :
  plain t = true ->
  getSubstitution m b a (t ++ tail) = t ++ getSubstitution m b a tail.
Proof.
  induction t as [|c r IH]; intros Hp; [reflexivity|].
  cbn [plain] in Hp. apply andb_true_iff in Hp. destruct Hp as [Hc Hp].
  cbn [append getSubstitution].
  assert (E : Ascii.eqb c "$" = false).
  { unfold plain_char in Hc. apply andb_true_iff in Hc. destruct Hc as [_ Hc].
    apply negb_true_iff in Hc. exact Hc. }
  rewrite E, (IH Hp). reflexivity.
Qed.

Lemma getSubstitution_template (m b a t : string) :
  plain t = true -> getSubstitution m b a (template t) = template t.
Proof.
  intros Hp. unfold template.
  change ("[[" ++ t ++ "]]") with (String "[" (String "[" (t ++ "]]"))).
  cbn [getSubstitution].
  change (Ascii.eqb "[" "$") with false. cbn iota.
  rewrite (getSubstitution_plain _ _ _ _ _ Hp). reflexivity.
Qed.

(** *** One step of the scan *)

Lemma scan_skip (t m : string) :
  forall b after,
    scan ci t b (String.length m) (m ++ after)
    = scan ci t (rev_append m b) 0 after.
Proof.
  induction m as [|c r IH]; intros b after.
  - reflexivity.
  - cbn [String.length append rev_append]. rewrite <- IH. reflexivity.
Qed.

Lemma scan_gap (t b : string) (c : ascii) (r : string) :
  match_here ci t b (String c r) = None ->
  scan ci t b 0 (String c r) = String c (scan ci t (String c b) 0 r).
Proof. intros H. cbn [scan]. rewrite H. reflexivity. Qed.

Lemma scan_end (t b : string) : t <> "" -> scan ci t b 0 "" = "".
Proof. intros H. cbn [scan]. rewrite (match_here_end _ _ H). reflexivity. Qed.

Lemma scan_hit (t b s m after : string) :
  linkable t = true ->
  match_here ci t b s = Some (m, after) ->
  scan ci t b 0 s = template t ++ scan ci t (rev_append m b) 0 after.
Proof.
  intros Hl H. pose proof H as H0. apply match_here_Some in H0.
  destruct H0 as (_ & _ & Hm & _). apply match_literal_split in Hm.
  destruct Hm as [-> Hv].
  pose proof (eqv_nonempty _ _ Hv (linkable_nonempty _ Hl)) as Hne.
  destruct m as [|c m']; [congruence|].
  cbn [append] in *. cbn [scan]. rewrite H.
  rewrite (getSubstitution_template _ _ _ _ (linkable_plain _ Hl)).
  cbn [String.length]. rewrite scan_skip. reflexivity.
Qed.

(** The scan as a derivation: it is at the end of the subject, copies a
    character at which the pattern does not match, or replaces a match and
    goes on behind it. *)
Inductive Scan (t : string) : string -> string -> string -> Prop :=
| Scan_end (b : string) : Scan t b "" ""
| Scan_gap (b : string) (c : ascii) (r out : string) :
    match_here ci t b (String c r) = None ->
    Scan t (String c b) r out ->
    Scan t b (String c r) (String c out)
| Scan_hit (b s m after out : string) :
    match_here ci t b s = Some (m, after) ->
    Scan t (rev_append m b) after out ->
    Scan t b s (template t ++ out).

Lemma scan_Scan (t : string) :
  linkable t = true ->
  forall n s b, (String.length s <= n)%nat -> Scan t b s (scan ci t b 0 s).
Proof.
  intros Hl. induction n as [|n IH]; intros s b Hn.
  - destruct s; [|cbn in Hn; lia].
    rewrite (scan_end _ _ (linkable_nonempty _ Hl)). constructor.
  - destruct s as [|c r].
    + rewrite (scan_end _ _ (linkable_nonempty _ Hl)). constructor.
    + destruct (match_here ci t b (String c r)) as [[m after]|] eqn:E.
      * rewrite (scan_hit _ _ _ _ _ Hl E).
        apply (Scan_hit t b (String c r) m after); [exact E|].
        apply IH.
        apply match_here_Some in E. destruct E as (_ & _ & Hm & _).
        apply match_literal_split in Hm. destruct Hm as [Hs Hv].
        pose proof (eqv_nonempty _ _ Hv (linkable_nonempty _ Hl)) as Hne.
        apply (f_equal String.length) in Hs. rewrite length_append in Hs.
        destruct m; [congruence|]. cbn [String.length] in *. lia.
      * rewrite (scan_gap _ _ _ _ E). constructor; [exact E|].
        apply IH. cbn [String.length] in Hn. lia.
Qed.

(** Where the pattern matches nowhere, the replacement changes nothing. *)
Lemma scan_free (t : string) :
  forall s b, free t b s = true -> scan ci t b 0 s = s.
Proof.
  induction s as [|c r IH]; intros b H; cbn [free] in H;
    apply andb_true_iff in H; destruct H as [Hc Hf];
    apply negb_true_iff in Hc; unfold cand in Hc.
  - cbn [scan]. destruct (match_here ci t b ""); [discriminate|reflexivity].
  - destruct (match_here ci t b (String c r)) eqn:E; [discriminate|].
    rewrite (scan_gap _ _ _ _ E), (IH _ Hf). reflexivity.
Qed.


(** *** Neighbouring characters *)

Lemma startsWith_nil (s : string) : startsWith s "" = true.
Proof. destruct s; reflexivity. Qed.

Lemma preceded_by_open_cons (c : ascii) (b : string) :
  preceded_by_open (String c b)
  = Ascii.eqb c "[" &&
    match head b with Some x => Ascii.eqb x "[" | None => false end.
Proof.
  unfold preceded_by_open. cbn [startsWith]. rewrite (Ascii.eqb_sym "[" c).
  destruct b as [|x r]; cbn [startsWith head]; [reflexivity|].
  rewrite (Ascii.eqb_sym "[" x), startsWith_nil, andb_true_r. reflexivity.
Qed.

Lemma followed_by_close_cons (c : ascii) (r : string) :
  followed_by_close (String c r)
  = Ascii.eqb c "]" &&
    match head r with Some x => Ascii.eqb x "]" | None => false end.
Proof.
  unfold followed_by_close. cbn [startsWith]. rewrite (Ascii.eqb_sym "]" c).
  destruct r as [|x r']; cbn [startsWith head]; [reflexivity|].
  rewrite (Ascii.eqb_sym "]" x), startsWith_nil, andb_true_r. reflexivity.
Qed.

Lemma preceded_by_open_head (b : string) :
  head b <> Some "["%char -> preceded_by_open b = false.
Proof.
  destruct b as [|c r]; [reflexivity|]. cbn [head]. intros H.
  rewrite preceded_by_open_cons.
  destruct (Ascii.eqb_spec c "[") as [->|_]; [congruence|reflexivity].
Qed.

(** The character next to a position in the subject and in the output of
    the scan up to there.  Either both sides show the same character and
    agree on a preceding [[[], or the output has just closed a link and the
    subject stands behind the text that was matched. *)
Inductive Ctx (b b' s : string) : Prop :=
| Ctx_same :
    head b = head b' ->
    preceded_by_open b = preceded_by_open b' ->
    Ctx b b' s
| Ctx_after :
    head b' = Some "]"%char ->
    head b <> Some "["%char ->
    boundary (head b) (head s) = true ->
    Ctx b b' s.

Lemma Ctx_start (s : string) : Ctx "" "" s.
Proof. apply Ctx_same; reflexivity. Qed.

Lemma Ctx_open (b b' s : string) :
  Ctx b b' s -> preceded_by_open b' = false -> preceded_by_open b = false.
Proof.
  intros [Hh Hp|_ Hb _] H; [congruence|].
  apply preceded_by_open_head. exact Hb.
Qed.

Lemma Ctx_boundary (b b' s out : string) :
  Ctx b b' s -> head s = head out ->
  boundary (head b') (head out) = true -> boundary (head b) (head s) = true.
Proof.
  intros [Hh _|_ _ Hb] Hs H; [rewrite Hh, Hs; exact H|exact Hb].
Qed.

Lemma Ctx_cons (b b' s r : string) (c : ascii) :
  Ctx b b' s -> Ctx (String c b) (String c b') r.
Proof.
  intros H. apply Ctx_same; [reflexivity|].
  rewrite !preceded_by_open_cons.
  destruct H as [Hh _|Hh' Hb _].
  - rewrite Hh. reflexivity.
  - rewrite Hh'. change (Ascii.eqb "]" "[") with false.
    destruct (head b) as [x|]; [|reflexivity].
    destruct (Ascii.eqb_spec x "[") as [->|_]; [congruence|reflexivity].
Qed.

(** *** Characters related by [char_eq] *)

Definition sim_opt (o o' : option ascii) : Prop :=
  match o, o' with
  | Some a, Some b => char_eq ci a b = true
  | None, None => True
  | _, _ => False
  end.

Lemma sim_opt_word (o o' : option ascii) :
  sim_opt o o' -> word_opt o' = word_opt o.
Proof.
  destruct o as [a|], o' as [b|]; cbn; try tauto.
  apply char_eq_word.
Qed.

Lemma eqv_head (x m y z : string) :
  eqv x m = true -> x <> "" -> sim_opt (head (x ++ y)) (head (m ++ z)).
Proof.
  destruct x as [|a x'], m as [|c m']; cbn [eqv]; try discriminate;
    [congruence|].
  intros H _. apply andb_true_iff in H. cbn. tauto.
Qed.

Lemma eqv_last (x m : string) :
  forall d d', eqv x m = true -> sim_opt d d' ->
               sim_opt (last_char d x) (last_char d' m).
Proof.
  revert m. induction x as [|a x' IH]; intros m d d'; destruct m as [|c m'];
    cbn [eqv last_char]; try discriminate; [tauto|].
  intros H _. apply andb_true_iff in H. destruct H as [Hc Hv].
  apply IH; [exact Hv|exact Hc].
Qed.

Lemma eqv_trans (x y z : string) :
  eqv x y = true -> eqv y z = true -> eqv x z = true.
Proof.
  revert y z. induction x as [|a x' IH]; intros y z; destruct y as [|b y'];
    destruct z as [|c z']; cbn [eqv]; try discriminate; [reflexivity|].
  intros H1 H2. apply andb_true_iff in H1. apply andb_true_iff in H2.
  destruct H1 as [E1 V1], H2 as [E2 V2].
  rewrite (char_eq_trans _ _ _ E1 E2), (IH _ _ V1 V2). reflexivity.
Qed.

Lemma eqv_app_inv (x y m : string) :
  eqv (x ++ y) m = true ->
  exists m1 m2, m = m1 ++ m2 /\ eqv x m1 = true /\ eqv y m2 = true.
Proof.
  revert m. induction x as [|a x' IH]; intros m H.
  - exists "", m. auto.
  - destruct m as [|c m']; cbn [append eqv] in H; [discriminate|].
    apply andb_true_iff in H. destruct H as [Hc Hv].
    destruct (IH _ Hv) as (m1 & m2 & -> & H1 & H2).
    exists (String c m1), m2. cbn [append eqv]. rewrite Hc, H1. auto.
Qed.

Lemma plain_app (x y : string) :
  plain (x ++ y) = true -> plain x = true /\ plain y = true.
Proof.
  induction x as [|a x' IH]; cbn [append plain]; [auto|].
  intros H. apply andb_true_iff in H. destruct H as [Ha Hp].
  destruct (IH Hp). rewrite Ha. auto.
Qed.

(** The first and the last character of a text matched for a plain text are
    no brackets. *)
Lemma eqv_head_plain (x m z : string) :
  eqv x m = true -> plain x = true -> x <> "" ->
  exists c, head (m ++ z) = Some c /\ bracket c = false.
Proof.
  destruct x as [|a x'], m as [|c m']; cbn [eqv plain]; try discriminate;
    [congruence|].
  intros H Hp _. apply andb_true_iff in H. apply andb_true_iff in Hp.
  exists c. split; [reflexivity|].
  rewrite (char_eq_bracket a c (proj1 H)).
  apply plain_char_not_bracket. tauto.
Qed.

Lemma eqv_last_plain (x m : string) :
  forall d, eqv x m = true -> plain x = true -> x <> "" ->
            exists c, last_char d m = Some c /\ bracket c = false.
Proof.
  revert m. induction x as [|a x' IH]; intros m d; destruct m as [|c m'];
    cbn [eqv plain last_char]; try discriminate; [congruence|].
  intros H Hp _. apply andb_true_iff in H. apply andb_true_iff in Hp.
  destruct H as [Hc Hv], Hp as [Ha Hp].
  destruct x' as [|a' x''].
  - destruct m'; [|discriminate]. exists c. split; [reflexivity|].
    rewrite (char_eq_bracket a c Hc). apply plain_char_not_bracket. exact Ha.
  - apply IH; [exact Hv|exact Hp|discriminate].
Qed.

(** A plain text does not match at a bracket. *)
Lemma cand_bracket (t b r : string) (c : ascii) :
  linkable t = true -> bracket c = true -> cand t b (String c r) = false.
Proof.
  intros Hl Hc. destruct (cand t b (String c r)) eqn:E; [|reflexivity].
  apply cand_true in E. destruct E as (m & a & E).
  apply match_here_Some in E. destruct E as (_ & _ & E & _).
  pose proof (linkable_nonempty _ Hl) as Hne.
  pose proof (linkable_plain _ Hl) as Hp.
  destruct t as [|x t']; [congruence|].
  cbn [match_literal] in E.
  destruct (char_eq ci x c) eqn:X; [|discriminate].
  apply char_eq_bracket in X. cbn [plain] in Hp.
  apply andb_true_iff in Hp. destruct Hp as [Hx _].
  apply plain_char_not_bracket in Hx. congruence.
Qed.

Lemma cand_end (t b : string) : t <> "" -> cand t b "" = false.
Proof. intros H. unfold cand. rewrite (match_here_end _ _ H). reflexivity. Qed.


(** *** From the output of a scan back to its subject *)

Section Transfer.
Variables u t' : string.
Hypothesis Hu : linkable u = true.
Hypothesis Ht : linkable t' = true.

(** A match of [u] starts with a character that is no bracket. *)
Lemma hit_head (b s m after : string) :
  match_here ci u b s = Some (m, after) ->
  exists c, head s = Some c /\ bracket c = false.
Proof.
  intros H. apply match_here_Some in H. destruct H as (_ & _ & H & _).
  apply match_literal_split in H. destruct H as [-> Hv].
  exact (eqv_head_plain _ _ _ Hv (linkable_plain _ Hu) (linkable_nonempty _ Hu)).
Qed.

(** The output of a scan starts like its subject, or with the opening
    bracket of a replacement. *)
Lemma Scan_head (b s out : string) :
  Scan u b s out ->
  head s = head out
  \/ (boundary (head b) (head s) = true
      /\ exists c, head s = Some c /\ bracket c = false).
Proof.
  intros H. destruct H as [b|b c r out Hm HS|b s m after out Hm HS].
  - left. reflexivity.
  - left. reflexivity.
  - right. split; [|exact (hit_head _ _ _ _ Hm)].
    apply match_here_Some in Hm. tauto.
Qed.

Lemma Scan_close (b s out : string) :
  Scan u b s out ->
  followed_by_close out = false -> followed_by_close s = false.
Proof.
  intros H. destruct H as [b|b c r out Hm HS|b s m after out Hm HS].
  - intros _. reflexivity.
  - rewrite !followed_by_close_cons.
    destruct (Scan_head _ _ _ HS) as [E|(_ & x & E & Hx)].
    + rewrite E. tauto.
    + intros _. rewrite E, (not_bracket_close _ Hx). apply andb_false_r.
  - intros _. destruct (hit_head _ _ _ _ Hm) as (c & E & Hc).
    destruct s as [|x r]; [reflexivity|]. cbn [head] in E. inversion E; subst.
    rewrite followed_by_close_cons, (not_bracket_close _ Hc). reflexivity.
Qed.

(** A literal match of the plain text [t'] in the output lies in characters
    that the scan copied. *)
Lemma literal_in_output (t : string) :
  plain t = true ->
  forall b s out m after',
    Scan u b s out ->
    match_literal ci t out = Some (m, after') ->
    exists after,
      match_literal ci t s = Some (m, after)
      /\ Scan u (rev_append m b) after after'.
Proof.
  induction t as [|a t IH]; intros Hp b s out m after' HS Hm.
  - cbn [match_literal] in *. inversion Hm; subst.
    exists s. split; [reflexivity|exact HS].
  - cbn [plain] in Hp. apply andb_true_iff in Hp. destruct Hp as [Ha Hp].
    apply plain_char_not_bracket in Ha.
    cbn [match_literal] in Hm.
    destruct out as [|x out']; [discriminate|].
    destruct (char_eq ci a x) eqn:Ex; [|discriminate].
    destruct (match_literal ci t out') as [[m0 r0]|] eqn:M; [|discriminate].
    inversion Hm; subst. clear Hm.
    pose proof (char_eq_bracket _ _ Ex) as Hx. rewrite Ha in Hx.
    inversion HS as [b0|b0 c r out0 Hn HS'|b0 s0 m1 after1 out0 Hn HS'].
    + subst.
      destruct (IH Hp _ _ _ _ _ HS' M) as (after & Hlit & HS'').
      exists after. cbn [match_literal rev_append].
      rewrite Ex, Hlit. split; [reflexivity|exact HS''].
    + subst. discriminate Hx.
Qed.

(** A match of the pattern of [t'] in the output is a match in the
    subject. *)
Lemma cand_in_output (b b' s out : string) :
  Scan u b s out -> Ctx b b' s ->
  cand t' b' out = true -> cand t' b s = true.
Proof.
  intros HS HC H. apply cand_true in H. destruct H as (m & after' & H).
  apply match_here_Some in H. destruct H as (Ho & Hb & Hm & He & Hc).
  destruct (literal_in_output t' (linkable_plain _ Ht) _ _ _ _ _ HS Hm)
    as (after & Hlit & HS').
  pose proof (match_literal_split _ _ _ _ Hlit) as [Hs Hv].
  pose proof (match_literal_split _ _ _ _ Hm) as [Hout _].
  pose proof (eqv_nonempty _ _ Hv (linkable_nonempty _ Ht)) as Hne.
  assert (Hhead : head s = head out).
  { subst s out. destruct m; [congruence|reflexivity]. }
  apply (cand_of_match t' b s m after). apply match_here_Some.
  split; [exact (Ctx_open _ _ _ HC Ho)|].
  split; [exact (Ctx_boundary _ _ _ _ HC Hhead Hb)|].
  split; [exact Hlit|].
  split; [|exact (Scan_close _ _ _ HS' Hc)].
  rewrite (last_char_nonempty m (head b) (head b') Hne).
  destruct (Scan_head _ _ _ HS') as [E|(Hbd & _)].
  - rewrite E. exact He.
  - rewrite (head_rev_append m b (head b') Hne) in Hbd. exact Hbd.
Qed.

(** *** Positions of a concatenation *)

Lemma free_app (x : string) :
  forall b y,
    (forall x1 x2, x = x1 ++ x2 -> x2 <> "" ->
                   cand t' (rev_append x1 b) (x2 ++ y) = false) ->
    free t' (rev_append x b) y = true ->
    free t' b (x ++ y) = true.
Proof.
  induction x as [|c r IH]; intros b y Hall Hy; [exact Hy|].
  cbn [append free]. apply andb_true_iff. split.
  - apply negb_true_iff. apply (Hall "" (String c r)); [reflexivity|discriminate].
  - apply IH; [|exact Hy].
    intros x1 x2 E Hne. apply (Hall (String c x1) x2); [|exact Hne].
    cbn [append]. rewrite E. reflexivity.
Qed.

Lemma dominated_app (x : string) :
  forall b y, dominated t' u b (x ++ y) = true ->
              dominated t' u (rev_append x b) y = true.
Proof.
  induction x as [|c r IH]; intros b y H; [exact H|].
  cbn [append dominated] in H. apply andb_true_iff in H.
  apply IH. tauto.
Qed.

Lemma dominated_here (b s : string) :
  dominated t' u b s = true -> cand t' b s = true ->
  cand u b s = true /\ (String.length u <= String.length t')%nat.
Proof.
  intros H Hc. destruct s; cbn [dominated] in H; apply andb_true_iff in H;
    destruct H as [H _]; rewrite Hc in H; cbn [implb] in H;
    apply andb_true_iff in H; destruct H as [H1 H2];
    apply Nat.leb_le in H2; auto.
Qed.


(** *** Inside a replacement *)

(** A literal match of a plain text in front of a closing bracket ends
    before the bracket. *)
Lemma literal_before_close (t : string) :
  plain t = true ->
  forall x z m after,
    match_literal ci t (x ++ String "]" z) = Some (m, after) ->
    exists x3, x = m ++ x3 /\ after = x3 ++ String "]" z.
Proof.
  induction t as [|a t IH]; intros Hp x z m after H.
  - cbn [match_literal] in H. inversion H; subst. exists x. auto.
  - cbn [plain] in Hp. apply andb_true_iff in Hp. destruct Hp as [Ha Hp].
    apply plain_char_not_bracket in Ha.
    destruct x as [|c x']; cbn [append match_literal] in H.
    + destruct (char_eq ci a "]") eqn:E; [|discriminate].
      apply char_eq_bracket in E. rewrite Ha in E. discriminate.
    + destruct (char_eq ci a c); [|discriminate].
      destruct (match_literal ci t (x' ++ String "]" z)) as [[m0 r0]|] eqn:M;
        [|discriminate].
      inversion H; subst. destruct (IH Hp _ _ _ _ M) as (x3 & -> & ->).
      exists x3. auto.
Qed.

Lemma boundary_sim (l l' r r' : option ascii) :
  sim_opt l l' -> sim_opt r r' -> boundary l' r' = boundary l r.
Proof.
  intros Hl Hr. unfold boundary.
  rewrite (sim_opt_word _ _ Hl), (sim_opt_word _ _ Hr). reflexivity.
Qed.

Lemma head_app_nonempty (x y z : string) :
  x <> "" -> head (x ++ y) = head (x ++ z).
Proof. destruct x; [congruence|reflexivity]. Qed.

(** The pattern of [t'] does not match inside the text of a replacement. *)
Lemma free_inside (b b' s m after out x1 x2 : string) :
  match_here ci u b s = Some (m, after) ->
  dominated t' u b s = true ->
  u = x1 ++ x2 -> x2 <> "" ->
  cand t' (rev_append x1 (String "[" (String "[" b')))
       (x2 ++ String "]" (String "]" out)) = false.
Proof.
  intros Hhit Hdom Hux Hx2.
  destruct x1 as [|a1 x1'].
  - cbn [rev_append]. unfold cand, match_here.
    rewrite preceded_by_open_cons. reflexivity.
  - destruct (cand t' _ _) eqn:E; [exfalso|reflexivity].
    set (x1 := String a1 x1') in *.
    assert (Hx1 : x1 <> "") by discriminate.
    apply cand_true in E. destruct E as (m' & after' & E).
    apply match_here_Some in E. destruct E as (_ & Hb & Hm & He & Hc).
    pose proof (linkable_plain _ Ht) as Hpt.
    pose proof (linkable_plain _ Hu) as Hpu.
    destruct (literal_before_close t' Hpt _ _ _ _ Hm) as (x3 & Ex2 & Eafter).
    pose proof (match_literal_split _ _ _ _ Hm) as [_ Hvt].
    pose proof (eqv_nonempty _ _ Hvt (linkable_nonempty _ Ht)) as Hm'.
    assert (Hx3 : x3 <> "").
    { intros ->. subst after'. cbn [append] in Hc.
      rewrite followed_by_close_cons in Hc. discriminate Hc. }
    apply match_here_Some in Hhit. destruct Hhit as (_ & _ & Hlit & _).
    apply match_literal_split in Hlit. destruct Hlit as [Hs Hvu].
    subst x2. rewrite Hux in Hvu, Hpu.
    destruct (eqv_app_inv _ _ _ Hvu) as (m1 & m23 & Em & Hv1 & Hv23).
    destruct (eqv_app_inv _ _ _ Hv23) as (m2 & m3 & Em23 & Hv2 & Hv3).
    destruct (plain_app _ _ Hpu) as [Hp1 Hp23].
    destruct (plain_app _ _ Hp23) as [_ Hp3].
    pose proof (eqv_nonempty _ _ Hv1 Hx1) as Hm1.
    pose proof (eqv_nonempty _ _ Hv2 Hm') as Hm2.
    subst m23 m s. rewrite append_assoc in Hdom.
    apply dominated_app in Hdom.
    assert (Hc' : cand t' (rev_append m1 b) ((m2 ++ m3) ++ after) = true).
    { rewrite append_assoc.
      apply (cand_of_match t' _ _ m2 (m3 ++ after)). apply match_here_Some.
      destruct (eqv_last_plain _ _ None Hv1 Hp1 Hx1) as (c1 & Ec1 & Hc1).
      destruct (eqv_head_plain _ _ after Hv3 Hp3 Hx3) as (c3 & Ec3 & Hc3).
      rewrite (head_rev_append m1 b None Hm1).
      split; [|split; [|split; [|split]]].
      - apply preceded_by_open_head.
        rewrite (head_rev_append m1 b None Hm1), Ec1.
        intros Q. inversion Q; subst. discriminate Hc1.
      - rewrite (head_rev_append x1 _ None Hx1) in Hb.
        rewrite append_assoc in Hb.
        rewrite <- Hb. apply boundary_sim.
        + apply eqv_last; [exact Hv1|exact I].
        + apply eqv_head; assumption.
      - apply match_literal_eqv. exact (eqv_trans _ _ _ Hvt Hv2).
      - rewrite (last_char_nonempty m2 _ None Hm2).
        rewrite (last_char_nonempty m' _ None Hm') in He.
        rewrite Eafter in He.
        rewrite <- He. apply boundary_sim.
        + apply eqv_last; [exact Hv2|exact I].
        + apply eqv_head; assumption.
      - destruct (m3 ++ after) as [|c r]; [reflexivity|].
        cbn [head] in Ec3. inversion Ec3; subst.
        rewrite followed_by_close_cons, (not_bracket_close _ Hc3).
        reflexivity. }
    destruct (dominated_here _ _ Hdom Hc') as [_ Hlen].
    rewrite Hux in Hlen. rewrite !length_append in Hlen.
    rewrite <- (eqv_length _ _ Hvt) in Hlen.
    destruct x1; [congruence|]. destruct x3; [congruence|].
    cbn [String.length] in Hlen. lia.
Qed.

(** *** The output of one replacement *)

(** If [u] dominates [t'] in the subject, the pattern of [t'] matches
    nowhere in the output of the replacement of [u]. *)
Lemma free_output (b s out : string) :
  Scan u b s out ->
  forall b', dominated t' u b s = true -> Ctx b b' s ->
             free t' b' out = true.
Proof.
  intros HS. induction HS as [b|b c r out Hn HS IH|b s m after out Hhit HS IH];
    intros b' Hdom HC.
  - cbn [free]. rewrite (cand_end _ _ (linkable_nonempty _ Ht)). reflexivity.
  - cbn [free]. apply andb_true_iff. split.
    + apply negb_true_iff.
      destruct (cand t' b' (String c out)) eqn:E; [exfalso|reflexivity].
      pose proof (cand_in_output _ _ _ _
                    (Scan_gap u b c r out Hn HS) HC E) as Hc.
      destruct (dominated_here _ _ Hdom Hc) as [Hcu _].
      unfold cand in Hcu. rewrite Hn in Hcu. discriminate.
    + apply IH.
      * cbn [dominated] in Hdom. apply andb_true_iff in Hdom. tauto.
      * exact (Ctx_cons _ _ _ _ c HC).
  - pose proof Hhit as Hhit'.
    apply match_here_Some in Hhit'. destruct Hhit' as (_ & _ & Hlit & Hend & _).
    apply match_literal_split in Hlit. destruct Hlit as [Hs Hv].
    pose proof (eqv_nonempty _ _ Hv (linkable_nonempty _ Hu)) as Hm.
    unfold template.
    change (("[[" ++ u ++ "]]") ++ out)
      with (String "[" (String "[" ((u ++ "]]") ++ out))).
    rewrite append_assoc.
    change ("]]" ++ out) with (String "]" (String "]" out)).
    cbn [free].
    rewrite !(cand_bracket t' _ _ "[" Ht bracket_open). cbn [negb andb].
    apply free_app.
    + intros x1 x2 E Hx2.
      exact (free_inside b b' s m after out x1 x2 Hhit Hdom E Hx2).
    + cbn [free].
      rewrite !(cand_bracket t' _ _ "]" Ht bracket_close). cbn [negb andb].
      apply IH.
      * subst s. apply dominated_app. exact Hdom.
      * apply Ctx_after.
        -- reflexivity.
        -- rewrite (head_rev_append m b None Hm).
           destruct (eqv_last_plain _ _ None Hv (linkable_plain _ Hu)
                       (linkable_nonempty _ Hu)) as (c & Ec & Hc).
           rewrite Ec. intros Q. inversion Q; subst. discriminate Hc.
        -- rewrite (head_rev_append m b (head b) Hm). exact Hend.
Qed.

End Transfer.

Lemma dominated_refl (u : string) :
  forall b s, dominated u u b s = true.
Proof.
  intros b s. revert b. induction s as [|c r IH]; intros b; cbn [dominated];
    rewrite Nat.leb_refl, andb_true_r;
    destruct (cand u b _); cbn; auto.
Qed.

Lemma free_dominated (t u : string) :
  forall s b, free t b s = true -> dominated t u b s = true.
Proof.
  induction s as [|c r IH]; intros b H; cbn [free] in H; cbn [dominated];
    apply andb_true_iff in H; destruct H as [Hc Hf];
    apply negb_true_iff in Hc; rewrite Hc; cbn [implb andb];
    [reflexivity|apply IH; exact Hf].
Qed.

(** After the replacement of [u] its pattern matches nowhere. *)
Lemma replace_link_free_self (u s : string) :
  linkable u = true -> free u "" (replace_link ci u s) = true.
Proof.
  intros Hu. unfold replace_link.
  apply (free_output u u Hu Hu "" s).
  - apply (scan_Scan u Hu (String.length s)). lia.
  - apply dominated_refl.
  - apply Ctx_start.
Qed.

(** The replacement of [u] creates no match of another pattern. *)
Lemma replace_link_free_other (u t s : string) :
  linkable u = true -> linkable t = true ->
  free t "" s = true -> free t "" (replace_link ci u s) = true.
Proof.
  intros Hu Ht Hf. unfold replace_link.
  apply (free_output u t Hu Ht "" s).
  - apply (scan_Scan u Hu (String.length s)). lia.
  - apply free_dominated. exact Hf.
  - apply Ctx_start.
Qed.

Lemma replace_link_fixed (t s : string) :
  free t "" s = true -> replace_link ci t s = s.
Proof. apply scan_free. Qed.

(** *** The loop over the links *)

Definition linkable_links (links : list WikiLink) : Prop :=
  Forall (fun l => linkable (text l) = true) links.

Lemma link_all_cons (l : WikiLink) (links : list WikiLink) (s : string) :
  link_all ci (l :: links) s = link_all ci links (replace_link ci (text l) s).
Proof. reflexivity. Qed.

Lemma link_all_keeps_free (t : string) (links : list WikiLink) :
  linkable t = true -> linkable_links links ->
  forall s, free t "" s = true -> free t "" (link_all ci links s) = true.
Proof.
  intros Ht Hl. induction Hl as [|l r Hl Hr IH]; intros s Hf; [exact Hf|].
  rewrite link_all_cons. apply IH.
  apply replace_link_free_other; assumption.
Qed.

Lemma link_all_free (links : list WikiLink) :
  linkable_links links ->
  forall s, Forall (fun l => free (text l) "" (link_all ci links s) = true) links.
Proof.
  intros Hl. induction Hl as [|l r Hl Hr IH]; intros s; [constructor|].
  rewrite link_all_cons. constructor.
  - apply link_all_keeps_free; [exact Hl|exact Hr|].
    apply replace_link_free_self. exact Hl.
  - apply IH.
Qed.

Lemma link_all_fixed (links : list WikiLink) (s : string) :
  Forall (fun l => free (text l) "" s = true) links ->
  link_all ci links s = s.
Proof.
  intros H. induction H as [|l r Hl Hr IH]; [reflexivity|].
  rewrite link_all_cons, (replace_link_fixed _ _ Hl). exact IH.
Qed.

Lemma link_all_idempotent (links : list WikiLink) (s : string) :
  linkable_links links ->
  link_all ci links (link_all ci links s) = link_all ci links s.
Proof.
  intros Hl. apply link_all_fixed. apply link_all_free. exact Hl.
Qed.

End Idempotence.

Lemma insert_by_length_linkable (x : WikiLink) (l : list WikiLink) :
  linkable (text x) = true -> linkable_links l ->
  linkable_links (AutoLink.insert_by_length x l).
Proof.
  intros Hx Hl. induction Hl as [|y r Hy Hr IH]; cbn [AutoLink.insert_by_length].
  - repeat constructor. exact Hx.
  - destruct (Nat.ltb _ _).
    + constructor; [exact Hy|exact IH].
    + constructor; [exact Hx|]. constructor; [exact Hy|exact Hr].
Qed.

Lemma sort_by_length_linkable (l : list WikiLink) :
  linkable_links l -> linkable_links (AutoLink.sort_by_length l).
Proof.
  intros H. induction H as [|x r Hx Hr IH]; cbn; [constructor|].
  apply insert_by_length_linkable; assumption.
Qed.

Lemma unique_links_linkable (vals : list WikiLink) :
  linkable_links vals ->
  forall seen, linkable_links (WikiLinkService.unique_links seen vals).
Proof.
  intros H. induction H as [|l r Hl Hr IH]; intros seen;
    cbn [WikiLinkService.unique_links]; [constructor|].
  destruct (existsb _ seen); [apply IH|].
  constructor; [exact Hl|apply IH].
Qed.

Lemma autoLinkText_run (t : string) (w : World) :
  WikiLinkService.autoLinkText t w =
    match WikiLinkService.loadLinks w with
    | Returned _ w' =>
        Returned
          (AutoLink.link_all true
             (AutoLink.sort_by_length
                (WikiLinkService.unique_links [] (map snd (cache w')))) t) w'
    | Thrown e w' => Thrown e w'
    end.
Proof.
  unfold WikiLinkService.autoLinkText. cbn [bind Monad_Js].
  destruct (WikiLinkService.loadLinks w); reflexivity.
Qed.

Lemma loadLinks_cases (w : World) :
  db_online w = true ->
  WikiLinkService.loadLinks w
  = Returned tt (if must_reload w then reloaded w else w).
Proof.
  intros Hon. destruct (must_reload w) eqn:E.
  - exact (loadLinks_reload w Hon E).
  - exact (loadLinks_fresh w E).
Qed.

Lemma loadLinks_again (w : World) :
  db_online w = true ->
  let w1 := if must_reload w then reloaded w else w in
  WikiLinkService.loadLinks w1 = Returned tt w1.
Proof.
  intros Hon. cbv zeta. destruct (must_reload w) eqn:E.
  - rewrite (loadLinks_cases (reloaded w) Hon).
    destruct (must_reload (reloaded w)); reflexivity.
  - rewrite (loadLinks_cases w Hon), E. reflexivity.
Qed.

(** Where the second pass is safe.  Auto-linking is idempotent for link
    texts that are not empty and contain no bracket and no dollar sign: a
    second pass over the output of the first, with the same links, changes
    nothing.  This holds for [autoLinkText] of the markdown generator, for
    the case-insensitive pass of the service over any list of links, and for
    [WikiLinkService.autoLinkText] called again on its own result. *)
Theorem autoLink_idempotent_on_linkable_texts
        (T : string) (E : list WikiLink) :
  linkable_links E ->
  autoLinkText (autoLinkText T E) E = autoLinkText T E
  /\ (forall ci,
        AutoLink.link_all ci (AutoLink.sort_by_length E)
          (AutoLink.link_all ci (AutoLink.sort_by_length E) T)
        = AutoLink.link_all ci (AutoLink.sort_by_length E) T)
  /\ (forall w T1 w1,
        db_online w = true ->
        WikiLinkService.autoLinkText T w = Returned T1 w1 ->
        linkable_links (map snd (cache w1)) ->
        WikiLinkService.autoLinkText T1 w1 = Returned T1 w1).
Proof.
  intros HE.
  assert (Hpure : forall ci,
            AutoLink.link_all ci (AutoLink.sort_by_length E)
              (AutoLink.link_all ci (AutoLink.sort_by_length E) T)
            = AutoLink.link_all ci (AutoLink.sort_by_length E) T).
  { intros ci. apply link_all_idempotent.
    apply sort_by_length_linkable. exact HE. }
  split; [exact (Hpure false)|]. split; [exact Hpure|].
  intros w T1 w1 Hon Hrun Hl.
  rewrite autoLinkText_run, (loadLinks_cases w Hon) in Hrun.
  injection Hrun as HT Hw. subst T1 w1.
  rewrite autoLinkText_run.
  pose proof (loadLinks_again w Hon) as Hagain. cbv zeta in Hagain.
  rewrite Hagain. f_equal.
  apply link_all_idempotent. apply sort_by_length_linkable.
  apply unique_links_linkable. exact Hl.
Qed.

Module IdempotenceExamples.

Definition nate_stapleton : WikiLink := sample_link "Nate Stapleton" 2 [].
Definition nate : WikiLink := sample_link "Nate" 1 [].

(** A text with an opening bracket pair, as the scan extracts it from
    [[[Project [[Apollo]]]. *)
Definition project_apollo : WikiLink := sample_link "Project [[Apollo" 1 [].
Definition apollo_11 : WikiLink := sample_link "Apollo 11" 1 [].

(** A text with the replacement pattern [$&]. *)
Definition rock_and_roll : WikiLink := sample_link "Rock $& Roll" 1 [].

End IdempotenceExamples.

Lemma autoLink_idempotent_witness :
  let E := [IdempotenceExamples.nate; IdempotenceExamples.nate_stapleton] in
  linkable_links E
  /\ autoLinkText "Nate met Nate Stapleton." E
     = "[[Nate]] met [[Nate Stapleton]]."
  /\ autoLinkText (autoLinkText "Nate met Nate Stapleton." E) E
     = autoLinkText "Nate met Nate Stapleton." E.
Proof.
  cbv zeta.
  assert (H : linkable_links
                [IdempotenceExamples.nate; IdempotenceExamples.nate_stapleton])
    by (repeat constructor).
  split; [exact H|]. split; [reflexivity|].
  exact (proj1 (autoLink_idempotent_on_linkable_texts
                  "Nate met Nate Stapleton."
                  [IdempotenceExamples.nate; IdempotenceExamples.nate_stapleton]
                  H)).
Defined.

(** C2.  Auto-linking is not idempotent.  The pattern guards against
    linking inside a link only by looking for [[[] directly before and []]]
    directly after a candidate, and the link text is escaped for the pattern
    but not for the replacement string, in which [$&] stands for the matched
    text.  With the link texts "Project [[Apollo" and "Apollo 11" the first
    pass over "Project Apollo 11" wraps "Apollo 11" and the second pass wraps
    the longer text around the link just made; with the link text
    "Rock $& Roll" every pass doubles the words around the pattern and so
    leaves a new occurrence of the link text for the next pass.  Both
    auto-linkers, [autoLinkText] of the markdown generator and
    [WikiLinkService.autoLinkText], change their own output. *)
Theorem autoLink_not_idempotent :
  let E := [IdempotenceExamples.project_apollo; IdempotenceExamples.apollo_11] in
  let D := [IdempotenceExamples.rock_and_roll] in
  autoLinkText "Project Apollo 11" E = "Project [[Apollo 11]]"
  /\ autoLinkText (autoLinkText "Project Apollo 11" E) E
     = "[[Project [[Apollo]] 11]]"
  /\ autoLinkText "Rock $& Roll" D = "[[Rock Rock $& Roll Roll]]"
  /\ autoLinkText (autoLinkText "Rock $& Roll" D) D
     = "[[Rock [[Rock Rock $& Roll Roll]] Roll]]"
  /\ (exists w1 w2,
        WikiLinkService.autoLinkText "Project Apollo 11"
          (world_with (database_of E))
        = Returned "Project [[Apollo 11]]" w1
        /\ WikiLinkService.autoLinkText "Project [[Apollo 11]]" w1
           = Returned "[[Project [[Apollo]] 11]]" w2)
  /\ (exists w1 w2,
        WikiLinkService.autoLinkText "Rock $& Roll"
          (world_with (database_of D))
        = Returned "[[Rock Rock $& Roll Roll]]" w1
        /\ WikiLinkService.autoLinkText "[[Rock Rock $& Roll Roll]]" w1
           = Returned "[[Rock [[Rock Rock $& Roll Roll]] Roll]]" w2).
Proof.
  cbv zeta. do 4 (split; [vm_compute; reflexivity|]).
  split; eexists; eexists; split; vm_compute; reflexivity.
Qed.

(* ------------------------------------------------------------------ *)
(** ** Classification in plain terms *)
(* ------------------------------------------------------------------ *)

Section Shapes.
Import JsString Regex.

(** Every character of the string is of the class. *)
Fixpoint every (p : ascii -> bool) (s : string) : bool :=
  match s with
  | EmptyString => true
  | String c r => p c && every p r
  end.

Definition is_ascii (c : ascii) : bool := (code c <? 128)%N.

(** A character of the text stands for the pattern character [a] when the
    [i] flag is set: it is [a], or [a] is one of the letters [A] to [Z] or
    [a] to [z] and it is the same letter in the other case. *)
Definition same_letter (a b : ascii) : bool :=
  Ascii.eqb b a
  || (is_lower a && Ascii.eqb b (ascii_of_N (code a - 32)))
  || (is_upper a && Ascii.eqb b (ascii_of_N (code a + 32))).

(** The text is the word, letter case ignored. *)
Fixpoint same_word (w s : string) : bool :=
  match w, s with
  | EmptyString, EmptyString => true
  | String a w', String b s' => same_letter a b && same_word w' s'
  | _, _ => false
  end.

(** [d.dd.dd] or [dd.dd.dd] *)
Definition date_shape (t : string) : Prop :=
  exists m dd yy,
    t = m ++ "." ++ dd ++ "." ++ yy
    /\ every is_digit m = true
    /\ (String.length m = 1 \/ String.length m = 2)
    /\ every is_digit dd = true /\ String.length dd = 2
    /\ every is_digit yy = true /\ String.length yy = 2.

(** Two words, each a capital letter followed by one or more small letters,
    with one space between them. *)
Definition person_shape (t : string) : Prop :=
  exists a x b y,
    t = String a x ++ " " ++ String b y
    /\ is_upper a = true /\ x <> "" /\ every is_lower x = true
    /\ is_upper b = true /\ y <> "" /\ every is_lower y = true.

Definition place_words : list string :=
  ["National Park"; "2025"; "2026"; "Japan"; "Mt."; "Lake "; "River "].

(** One of the place words somewhere in the text, or [Park] at its end,
    letter case ignored. *)
Definition place_shape (t : string) : Prop :=
  (exists w pre m post,
     In w place_words /\ same_word w m = true /\ t = pre ++ m ++ post)
  \/ (exists pre m, same_word "Park" m = true /\ t = pre ++ m).

Definition concept_words : list string :=
  ["Lord"; "Christ"; "God"; "Heavenly Father"; "Holy Ghost"; "Faith";
   "Gospel"].

(** The whole text is one of the concept words, letter case ignored. *)
Definition concept_shape (t : string) : Prop :=
  exists w, In w concept_words /\ same_word w t = true.

(** *** The language of the pattern constructors *)

Lemma lang_chr_iff (p : ascii -> bool) (s : string) :
  lang (Chr p) s <-> exists c, s = String c "" /\ p c = true.
Proof.
  split.
  - intros H. inversion H; subst. eauto.
  - intros (c & -> & H). constructor. exact H.
Qed.

Lemma lang_seq_iff (r1 r2 : regex) (s : string) :
  lang (Seq r1 r2) s <-> exists s1 s2, s = s1 ++ s2 /\ lang r1 s1 /\ lang r2 s2.
Proof.
  split.
  - intros H. inversion H; subst. eauto.
  - intros (s1 & s2 & -> & H1 & H2). constructor; assumption.
Qed.

Lemma lang_alt_iff (r1 r2 : regex) (s : string) :
  lang (Alt r1 r2) s <-> lang r1 s \/ lang r2 s.
Proof.
  split.
  - intros H. inversion H; subst; auto.
  - intros [H|H]; [apply lang_alt_l|apply lang_alt_r]; exact H.
Qed.

Lemma lang_eps_iff (s : string) : lang Eps s <-> s = "".
Proof.
  split.
  - intros H. inversion H. reflexivity.
  - intros ->. constructor.
Qed.

Lemma lang_void (s : string) : ~ lang Void s.
Proof. intros H. inversion H. Qed.

Lemma lang_star_chr (p : ascii -> bool) (s : string) :
  lang (Star (Chr p)) s <-> every p s = true.
Proof.
  split.
  - intros H. remember (Star (Chr p)) as q eqn:Eq.
    induction H as [| | | | | r0 | r0 s1 s2 H1 _ H2 IH2]; try discriminate.
    + reflexivity.
    + inversion Eq; subst r0. apply lang_chr_iff in H1.
      destruct H1 as (c & -> & Hc). cbn [append every].
      rewrite Hc, (IH2 eq_refl). reflexivity.
  - induction s as [|c r IH]; cbn [every]; intros H.
    + constructor.
    + apply andb_true_iff in H. destruct H as [Hc Hr].
      apply (lang_star_more (Chr p) (String c "") r).
      * constructor. exact Hc.
      * exact (IH Hr).
Qed.

Lemma every_any (s : string) : every (fun _ => true) s = true.
Proof. induction s as [|c r IH]; cbn [every]; [reflexivity|exact IH]. Qed.

Lemma lang_any_star (s : string) : lang (Star any) s.
Proof. apply lang_star_chr. apply every_any. Qed.

Lemma lang_plus_chr (p : ascii -> bool) (s : string) :
  lang (plus (Chr p)) s <-> s <> "" /\ every p s = true.
Proof.
  unfold plus. rewrite lang_seq_iff. split.
  - intros (s1 & s2 & -> & H1 & H2).
    apply lang_chr_iff in H1. destruct H1 as (c & -> & Hc).
    apply lang_star_chr in H2. cbn [append every]. rewrite Hc, H2.
    split; [discriminate|reflexivity].
  - intros [Hne H]. destruct s as [|c r]; [congruence|].
    cbn [every] in H. apply andb_true_iff in H. destruct H as [Hc Hr].
    exists (String c ""), r. split; [reflexivity|].
    split; [constructor; exact Hc|apply lang_star_chr; exact Hr].
Qed.

(** A literal without the [i] flag is matched by itself only. *)
Lemma lang_lit_exact (w s : string) : lang (lit false w) s <-> s = w.
Proof.
  revert s. induction w as [|a w IH]; intros s; cbn [lit].
  - apply lang_eps_iff.
  - rewrite lang_seq_iff. split.
    + intros (s1 & s2 & -> & H1 & H2).
      apply lang_chr_iff in H1. destruct H1 as (c & -> & Hc).
      cbn [AutoLink.char_eq] in Hc. apply Ascii.eqb_eq in Hc. subst c.
      apply IH in H2. subst s2. reflexivity.
    + intros ->. exists (String a ""), w. split; [reflexivity|].
      split; [|apply IH; reflexivity].
      constructor. cbn [AutoLink.char_eq]. apply Ascii.eqb_refl.
Qed.

Definition all_chars : list ascii := map ascii_of_nat (seq 0 256).

Lemma all_chars_In (a : ascii) : In a all_chars.
Proof.
  unfold all_chars. apply in_map_iff. exists (nat_of_ascii a).
  split; [apply ascii_nat_embedding|].
  apply in_seq. pose proof (nat_ascii_bounded a). lia.
Qed.

Lemma forallb_chars2 (f : ascii -> ascii -> bool) :
  forallb (fun a => forallb (f a) all_chars) all_chars = true ->
  forall a b, f a b = true.
Proof.
  intros H a b. rewrite forallb_forall in H.
  specialize (H a (all_chars_In a)). cbv beta in H.
  rewrite forallb_forall in H. exact (H b (all_chars_In b)).
Qed.

(** For an ASCII character of the pattern, the comparison under the [i]
    flag is the comparison of letters. *)
Definition folds_as_letter (a b : ascii) : bool :=
  implb (is_ascii a)
        (Bool.eqb (AutoLink.char_eq true a b) (same_letter a b)).

Lemma folds_as_letter_checked :
  forallb (fun a => forallb (folds_as_letter a) all_chars) all_chars = true.
Proof. vm_compute. reflexivity. Qed.

Lemma char_eq_same_letter (a b : ascii) :
  is_ascii a = true -> AutoLink.char_eq true a b = same_letter a b.
Proof.
  intros Ha.
  pose proof (forallb_chars2 folds_as_letter folds_as_letter_checked a b) as C.
  unfold folds_as_letter in C. rewrite Ha in C. cbn [implb] in C.
  apply Bool.eqb_prop in C. exact C.
Qed.

(** A literal of ASCII characters with the [i] flag is matched by the same
    word in any letter case. *)
Lemma lang_lit_word (w s : string) :
  every is_ascii w = true -> (lang (lit true w) s <-> same_word w s = true).
Proof.
  revert s. induction w as [|a w IH]; intros s Hw; cbn [lit].
  - rewrite lang_eps_iff. destruct s; cbn [same_word];
      split; intros H; congruence.
  - cbn [every] in Hw. apply andb_true_iff in Hw. destruct Hw as [Ha Hw].
    rewrite lang_seq_iff. split.
    + intros (s1 & s2 & -> & H1 & H2).
      apply lang_chr_iff in H1. destruct H1 as (c & -> & Hc).
      rewrite (char_eq_same_letter a c Ha) in Hc.
      apply (IH _ Hw) in H2. cbn [append same_word]. rewrite Hc, H2.
      reflexivity.
    + destruct s as [|c s]; cbn [same_word]; [discriminate|].
      intros H. apply andb_true_iff in H. destruct H as [Hc Hs].
      exists (String c ""), s. split; [reflexivity|].
      split; [|apply (IH _ Hw); exact Hs].
      constructor. rewrite (char_eq_same_letter a c Ha). exact Hc.
Qed.

Lemma lang_alts_words (ws : list string) (s : string) :
  Forall (fun w => every is_ascii w = true) ws ->
  (lang (alts (map (lit true) ws)) s
   <-> exists w, In w ws /\ same_word w s = true).
Proof.
  intros Hws. induction Hws as [|w r Hw Hr IH].
  - cbn [map alts]. split; [intros H; inversion H|intros (w & [] & _)].
  - destruct r as [|w2 r].
    + cbn [map alts]. rewrite (lang_lit_word w s Hw). split.
      * intros H. exists w. split; [left; reflexivity|exact H].
      * intros (w' & [<-|[]] & H). exact H.
    + change (alts (map (lit true) (w :: w2 :: r)))
        with (Alt (lit true w) (alts (map (lit true) (w2 :: r)))).
      rewrite lang_alt_iff, IH, (lang_lit_word w s Hw). split.
      * intros [H|(w' & Hin & H)].
        -- exists w. split; [left; reflexivity|exact H].
        -- exists w'. split; [right; exact Hin|exact H].
      * intros (w' & [<-|Hin] & H); [left; exact H|].
        right. exists w'. split; assumption.
Qed.

(** [test]: the pattern somewhere in the text; [test_at_end]: at its end. *)
Lemma test_iff (r : regex) (t : string) :
  test r t = true <-> exists pre m post, t = pre ++ m ++ post /\ lang r m.
Proof.
  unfold test. rewrite matches_lang, lang_seq_iff. split.
  - intros (pre & s2 & -> & _ & H). apply lang_seq_iff in H.
    destruct H as (m & post & -> & Hm & _). eauto.
  - intros (pre & m & post & -> & Hm).
    exists pre, (m ++ post). split; [reflexivity|].
    split; [apply lang_any_star|].
    apply lang_seq_iff. exists m, post.
    split; [reflexivity|]. split; [exact Hm|apply lang_any_star].
Qed.

Lemma test_at_end_iff (r : regex) (t : string) :
  test_at_end r t = true <-> exists pre m, t = pre ++ m /\ lang r m.
Proof.
  unfold test_at_end. rewrite matches_lang, lang_seq_iff. split.
  - intros (pre & m & -> & _ & Hm). eauto.
  - intros (pre & m & -> & Hm). exists pre, m.
    split; [reflexivity|]. split; [apply lang_any_star|exact Hm].
Qed.

(** *** The four rules *)

Lemma one_digit (s : string) :
  lang WikiLinkService.digit s
  <-> every is_digit s = true /\ String.length s = 1.
Proof.
  unfold WikiLinkService.digit. rewrite lang_chr_iff. split.
  - intros (c & -> & Hc). cbn [every String.length]. rewrite Hc. auto.
  - intros [H L]. destruct s as [|c [|d r]]; try discriminate.
    cbn [every] in H. rewrite andb_true_r in H. eauto.
Qed.

Lemma every_app (p : ascii -> bool) (a b : string) :
  every p (a ++ b) = every p a && every p b.
Proof.
  induction a as [|c a IH]; cbn [append every]; [reflexivity|].
  rewrite IH, andb_assoc. reflexivity.
Qed.

Lemma two_digits (s : string) :
  lang (Seq WikiLinkService.digit WikiLinkService.digit) s
  <-> every is_digit s = true /\ String.length s = 2.
Proof.
  rewrite lang_seq_iff. split.
  - intros (s1 & s2 & -> & H1 & H2).
    apply one_digit in H1. apply one_digit in H2.
    destruct H1 as [E1 L1], H2 as [E2 L2].
    rewrite every_app, length_append, E1, E2, L1, L2. auto.
  - intros [H L]. destruct s as [|c [|d [|e r]]]; try discriminate.
    cbn [every] in H. apply andb_true_iff in H. destruct H as [Hc Hd].
    exists (String c ""), (String d ""). split; [reflexivity|].
    split; apply one_digit; cbn [every String.length];
      [rewrite Hc|]; auto.
Qed.

Lemma one_or_two_digits (s : string) :
  lang (Seq WikiLinkService.digit (opt WikiLinkService.digit)) s
  <-> every is_digit s = true
      /\ (String.length s = 1 \/ String.length s = 2).
Proof.
  unfold opt. rewrite lang_seq_iff. split.
  - intros (s1 & s2 & -> & H1 & H2).
    apply one_digit in H1. destruct H1 as [E1 L1].
    apply lang_alt_iff in H2. destruct H2 as [H2|H2].
    + apply one_digit in H2. destruct H2 as [E2 L2].
      rewrite every_app, length_append, E1, E2, L1, L2. auto.
    + apply lang_eps_iff in H2. subst s2. rewrite append_nil. auto.
  - intros [H L]. destruct s as [|c [|d [|e r]]];
      try (destruct L; discriminate).
    + exists (String c ""), "". split; [reflexivity|].
      split; [apply one_digit; auto|].
      apply lang_alt_r. constructor.
    + cbn [every] in H. apply andb_true_iff in H. destruct H as [Hc Hd].
      exists (String c ""), (String d ""). split; [reflexivity|].
      split; [apply one_digit; cbn [every String.length]; rewrite Hc; auto|].
      apply lang_alt_l. apply one_digit. auto.
Qed.

Lemma seq_assoc (r1 r2 r3 : regex) (s : string) :
  lang (Seq r1 (Seq r2 r3)) s <-> lang (Seq (Seq r1 r2) r3) s.
Proof.
  rewrite !lang_seq_iff. split.
  - intros (s1 & s23 & -> & H1 & H23). apply lang_seq_iff in H23.
    destruct H23 as (s2 & s3 & -> & H2 & H3).
    exists (s1 ++ s2), s3. rewrite append_assoc. split; [reflexivity|].
    split; [|exact H3]. apply lang_seq_iff. eauto.
  - intros (s12 & s3 & -> & H12 & H3). apply lang_seq_iff in H12.
    destruct H12 as (s1 & s2 & -> & H1 & H2).
    exists s1, (s2 ++ s3). rewrite append_assoc. split; [reflexivity|].
    split; [exact H1|]. apply lang_seq_iff. eauto.
Qed.

Lemma is_date_shape (t : string) :
  WikiLinkService.is_date t = true <-> date_shape t.
Proof.
  unfold WikiLinkService.is_date, WikiLinkService.date_pattern, date_shape.
  rewrite matches_lang.
  rewrite seq_assoc, lang_seq_iff.
  split.
  - intros (m & rest & -> & Hm & H).
    apply one_or_two_digits in Hm. destruct Hm as [Em Lm].
    apply lang_seq_iff in H. destruct H as (p1 & r1 & -> & Hp1 & H).
    apply lang_lit_exact in Hp1. subst p1.
    rewrite seq_assoc in H. apply lang_seq_iff in H.
    destruct H as (dd & r2 & -> & Hdd & H).
    apply two_digits in Hdd. destruct Hdd as [Ed Ld].
    apply lang_seq_iff in H. destruct H as (p2 & yy & -> & Hp2 & Hyy).
    apply lang_lit_exact in Hp2. subst p2.
    apply two_digits in Hyy. destruct Hyy as [Ey Ly].
    exists m, dd, yy. repeat split; assumption.
  - intros (m & dd & yy & -> & Em & Lm & Ed & Ld & Ey & Ly).
    exists m, ("." ++ dd ++ "." ++ yy). split; [reflexivity|].
    split; [apply one_or_two_digits; auto|].
    apply lang_seq_iff. exists ".", (dd ++ "." ++ yy).
    split; [reflexivity|]. split; [apply lang_lit_exact; reflexivity|].
    rewrite seq_assoc. apply lang_seq_iff. exists dd, ("." ++ yy).
    split; [reflexivity|]. split; [apply two_digits; auto|].
    apply lang_seq_iff. exists ".", yy.
    split; [reflexivity|]. split; [apply lang_lit_exact; reflexivity|].
    apply two_digits. auto.
Qed.

Lemma capitalized (s : string) :
  lang (Seq WikiLinkService.upper (plus WikiLinkService.lower)) s
  <-> exists a x, s = String a x /\ is_upper a = true
                  /\ x <> "" /\ every is_lower x = true.
Proof.
  rewrite lang_seq_iff. split.
  - intros (s1 & x & -> & H1 & Hx).
    apply lang_chr_iff in H1. destruct H1 as (a & -> & Ha).
    apply lang_plus_chr in Hx. destruct Hx as [Hne Hl].
    exists a, x. auto.
  - intros (a & x & -> & Ha & Hne & Hl).
    exists (String a ""), x. split; [reflexivity|].
    split; [constructor; exact Ha|apply lang_plus_chr; auto].
Qed.

Lemma is_person_shape (t : string) :
  WikiLinkService.is_person t = true <-> person_shape t.
Proof.
  unfold WikiLinkService.is_person, WikiLinkService.person_pattern,
    person_shape.
  rewrite matches_lang, seq_assoc, lang_seq_iff. split.
  - intros (w1 & rest & -> & H1 & H).
    apply capitalized in H1. destruct H1 as (a & x & -> & Ha & Hx & Hlx).
    apply lang_seq_iff in H. destruct H as (sp & w2 & -> & Hsp & H2).
    apply lang_lit_exact in Hsp. subst sp.
    apply capitalized in H2. destruct H2 as (b & y & -> & Hb & Hy & Hly).
    exists a, x, b, y. repeat split; assumption.
  - intros (a & x & b & y & -> & Ha & Hx & Hlx & Hb & Hy & Hly).
    exists (String a x), (" " ++ String b y). split; [reflexivity|].
    split; [apply capitalized; eauto 8|].
    apply lang_seq_iff. exists " ", (String b y).
    split; [reflexivity|]. split; [apply lang_lit_exact; reflexivity|].
    apply capitalized. eauto 8.
Qed.

Lemma place_words_ascii :
  Forall (fun w => every is_ascii w = true) place_words.
Proof. repeat constructor. Qed.

Lemma concept_words_ascii :
  Forall (fun w => every is_ascii w = true) concept_words.
Proof. repeat constructor. Qed.

Lemma is_place_shape (t : string) :
  WikiLinkService.is_place t = true <-> place_shape t.
Proof.
  unfold WikiLinkService.is_place, place_shape.
  rewrite orb_true_iff, test_iff, test_at_end_iff.
  unfold WikiLinkService.place_anywhere, WikiLinkService.place_at_end.
  fold place_words.
  split.
  - intros [(pre & m & post & -> & H)|(pre & m & -> & H)].
    + apply (lang_alts_words place_words m place_words_ascii) in H.
      destruct H as (w & Hin & Hw). left. exists w, pre, m, post. auto.
    + apply (lang_lit_word "Park" m eq_refl) in H. right. eauto.
  - intros [(w & pre & m & post & Hin & Hw & ->)|(pre & m & Hw & ->)].
    + left. exists pre, m, post. split; [reflexivity|].
      apply (lang_alts_words place_words m place_words_ascii). eauto.
    + right. exists pre, m. split; [reflexivity|].
      apply (lang_lit_word "Park" m eq_refl). exact Hw.
Qed.

Lemma is_concept_shape (t : string) :
  WikiLinkService.is_concept t = true <-> concept_shape t.
Proof.
  unfold WikiLinkService.is_concept, WikiLinkService.concept_pattern,
    concept_shape.
  fold concept_words. rewrite matches_lang.
  apply (lang_alts_words concept_words t concept_words_ascii).
Qed.

End Shapes.

(** C9.  [categorizeLink] is a function of the text alone, and the first
    rule that applies decides.  The result is [date] exactly for the texts
    [d.dd.dd] and [dd.dd.dd]; [person] exactly for the other texts made of
    two capitalised words; [place] exactly for the texts, not dates and not
    of two capitalised words, that contain a place word or end with [Park],
    letter case ignored; [concept] exactly for the remaining texts that are
    one of the concept words, letter case ignored; and [unknown] for all
    others.  So "Central Park" and "Lake Tahoe" are persons although they
    are places by the third rule, "Heavenly Father" is a person although it
    is a concept by the fourth, and "heavenly father", which is not of two
    capitalised words, is a concept.  The four examples of the specification
    evaluate as stated. *)
Theorem categorizeLink_first_match_wins :
  (forall t,
     (WikiLinkService.categorizeLink t = date <-> date_shape t)
     /\ (WikiLinkService.categorizeLink t = person
         <-> ~ date_shape t /\ person_shape t)
     /\ (WikiLinkService.categorizeLink t = place
         <-> ~ date_shape t /\ ~ person_shape t /\ place_shape t)
     /\ (WikiLinkService.categorizeLink t = concept
         <-> ~ date_shape t /\ ~ person_shape t /\ ~ place_shape t
             /\ concept_shape t)
     /\ (WikiLinkService.categorizeLink t = unknown
         <-> ~ date_shape t /\ ~ person_shape t /\ ~ place_shape t
             /\ ~ concept_shape t)
     /\ WikiLinkService.categorizeLink t <> topic)
  /\ WikiLinkService.categorizeLink "9.14.25" = date
  /\ WikiLinkService.categorizeLink "John Smith" = person
  /\ WikiLinkService.categorizeLink "Lord" = concept
  /\ WikiLinkService.categorizeLink "Climbing" = unknown
  /\ (person_shape "Central Park" /\ place_shape "Central Park"
      /\ WikiLinkService.categorizeLink "Central Park" = person)
  /\ (person_shape "Heavenly Father" /\ concept_shape "Heavenly Father"
      /\ WikiLinkService.categorizeLink "Heavenly Father" = person)
  /\ WikiLinkService.categorizeLink "heavenly father" = concept
  /\ WikiLinkService.categorizeLink "Glacier National Park" = place
  /\ WikiLinkService.categorizeLink "lake tahoe" = place
  /\ WikiLinkService.categorizeLink "Goals for 2026" = place.
Proof.
  split.
  - intros t.
    pose proof (is_date_shape t) as Hd.
    pose proof (is_person_shape t) as Hp.
    pose proof (is_place_shape t) as Hl.
    pose proof (is_concept_shape t) as Hc.
    unfold WikiLinkService.categorizeLink.
    destruct (WikiLinkService.is_date t);
      destruct (WikiLinkService.is_person t);
      destruct (WikiLinkService.is_place t);
      destruct (WikiLinkService.is_concept t);
      repeat split; try discriminate; intros; try tauto;
      try (exfalso; intuition congruence); intuition congruence.
  - do 4 (split; [vm_compute; reflexivity|]).
    split.
    { split; [apply is_person_shape; vm_compute; reflexivity|].
      split; [apply is_place_shape; vm_compute; reflexivity|].
      vm_compute; reflexivity. }
    split.
    { split; [apply is_person_shape; vm_compute; reflexivity|].
      split; [apply is_concept_shape; vm_compute; reflexivity|].
      vm_compute; reflexivity. }
    repeat split; vm_compute; reflexivity.
Qed.

From Stdlib Require Import Permutation.


(* ================================================================== *)
(** * Further properties of the auto-linkers *)
(* ================================================================== *)

(** The text without the characters of the link markup. *)
Fixpoint strip_markup (s : string) : string :=
  match s with
  | EmptyString => EmptyString
  | String c r =>
      if bracket c then strip_markup r else String c (strip_markup r)
  end.

Section MarkupOnly.
Import JsString AutoLink.

Variable ci : bool.

Lemma strip_markup_app (a b : string) :
  strip_markup (a ++ b) = strip_markup a ++ strip_markup b.
Proof.
  induction a as [|c r IH]; cbn [append strip_markup]; [reflexivity|].
  destruct (bracket c); cbn [append]; rewrite IH; reflexivity.
Qed.

Lemma char_eq_refl (a : ascii) : char_eq ci a a = true.
Proof. unfold char_eq. destruct ci; apply Ascii.eqb_refl. Qed.

Lemma eqv_refl (x : string) : eqv ci x x = true.
Proof.
  induction x as [|c r IH]; cbn [eqv]; [reflexivity|].
  rewrite char_eq_refl, IH. reflexivity.
Qed.

Lemma eqv_app (a b c d : string) :
  eqv ci a b = true -> eqv ci c d = true -> eqv ci (a ++ c) (b ++ d) = true.
Proof.
  revert b. induction a as [|x a IH]; intros b; destruct b as [|y b];
    cbn [eqv append]; try discriminate; [tauto|].
  intros H1 H2. apply andb_true_iff in H1. destruct H1 as [Hc Hv].
  rewrite Hc, (IH _ Hv H2). reflexivity.
Qed.

(** A plain text and what was matched for it contain no markup. *)
Lemma eqv_plain_strip (u m : string) :
  eqv ci u m = true -> plain u = true ->
  strip_markup u = u /\ strip_markup m = m.
Proof.
  revert m. induction u as [|a u IH]; intros m; destruct m as [|c m];
    cbn [eqv plain]; try discriminate; [auto|].
  intros H Hp. apply andb_true_iff in H. apply andb_true_iff in Hp.
  destruct H as [Hc Hv], Hp as [Ha Hp].
  apply plain_char_not_bracket in Ha.
  pose proof (char_eq_bracket ci _ _ Hc) as Hb. rewrite Ha in Hb.
  destruct (IH _ Hv Hp) as [E1 E2].
  cbn [strip_markup]. rewrite Ha, Hb, E1, E2. auto.
Qed.

Lemma Scan_strip (u : string) :
  linkable u = true ->
  forall b s out, Scan ci u b s out ->
                  eqv ci (strip_markup out) (strip_markup s) = true.
Proof.
  intros Hu b s out HS.
  induction HS as [b|b c r out Hn HS IH|b s m after out Hhit HS IH].
  - reflexivity.
  - cbn [strip_markup]. destruct (bracket c); [exact IH|].
    cbn [eqv]. rewrite char_eq_refl, IH. reflexivity.
  - apply match_here_Some in Hhit. destruct Hhit as (_ & _ & Hlit & _).
    apply match_literal_split in Hlit. destruct Hlit as [-> Hv].
    destruct (eqv_plain_strip _ _ Hv (linkable_plain _ Hu)) as [Eu Em].
    unfold template. rewrite !strip_markup_app, Eu, Em.
    change (strip_markup "[[") with "". change (strip_markup "]]") with "".
    cbn [append]. rewrite append_nil.
    apply eqv_app; assumption.
Qed.

Lemma replace_link_strip (u s : string) :
  linkable u = true ->
  eqv ci (strip_markup (replace_link ci u s)) (strip_markup s) = true.
Proof.
  intros Hu. unfold replace_link.
  apply (Scan_strip u Hu "" s).
  apply (scan_Scan ci u Hu (String.length s)). lia.
Qed.

Lemma link_all_strip (links : list WikiLink) :
  linkable_links links ->
  forall s, eqv ci (strip_markup (link_all ci links s)) (strip_markup s) = true.
Proof.
  intros H. induction H as [|l r Hl Hr IH]; intros s.
  - apply eqv_refl.
  - rewrite link_all_cons.
    apply (eqv_trans ci _ _ _ (IH _)). apply replace_link_strip. exact Hl.
Qed.

End MarkupOnly.

(** *** Link texts of ASCII characters *)

(** On ASCII link texts the [i] flag and [toLowerCase] agree: a character
    that matches an ASCII character of the pattern is that character in
    either letter case. *)
Fixpoint ascii_text (t : string) : bool :=
  match t with
  | EmptyString => true
  | String c r => is_ascii c && ascii_text r
  end.

Definition ascii_links (links : list WikiLink) : Prop :=
  Forall (fun l => ascii_text (text l) = true) links.

(** The condition under which a pass is considered: none for the
    case-sensitive pass, ASCII link texts for the case-insensitive one. *)
Definition ascii_if (ci : bool) (t : string) : bool := negb ci || ascii_text t.

Definition folds_alike (a b : ascii) : bool :=
  implb (is_ascii a && AutoLink.char_eq true a b)
        (Ascii.eqb (JsString.lower_char a) (JsString.lower_char b)).

Lemma folds_alike_checked :
  forallb (fun a => forallb (folds_alike a) all_chars) all_chars = true.
Proof. vm_compute. reflexivity. Qed.

Lemma char_eq_lower (ci : bool) (a b : ascii) :
  negb ci || is_ascii a = true ->
  AutoLink.char_eq ci a b = true -> JsString.lower_char a = JsString.lower_char b.
Proof.
  intros Ha H. destruct ci.
  - cbn [negb orb] in Ha.
    pose proof (forallb_chars2 folds_alike folds_alike_checked a b) as C.
    unfold folds_alike in C. rewrite Ha, H in C. cbn [andb implb] in C.
    apply Ascii.eqb_eq in C. exact C.
  - cbn [AutoLink.char_eq] in H. apply Ascii.eqb_eq in H. rewrite H.
    reflexivity.
Qed.

Lemma ascii_if_cons (ci : bool) (a : ascii) (t : string) :
  ascii_if ci (String a t) = true ->
  negb ci || is_ascii a = true /\ ascii_if ci t = true.
Proof.
  unfold ascii_if. cbn [ascii_text]. destruct ci; cbn [negb orb]; [|auto].
  intros H. apply andb_true_iff in H. exact H.
Qed.

Lemma eqv_exact (x y : string) : eqv false x y = true -> x = y.
Proof.
  revert y. induction x as [|a x IH]; intros y; destruct y as [|b y];
    cbn [eqv]; try discriminate; [reflexivity|].
  intros H. apply andb_true_iff in H. destruct H as [Hc Hv].
  apply Ascii.eqb_eq in Hc. rewrite Hc, (IH _ Hv). reflexivity.
Qed.

Lemma eqv_lower (ci : bool) (x y : string) :
  ascii_if ci x = true ->
  eqv ci x y = true -> JsString.toLowerCase x = JsString.toLowerCase y.
Proof.
  revert y. induction x as [|a x IH]; intros y; destruct y as [|b y];
    cbn [eqv]; try discriminate; [reflexivity|].
  intros Ha H. apply andb_true_iff in H. destruct H as [Hc Hv].
  apply ascii_if_cons in Ha. destruct Ha as [Ha Hx].
  cbn [JsString.toLowerCase].
  rewrite (char_eq_lower _ _ _ Ha Hc), (IH _ Hx Hv). reflexivity.
Qed.

Lemma toLowerCase_app (x y : string) :
  JsString.toLowerCase (x ++ y)
  = JsString.toLowerCase x ++ JsString.toLowerCase y.
Proof.
  induction x as [|c x IH]; cbn [append JsString.toLowerCase]; [reflexivity|].
  rewrite IH. reflexivity.
Qed.

(** The case-insensitive pass puts the link text in the place of what it
    matched, which is the link text in another letter case. *)
Lemma Scan_strip_lower (u : string) :
  linkable u = true -> ascii_text u = true ->
  forall b s out,
    Scan true u b s out ->
    JsString.toLowerCase (strip_markup out)
    = JsString.toLowerCase (strip_markup s).
Proof.
  intros Hu Ha b s out HS.
  induction HS as [b|b c r out Hn HS IH|b s m after out Hhit HS IH].
  - reflexivity.
  - cbn [strip_markup]. destruct (bracket c); [exact IH|].
    cbn [JsString.toLowerCase]. rewrite IH. reflexivity.
  - apply match_here_Some in Hhit. destruct Hhit as (_ & _ & Hlit & _).
    apply match_literal_split in Hlit. destruct Hlit as [-> Hv].
    destruct (eqv_plain_strip true _ _ Hv (linkable_plain _ Hu)) as [Eu Em].
    unfold AutoLink.template. rewrite !strip_markup_app, Eu, Em.
    change (strip_markup "[[") with "". change (strip_markup "]]") with "".
    cbn [append]. rewrite append_nil, !toLowerCase_app, IH.
    rewrite (eqv_lower true u m Ha Hv). reflexivity.
Qed.

Lemma link_all_strip_lower (links : list WikiLink) :
  linkable_links links -> ascii_links links ->
  forall s,
    JsString.toLowerCase (strip_markup (AutoLink.link_all true links s))
    = JsString.toLowerCase (strip_markup s).
Proof.
  intros H. induction H as [|l r Hl Hr IH]; intros Ha s; [reflexivity|].
  inversion Ha as [|? ? Hal Har]; subst.
  rewrite link_all_cons, (IH Har). unfold AutoLink.replace_link.
  apply (Scan_strip_lower (text l) Hl Hal "" s).
  apply (scan_Scan true (text l) Hl (String.length s)). lia.
Qed.

Lemma insert_by_length_Forall (P : WikiLink -> Prop) (x : WikiLink)
      (l : list WikiLink) :
  P x -> Forall P l -> Forall P (AutoLink.insert_by_length x l).
Proof.
  intros Hx Hl. induction Hl as [|y q Hy Hq IH]; cbn [AutoLink.insert_by_length].
  - repeat constructor. exact Hx.
  - destruct (Nat.ltb _ _).
    + constructor; [exact Hy|exact IH].
    + constructor; [exact Hx|]. constructor; [exact Hy|exact Hq].
Qed.

Lemma sort_by_length_Forall (P : WikiLink -> Prop) (l : list WikiLink) :
  Forall P l -> Forall P (AutoLink.sort_by_length l).
Proof.
  intros H. induction H as [|x r Hx Hr IH]; [constructor|].
  apply insert_by_length_Forall; assumption.
Qed.

Lemma unique_links_Forall (P : WikiLink -> Prop) (vals : list WikiLink) :
  Forall P vals ->
  forall seen, Forall P (WikiLinkService.unique_links seen vals).
Proof.
  intros H. induction H as [|l r Hl Hr IH]; intros seen;
    cbn [WikiLinkService.unique_links]; [constructor|].
  destruct (existsb _ seen); [apply IH|].
  constructor; [exact Hl|apply IH].
Qed.

(** Auto-linking changes nothing but markup.  For link texts that are not
    empty and contain no bracket and no dollar sign, the output of
    [autoLinkText] without its brackets is the input without its brackets.
    The case-insensitive pass of the service may in addition replace a
    matched text by the canonical text; if the link texts consist of ASCII
    characters, that differs from what was matched in the case of the
    letters [a] to [z] only, so output and input without brackets agree after
    lowercasing. *)
Theorem autoLink_changes_only_markup (T : string) (E : list WikiLink) :
  linkable_links E ->
  strip_markup (autoLinkText T E) = strip_markup T
  /\ (forall w T1 w1,
        WikiLinkService.autoLinkText T w = Returned T1 w1 ->
        linkable_links (map snd (cache w1)) ->
        ascii_links (map snd (cache w1)) ->
        JsString.toLowerCase (strip_markup T1)
        = JsString.toLowerCase (strip_markup T)).
Proof.
  intros HE. split.
  - apply eqv_exact. unfold autoLinkText. apply link_all_strip.
    apply sort_by_length_linkable. exact HE.
  - intros w T1 w1 Hrun Hl Ha. rewrite autoLinkText_run in Hrun.
    destruct (WikiLinkService.loadLinks w) as [[] w'|e w']; [|discriminate].
    injection Hrun as <- <-.
    apply link_all_strip_lower.
    + apply sort_by_length_linkable. apply unique_links_linkable. exact Hl.
    + apply sort_by_length_Forall. apply unique_links_Forall. exact Ha.
Qed.

Lemma autoLink_changes_only_markup_witness :
  let E := [IdempotenceExamples.nate; IdempotenceExamples.nate_stapleton] in
  let w := world_with (database_of E) in
  linkable_links E
  /\ autoLinkText "[Nate] met Nate Stapleton." E
     = "[[[Nate]]] met [[Nate Stapleton]]."
  /\ strip_markup (autoLinkText "[Nate] met Nate Stapleton." E)
     = strip_markup "[Nate] met Nate Stapleton."
  /\ WikiLinkService.autoLinkText "NATE met nate stapleton." w
     = Returned "[[Nate]] met [[Nate Stapleton]]." (reloaded w)
  /\ linkable_links (map snd (cache (reloaded w)))
  /\ ascii_links (map snd (cache (reloaded w)))
  /\ JsString.toLowerCase (strip_markup "[[Nate]] met [[Nate Stapleton]].")
     = JsString.toLowerCase (strip_markup "NATE met nate stapleton.").
Proof.
  cbv zeta.
  set (E := [IdempotenceExamples.nate; IdempotenceExamples.nate_stapleton]).
  set (w := world_with (database_of E)).
  assert (H : linkable_links E) by (repeat constructor).
  assert (Hrun : WikiLinkService.autoLinkText "NATE met nate stapleton." w
                 = Returned "[[Nate]] met [[Nate Stapleton]]." (reloaded w))
    by (vm_compute; reflexivity).
  assert (Hl : linkable_links (map snd (cache (reloaded w))))
    by (vm_compute; repeat constructor).
  assert (Ha : ascii_links (map snd (cache (reloaded w))))
    by (vm_compute; repeat constructor).
  pose proof (autoLink_changes_only_markup "[Nate] met Nate Stapleton." E H)
    as [H1 _].
  pose proof (autoLink_changes_only_markup "NATE met nate stapleton." E H)
    as [_ H2].
  split; [exact H|]. split; [reflexivity|]. split; [exact H1|].
  split; [exact Hrun|]. split; [exact Hl|]. split; [exact Ha|].
  exact (H2 w _ _ Hrun Hl Ha).
Defined.

(** *** Texts in which no link text occurs *)

Lemma match_literal_startsWith (ci : bool) (t : string) :
  ascii_if ci t = true ->
  forall s m after,
    AutoLink.match_literal ci t s = Some (m, after) ->
    JsString.startsWith (JsString.toLowerCase s) (JsString.toLowerCase t) = true
    /\ (ci = false -> JsString.startsWith s t = true).
Proof.
  induction t as [|a t IH]; intros Ha s m after H.
  - cbn [JsString.toLowerCase]. rewrite !startsWith_nil. auto.
  - cbn [AutoLink.match_literal] in H.
    apply ascii_if_cons in Ha. destruct Ha as [Ha Ht].
    destruct s as [|b s]; [discriminate|].
    destruct (AutoLink.char_eq ci a b) eqn:E; [|discriminate].
    destruct (AutoLink.match_literal ci t s) as [[m0 r0]|] eqn:M; [|discriminate].
    destruct (IH Ht _ _ _ M) as [H1 H2].
    cbn [JsString.toLowerCase JsString.startsWith].
    rewrite (char_eq_lower _ _ _ Ha E), Ascii.eqb_refl, H1.
    split; [reflexivity|].
    intros ->. cbn in E. rewrite E, (H2 eq_refl). reflexivity.
Qed.

Lemma toLowerCase_nil (t : string) : JsString.toLowerCase t = "" -> t = "".
Proof. destruct t; cbn; [reflexivity|discriminate]. Qed.

Lemma free_of_not_included (ci : bool) (t : string) :
  ascii_if ci t = true ->
  forall s b,
    (if ci
     then JsString.includes (JsString.toLowerCase s) (JsString.toLowerCase t)
     else JsString.includes s t) = false ->
    free ci t b s = true.
Proof.
  intros Ha.
  assert (Hc : forall s b,
             (if ci
              then JsString.startsWith (JsString.toLowerCase s)
                                       (JsString.toLowerCase t)
              else JsString.startsWith s t) = false ->
             cand ci t b s = false).
  { intros s b H. destruct (cand ci t b s) eqn:E; [|reflexivity].
    apply cand_true in E. destruct E as (m & a & E).
    apply match_here_Some in E. destruct E as (_ & _ & E & _).
    destruct (match_literal_startsWith _ _ Ha _ _ _ E) as [H1 H2].
    destruct ci; [congruence|]. rewrite (H2 eq_refl) in H. discriminate. }
  induction s as [|c r IH]; intros b H; cbn [free].
  - rewrite Hc; [reflexivity|].
    destruct ci; cbn [JsString.toLowerCase JsString.includes] in H;
      rewrite orb_false_r in H; exact H.
  - destruct ci; cbn [JsString.toLowerCase JsString.includes] in H;
      apply orb_false_iff in H; destruct H as [H1 H2].
    + rewrite (Hc (String c r) b H1). apply (IH _ H2).
    + rewrite (Hc (String c r) b H1). apply (IH _ H2).
Qed.

(** A text in which no link text occurs is returned as it is: by
    [autoLinkText] if no canonical text is a substring of it; by the
    case-insensitive pass of the service if the link texts consist of ASCII
    characters and none is a substring after lowercasing both. *)
Theorem autoLink_unchanged_without_occurrence (T : string) :
  (forall E,
     Forall (fun l => JsString.includes T (text l) = false) E ->
     autoLinkText T E = T)
  /\ (forall w T1 w1,
        WikiLinkService.autoLinkText T w = Returned T1 w1 ->
        ascii_links (map snd (cache w1)) ->
        Forall (fun l => JsString.includes (JsString.toLowerCase T)
                           (JsString.toLowerCase (text l)) = false)
               (map snd (cache w1)) ->
        T1 = T).
Proof.
  split.
  - intros E HE. unfold autoLinkText. apply link_all_fixed.
    apply sort_by_length_Forall.
    apply (Forall_impl _
             (fun l H => free_of_not_included false _ eq_refl T "" H) HE).
  - intros w T1 w1 Hrun Ha Hl. rewrite autoLinkText_run in Hrun.
    destruct (WikiLinkService.loadLinks w) as [[] w'|e w']; [|discriminate].
    injection Hrun as <- <-.
    apply link_all_fixed. apply sort_by_length_Forall.
    apply unique_links_Forall.
    unfold ascii_links in Ha. rewrite Forall_forall in Ha, Hl.
    apply Forall_forall. intros l Hin.
    apply (free_of_not_included true (text l) (Ha l Hin) T "").
    exact (Hl l Hin).
Qed.

Lemma autoLink_unchanged_witness :
  let E := [IdempotenceExamples.nate; IdempotenceExamples.nate_stapleton] in
  let w := world_with (database_of E) in
  Forall (fun l => JsString.includes "Went climbing with nate." (text l) = false) E
  /\ autoLinkText "Went climbing with nate." E = "Went climbing with nate."
  /\ ascii_links (map snd (cache (reloaded w)))
  /\ Forall (fun l => JsString.includes (JsString.toLowerCase "Went CLIMBING.")
                         (JsString.toLowerCase (text l)) = false)
            (map snd (cache (reloaded w)))
  /\ WikiLinkService.autoLinkText "Went CLIMBING." w
     = Returned "Went CLIMBING." (reloaded w).
Proof.
  cbv zeta.
  set (E := [IdempotenceExamples.nate; IdempotenceExamples.nate_stapleton]).
  set (w := world_with (database_of E)).
  assert (H : Forall (fun l => JsString.includes "Went climbing with nate."
                                 (text l) = false) E)
    by (repeat constructor).
  assert (Ha : ascii_links (map snd (cache (reloaded w))))
    by (vm_compute; repeat constructor).
  assert (Hn : Forall (fun l => JsString.includes
                                  (JsString.toLowerCase "Went CLIMBING.")
                                  (JsString.toLowerCase (text l)) = false)
                      (map snd (cache (reloaded w)))).
  { let l := eval vm_compute in (map snd (cache (reloaded w))) in
    change (map snd (cache (reloaded w))) with l.
    repeat (constructor; [vm_compute; reflexivity|]). constructor. }
  destruct (autoLink_unchanged_without_occurrence "Went climbing with nate.")
    as [H1 _].
  destruct (autoLink_unchanged_without_occurrence "Went CLIMBING.")
    as [_ H2].
  split; [exact H|]. split; [exact (H1 E H)|].
  split; [exact Ha|]. split; [exact Hn|].
  assert (Hrun : exists T1, WikiLinkService.autoLinkText "Went CLIMBING." w
                            = Returned T1 (reloaded w))
    by (eexists; vm_compute; reflexivity).
  destruct Hrun as [T1 Hrun]. rewrite Hrun.
  rewrite (H2 w T1 (reloaded w) Hrun Ha Hn). reflexivity.
Defined.

(* ================================================================== *)
(** * Suggestions ([WikiLinkService.suggestLinks]) *)
(* ================================================================== *)

Module Suggest.
Import JsString WikiLinkService.

(** The loop over [cache.entries()]: [seen] holds the texts taken so far,
    [n] is [results.length]; the loop ends with the fifth result. *)
Fixpoint collect (lower : string) (seen : list string) (n : nat)
         (entries : Cache) : list WikiLink :=
  match entries with
  | [] => []
  | (key, link) :: rest =>
      if existsb (String.eqb (text link)) seen then collect lower seen n rest
      else if startsWith key lower
              || includes (toLowerCase (text link)) lower
      then if Nat.leb 5 (S n) then [link]
           else link :: collect lower (text link :: seen) (S n) rest
      else collect lower seen n rest
  end.

(** [results.sort((a, b) => b.frequency - a.frequency)] *)
Fixpoint insert_by_frequency (x : WikiLink) (l : list WikiLink)
  : list WikiLink :=
  match l with
  | [] => [x]
  | y :: r =>
      if (frequency x <? frequency y)%Z
      then y :: insert_by_frequency x r
      else x :: l
  end.

Definition sort_by_frequency (l : list WikiLink) : list WikiLink :=
  fold_right insert_by_frequency [] l.

Definition suggestLinks (partial : string) : Js (list WikiLink) :=
  loadLinks ;;
  let lower := toLowerCase partial in
  m <- gets cache ;;
  ret (sort_by_frequency (collect lower [] 0 m)).

End Suggest.

Section SuggestProperties.
Import JsString WikiLinkService Suggest.

(** An entry that the loop accepts for the input. *)
Definition suggested (lower : string) (e : string * WikiLink) : bool :=
  startsWith (fst e) lower || includes (toLowerCase (text (snd e))) lower.

Lemma collect_spec (lower : string) (entries : Cache) :
  forall seen n,
    let r := collect lower seen n entries in
    ((n < 5)%nat -> (List.length r + n <= 5)%nat)
    /\ NoDup (map text r)
    /\ (forall l, In l r ->
          ~ In (text l) seen
          /\ exists key, In (key, l) entries /\ suggested lower (key, l) = true).
Proof.
  induction entries as [|[key link] rest IH]; intros seen n; cbv zeta;
    cbn [collect].
  - split; [cbn [List.length]; lia|]. split; [constructor|]. intros l [].
  - destruct (existsb (String.eqb (text link)) seen) eqn:Es.
    + destruct (IH seen n) as (H1 & H2 & H3). split; [exact H1|].
      split; [exact H2|]. intros l Hl. destruct (H3 l Hl) as (Hs & k & Hk & Hm).
      split; [exact Hs|]. exists k. split; [right; exact Hk|exact Hm].
    + assert (Hns : ~ In (text link) seen).
      { intros Hin. apply (existsb_eqb_In (text link) seen) in Hin.
        congruence. }
      destruct (startsWith key lower
                || includes (toLowerCase (text link)) lower) eqn:Em.
      * destruct (Nat.leb 5 (S n)) eqn:E5.
        -- apply Nat.leb_le in E5. split; [cbn [List.length]; lia|].
           split; [repeat constructor; intros []|].
           intros l [<-|[]]. split; [exact Hns|].
           exists key. split; [left; reflexivity|exact Em].
        -- apply Nat.leb_gt in E5.
           destruct (IH (text link :: seen) (S n)) as (H1 & H2 & H3).
           split; [cbn [List.length]; lia|]. split.
           ++ cbn [map]. constructor; [|exact H2].
              intros Hin. apply in_map_iff in Hin.
              destruct Hin as (l & Hl & Hin).
              destruct (H3 l Hin) as (Hs & _). apply Hs. left. auto.
           ++ intros l [<-|Hl].
              ** split; [exact Hns|]. exists key.
                 split; [left; reflexivity|exact Em].
              ** destruct (H3 l Hl) as (Hs & k & Hk & Hm). split.
                 --- intros Hin. apply Hs. right. exact Hin.
                 --- exists k. split; [right; exact Hk|exact Hm].
      * destruct (IH seen n) as (H1 & H2 & H3). split; [exact H1|].
        split; [exact H2|]. intros l Hl.
        destruct (H3 l Hl) as (Hs & k & Hk & Hm).
        split; [exact Hs|]. exists k. split; [right; exact Hk|exact Hm].
Qed.

(** The link is the value of an entry of the list that the loop accepts, and
    no accepted entry before it has the same text. *)
Definition first_accepted (lower : string) (entries : Cache) (l : WikiLink)
  : Prop :=
  exists before key after,
    entries = (before ++ (key, l) :: after)%list
    /\ suggested lower (key, l) = true
    /\ forall e, In e before -> suggested lower e = true ->
                 text (snd e) <> text l.

(** The loop reads a prefix of the entries, to the end unless it has five
    results, and takes from it the first accepted entry of every text that
    has not been seen. *)
Lemma collect_prefix (lower : string) (entries : Cache) :
  forall seen n,
    (n < 5)%nat ->
    let r := collect lower seen n entries in
    exists pre post,
      entries = (pre ++ post)%list
      /\ (post = [] \/ (List.length r + n = 5)%nat)
      /\ forall l, In l r <->
                   first_accepted lower pre l /\ ~ In (text l) seen.
Proof.
  induction entries as [|[key link] rest IH]; intros seen n Hn; cbv zeta;
    cbn [collect].
  - exists [], []. split; [reflexivity|]. split; [left; reflexivity|].
    intros l. split; [intros []|].
    intros [(b & k & a & E & _) _]. destruct b; discriminate.
  - assert (Hcons : forall pre l,
               first_accepted lower pre l ->
               (suggested lower (key, link) = true -> text link <> text l) ->
               first_accepted lower ((key, link) :: pre) l).
    { intros pre l (b & k & a & E & Hs & Hb) Hh.
      exists ((key, link) :: b), k, a. split; [rewrite E; reflexivity|].
      split; [exact Hs|]. intros e [<-|He] Hse; [exact (Hh Hse)|].
      exact (Hb e He Hse). }
    assert (Htail : forall pre l,
               first_accepted lower ((key, link) :: pre) l ->
               (l = link /\ suggested lower (key, link) = true)
               \/ (first_accepted lower pre l
                   /\ (suggested lower (key, link) = true ->
                       text link <> text l))).
    { intros pre l (b & k & a & E & Hs & Hb). destruct b as [|e b].
      - cbn [app] in E. injection E as E1 E2 E3. subst k l a. left. auto.
      - cbn [app] in E. injection E as E1 E2. subst e pre. right. split.
        + exists b, k, a. split; [reflexivity|]. split; [exact Hs|].
          intros e He. apply Hb. right. exact He.
        + intros Hh. exact (Hb (key, link) (or_introl eq_refl) Hh). }
    destruct (existsb (String.eqb (text link)) seen) eqn:Es.
    + apply (existsb_eqb_In (text link) seen) in Es.
      destruct (IH seen n Hn) as (pre & post & E & Hend & Hr).
      exists ((key, link) :: pre), post.
      split; [rewrite E; reflexivity|]. split; [exact Hend|].
      intros l. rewrite Hr. split.
      * intros [Hf Hs]. split; [|exact Hs]. apply Hcons; [exact Hf|].
        intros _ Ht. apply Hs. rewrite <- Ht. exact Es.
      * intros [Hf Hs]. split; [|exact Hs].
        destruct (Htail _ _ Hf) as [[-> _]|[Hf' _]]; [tauto|exact Hf'].
    + assert (Hns : ~ In (text link) seen).
      { intros Hin. apply (existsb_eqb_In (text link) seen) in Hin.
        congruence. }
      destruct (startsWith key lower
                || includes (toLowerCase (text link)) lower) eqn:Em.
      * destruct (Nat.leb 5 (S n)) eqn:E5.
        -- apply Nat.leb_le in E5.
           exists [(key, link)], rest. split; [reflexivity|].
           split; [right; cbn [List.length]; lia|].
           intros l. split.
           ++ intros [<-|[]]. split; [|exact Hns].
              exists [], key, []. split; [reflexivity|].
              split; [exact Em|intros e []].
           ++ intros [(b & k & a & E & _) _]. destruct b as [|e b].
              ** cbn [app] in E. injection E as E1 E2 E3. left. auto.
              ** cbn [app] in E. injection E as E1 E2.
                 destruct b; discriminate.
        -- apply Nat.leb_gt in E5.
           destruct (IH (text link :: seen) (S n) ltac:(lia))
             as (pre & post & E & Hend & Hr).
           exists ((key, link) :: pre), post.
           split; [rewrite E; reflexivity|].
           split; [destruct Hend as [->|Hend];
                   [left; reflexivity|right; cbn [List.length]; lia]|].
           intros l. cbn [In]. rewrite Hr. split.
           ++ intros [<-|[Hf Hs]].
              ** split; [|exact Hns]. exists [], key, pre.
                 split; [reflexivity|]. split; [exact Em|intros e []].
              ** split.
                 --- apply Hcons; [exact Hf|]. intros _ Ht. apply Hs.
                     left. exact Ht.
                 --- intros Hin. apply Hs. right. exact Hin.
           ++ intros [Hf Hs].
              destruct (Htail _ _ Hf) as [[-> _]|[Hf' Hd]]; [left; auto|].
              right. split; [exact Hf'|].
              intros [Ht|Hin]; [exact (Hd Em Ht)|exact (Hs Hin)].
      * destruct (IH seen n Hn) as (pre & post & E & Hend & Hr).
        exists ((key, link) :: pre), post.
        split; [rewrite E; reflexivity|]. split; [exact Hend|].
        intros l. rewrite Hr. split.
        -- intros [Hf Hs]. split; [|exact Hs]. apply Hcons; [exact Hf|].
           unfold suggested. cbn [fst snd]. rewrite Em. discriminate.
        -- intros [Hf Hs]. split; [|exact Hs].
           destruct (Htail _ _ Hf) as [[_ Hacc]|[Hf' _]]; [|exact Hf'].
           unfold suggested in Hacc. cbn [fst snd] in Hacc. congruence.
Qed.

Lemma insert_by_frequency_perm (x : WikiLink) (l : list WikiLink) :
  Permutation (x :: l) (insert_by_frequency x l).
Proof.
  induction l as [|y r IH]; cbn [insert_by_frequency]; [apply Permutation_refl|].
  destruct (frequency x <? frequency y)%Z; [|apply Permutation_refl].
  apply (Permutation_trans (perm_swap y x r)).
  apply perm_skip. exact IH.
Qed.

Lemma sort_by_frequency_perm (l : list WikiLink) :
  Permutation l (sort_by_frequency l).
Proof.
  induction l as [|x r IH]; cbn; [constructor|].
  apply (Permutation_trans (perm_skip x IH)).
  apply insert_by_frequency_perm.
Qed.

Definition more_frequent (a b : WikiLink) : Prop :=
  (frequency b <= frequency a)%Z.

Lemma insert_by_frequency_sorted_links (x : WikiLink) (l : list WikiLink) :
  StronglySorted more_frequent l ->
  StronglySorted more_frequent (insert_by_frequency x l).
Proof.
  induction l as [|y q IH]; intros Hs; cbn [insert_by_frequency].
  - repeat constructor.
  - inversion Hs as [|? ? Hq Hall]; subst.
    destruct (Z.ltb_spec (frequency x) (frequency y)) as [Hlt|Hge].
    + constructor; [exact (IH Hq)|].
      apply Forall_forall. intros z Hz.
      apply (Permutation_in _ (Permutation_sym (insert_by_frequency_perm x q)))
        in Hz.
      destruct Hz as [<-|Hz].
      * unfold more_frequent. lia.
      * rewrite Forall_forall in Hall. exact (Hall z Hz).
    + constructor; [exact Hs|].
      constructor; [unfold more_frequent; lia|].
      rewrite Forall_forall in Hall. apply Forall_forall. intros z Hz.
      specialize (Hall z Hz). unfold more_frequent in *. lia.
Qed.

Lemma sort_by_frequency_sorted (l : list WikiLink) :
  StronglySorted more_frequent (sort_by_frequency l).
Proof.
  induction l as [|x r IH]; cbn; [constructor|].
  apply insert_by_frequency_sorted_links. exact IH.
Qed.

End SuggestProperties.

(** [suggestLinks] returns at most five links, no two with the same text,
    the more frequent first.  The loop reads the cache in its order and
    stops only at the end or with the fifth result: the cache splits into
    the part read and the rest, the rest is empty unless there are five
    results, and the links returned are exactly the values of the entries
    of the part read whose key starts with the lowercased input or whose
    lowercased text contains it, each text taken at its first such entry. *)
Theorem suggestLinks_at_most_five_distinct_sorted
        (partial : string) (w w' : World) (r : list WikiLink) :
  Suggest.suggestLinks partial w = Returned r w' ->
  (List.length r <= 5)%nat
  /\ NoDup (map text r)
  /\ StronglySorted more_frequent r
  /\ exists read rest,
       cache w' = (read ++ rest)%list
       /\ (rest = [] \/ List.length r = 5%nat)
       /\ forall l, In l r <->
                    first_accepted (JsString.toLowerCase partial) read l.
Proof.
  intros H. unfold Suggest.suggestLinks in H. cbn [bind Monad_Js] in H.
  destruct (WikiLinkService.loadLinks w) as [[] w1|e w1]; [|discriminate].
  cbn [gets ret Monad_Js] in H. injection H as <- <-.
  set (c := Suggest.collect (JsString.toLowerCase partial) [] 0 (cache w1)).
  destruct (collect_spec (JsString.toLowerCase partial) (cache w1) [] 0)
    as (H1 & H2 & _). fold c in H1, H2.
  destruct (collect_prefix (JsString.toLowerCase partial) (cache w1) [] 0
              ltac:(lia)) as (read & rest & E & Hend & Hr).
  fold c in Hend, Hr.
  pose proof (sort_by_frequency_perm c) as Hp.
  split; [rewrite <- (Permutation_length Hp); lia|].
  split; [exact (Permutation_NoDup (Permutation_map text Hp) H2)|].
  split; [apply sort_by_frequency_sorted|].
  exists read, rest. split; [exact E|]. split.
  - destruct Hend as [->|Hend]; [left; reflexivity|right].
    rewrite <- (Permutation_length Hp). lia.
  - intros l. split.
    + intros Hl. apply (Permutation_in _ (Permutation_sym Hp)) in Hl.
      apply Hr in Hl. exact (proj1 Hl).
    + intros Hf. apply (Permutation_in _ Hp). apply Hr.
      split; [exact Hf|intros []].
Qed.

Module SuggestExamples.

Definition links : list WikiLink :=
  [ sample_link "Nate" 1 ["nate"];
    sample_link "Natalie" 2 ["natalie"];
    sample_link "National Park" 3 ["national park"; "national"; "park"];
    sample_link "Nathan" 4 ["nathan"];
    sample_link "Natasha" 5 ["natasha"];
    sample_link "Nat King Cole" 9 ["nat king cole"; "nat"] ].

(** A fresh cache that holds the links in the order of the list. *)
Definition world : World :=
  mkWorld true Queries.empty_database 1000%Z (load_cache links) 5000%Z
          None true (Dir (Some [])) [].

End SuggestExamples.

Lemma suggestLinks_witness :
  let r := [ sample_link "Natasha" 5 ["natasha"];
             sample_link "Nathan" 4 ["nathan"];
             sample_link "National Park" 3 ["national park"; "national"; "park"];
             sample_link "Natalie" 2 ["natalie"];
             sample_link "Nate" 1 ["nate"] ] in
  Suggest.suggestLinks "Nat" SuggestExamples.world
  = Returned r SuggestExamples.world
  /\ (List.length r <= 5)%nat.
Proof.
  cbv zeta. split; [vm_compute; reflexivity|].
  refine (proj1 (suggestLinks_at_most_five_distinct_sorted
                   "Nat" SuggestExamples.world SuggestExamples.world _ _)).
  vm_compute. reflexivity.
Defined.

(* ================================================================== *)
(** * Further properties of the store *)
(* ================================================================== *)

Section StoreLookups.
Import JsString Queries.

Lemma toLowerCase_twice (s : string) :
  toLowerCase (toLowerCase s) = toLowerCase s.
Proof.
  induction s as [|c r IH]; cbn [toLowerCase]; [reflexivity|].
  rewrite IH. f_equal.
  destruct c as [[] [] [] [] [] [] [] []]; vm_compute; reflexivity.
Qed.

Lemma find_by_id (rows : list WikiLinkRow) (r : WikiLinkRow) :
  NoDup (map row_id rows) -> In r rows ->
  find (fun x => (row_id x =? row_id r)%Z) rows = Some r.
Proof.
  intros Hnd Hin.
  destruct (find (fun x => (row_id x =? row_id r)%Z) rows) as [x|] eqn:F.
  - apply find_some in F. destruct F as [Hx Hid]. apply Z.eqb_eq in Hid.
    rewrite (NoDup_map_inj row_id _ _ _ Hnd Hx Hin Hid). reflexivity.
  - pose proof (find_none _ _ F r Hin) as H. cbn beta in H.
    rewrite Z.eqb_refl in H. discriminate.
Qed.

Lemma has_link_id_In (rows : list WikiLinkRow) (r : WikiLinkRow) (d : Database) :
  In r (wiki_links d) -> has_link_id (row_id r) d = true.
Proof.
  intros H. unfold has_link_id. apply existsb_exists.
  exists r. split; [exact H|apply Z.eqb_refl].
Qed.

Lemma findWikiLinkByAlias_run (w : World) (a : string) :
  db_online w = true ->
  findWikiLinkByAlias a w =
    Returned
      (match find (fun r => String.eqb (alias r) (toLowerCase a))
                  (wiki_link_aliases (db w)) with
       | None =>
           option_map (fun r => link_of_row r [])
             (find (fun r => String.eqb (toLowerCase (row_text r))
                                        (toLowerCase a))
                   (wiki_links (db w)))
       | Some aliasRow =>
           option_map (fun r => link_of_row r [])
             (find (fun r => (row_id r =? link_id aliasRow)%Z)
                   (wiki_links (db w)))
       end) w.
Proof.
  intros Hon. unfold findWikiLinkByAlias, getDatabase.
  cbn [bind Monad_Js]. rewrite Hon.
  destruct (find _ (wiki_link_aliases (db w)));
    destruct (find _ (wiki_links (db w))); reflexivity.
Qed.

End StoreLookups.

(** An alias that has been inserted is found again, in any letter case.
    If no row of [wiki_link_aliases] held the lowercased alias before,
    [findWikiLinkByAlias] returns the link the alias was inserted for, with
    an empty alias list; if a row did, the lookup keeps returning the link of
    the first such row: in the store the first registration of an alias
    wins. *)
Theorem alias_insert_then_lookup
        (w : World) (r : WikiLinkRow) (a a' : string) :
  db_online w = true ->
  NoDup (map row_id (wiki_links (db w))) ->
  In r (wiki_links (db w)) ->
  JsString.toLowerCase a' = JsString.toLowerCase a ->
  let w1 := world_of (Queries.insertWikiLinkAlias (row_id r) a w) in
  Queries.insertWikiLinkAlias (row_id r) a w = Returned tt w1
  /\ match find (fun x => String.eqb (alias x) (JsString.toLowerCase a))
                (wiki_link_aliases (db w)) with
     | None =>
         Queries.findWikiLinkByAlias a' w1
         = Returned (Some (Queries.link_of_row r [])) w1
     | Some _ =>
         exists o, Queries.findWikiLinkByAlias a' w = Returned o w
                   /\ Queries.findWikiLinkByAlias a' w1 = Returned o w1
     end.
Proof.
  intros Hon Hnd Hin Hlow. cbv zeta.
  pose proof (has_link_id_In (wiki_links (db w)) r (db w) Hin) as Hid.
  rewrite (insertWikiLinkAlias_run w _ _ Hon).
  unfold Queries.insert_or_ignore_alias. rewrite Hid. cbn [negb].
  destruct (find (fun x => String.eqb (alias x) (JsString.toLowerCase a))
                 (wiki_link_aliases (db w))) as [ar|] eqn:F.
  - (* the alias is registered already *)
    destruct (aliases_unique_pair (schema (db w))
              && Queries.has_alias_pair (row_id r) (JsString.toLowerCase a) (db w)).
    + cbn [world_of]. split; [reflexivity|].
      eexists. split; [apply (findWikiLinkByAlias_run w a' Hon)|].
      rewrite (findWikiLinkByAlias_run (set_db (db w) w) a' Hon).
      reflexivity.
    + cbn [world_of]. split; [reflexivity|].
      eexists. split; [apply (findWikiLinkByAlias_run w a' Hon)|].
      rewrite (findWikiLinkByAlias_run (set_db _ w) a' Hon).
      cbn [db set_db wiki_link_aliases wiki_links]. rewrite Hlow.
      rewrite F.
      assert (E : find (fun x => String.eqb (alias x) (JsString.toLowerCase a))
                    (wiki_link_aliases (db w) ++
                     [mkAliasRow (seq_wiki_link_aliases (db w) + 1) (row_id r)
                                 (JsString.toLowerCase a)])%list = Some ar).
      { clear - F. induction (wiki_link_aliases (db w)) as [|x q IH];
          cbn [find app] in *; [discriminate|].
        destruct (String.eqb (alias x) (JsString.toLowerCase a));
          [exact F|exact (IH F)]. }
      rewrite E. reflexivity.
  - assert (Hpair : Queries.has_alias_pair (row_id r) (JsString.toLowerCase a)
                      (db w) = false).
    { unfold Queries.has_alias_pair.
      destruct (existsb _ (wiki_link_aliases (db w))) eqn:Ex; [|reflexivity].
      apply existsb_exists in Ex. destruct Ex as (x & Hx & Hp).
      apply andb_true_iff in Hp. destruct Hp as [_ Hp].
      pose proof (find_none _ _ F x Hx) as Hn. cbn beta in Hn. congruence. }
    rewrite Hpair, andb_false_r. cbn [world_of]. split; [reflexivity|].
    rewrite (findWikiLinkByAlias_run (set_db _ w) a' Hon).
    cbn [db set_db wiki_link_aliases wiki_links]. rewrite Hlow.
    rewrite (find_app_miss _ _ _ F). cbn [find alias].
    rewrite String.eqb_refl. cbn [link_id].
    rewrite (find_by_id _ _ Hnd Hin). reflexivity.
Qed.

Lemma alias_insert_then_lookup_witness :
  let w := world_with (database_of [sample_link "Nate Stapleton" 1 []]) in
  let r := mkRow 1 "Nate Stapleton" unknown 1 0%Z 0%Z in
  db_online w = true
  /\ In r (wiki_links (db w))
  /\ Queries.findWikiLinkByAlias "NATE"
       (world_of (Queries.insertWikiLinkAlias 1 "Nate" w))
     = Returned (Some (Queries.link_of_row r []))
                (world_of (Queries.insertWikiLinkAlias 1 "Nate" w)).
Proof.
  cbv zeta. split; [reflexivity|]. split; [left; reflexivity|].
  refine (proj2 (alias_insert_then_lookup
                   (world_with (database_of [sample_link "Nate Stapleton" 1 []]))
                   (mkRow 1 "Nate Stapleton" unknown 1 0%Z 0%Z) "Nate" "NATE"
                   eq_refl _ _ eq_refl)).
  - repeat constructor. intros [].
  - left. reflexivity.
Defined.

Section StoreListing.
Import Queries.

Lemma insert_row_perm (r : WikiLinkRow) (l : list WikiLinkRow) :
  Permutation (r :: l) (insert_by_frequency r l).
Proof.
  induction l as [|y q IH]; cbn [insert_by_frequency]; [apply Permutation_refl|].
  destruct (row_frequency r <? row_frequency y)%Z; [|apply Permutation_refl].
  apply (Permutation_trans (perm_swap y r q)).
  apply perm_skip. exact IH.
Qed.

Lemma order_by_frequency_desc_perm (l : list WikiLinkRow) :
  Permutation l (order_by_frequency_desc l).
Proof.
  induction l as [|x r IH]; cbn; [constructor|].
  apply (Permutation_trans (perm_skip x IH)).
  apply insert_row_perm.
Qed.

End StoreListing.

(** [getAllWikiLinks] lists the whole table: one link per row, the more
    frequent first, each with the id of its row and with the aliases of the
    alias rows that point to that id, so the number of links is what
    [getWikiLinkCount] returns. *)
Theorem getAllWikiLinks_lists_every_row (w : World) :
  db_online w = true ->
  exists links,
    Queries.getAllWikiLinks w = Returned links w
    /\ Queries.getWikiLinkCount w = Returned (Z.of_nat (List.length links)) w
    /\ Permutation
         (map (fun r => Queries.link_of_row r
                          (map alias (Queries.aliases_of (row_id r) (db w))))
              (wiki_links (db w)))
         links
    /\ StronglySorted (fun a b => (frequency b <= frequency a)%Z) links
    /\ (forall l als, In l links -> id l <> None /\
          (In als (aliases l) <->
           exists ar, In ar (wiki_link_aliases (db w))
                      /\ Some (link_id ar) = id l /\ alias ar = als)).
Proof.
  intros Hon. exists (links_of (db w)).
  split; [exact (getAllWikiLinks_run w Hon)|].
  assert (Hp : Permutation
                 (map (fun r => Queries.link_of_row r
                          (map alias (Queries.aliases_of (row_id r) (db w))))
                      (wiki_links (db w)))
                 (links_of (db w))).
  { unfold links_of. apply Permutation_map.
    apply order_by_frequency_desc_perm. }
  split.
  - unfold Queries.getWikiLinkCount, Queries.getDatabase.
    cbn [bind Monad_Js]. rewrite Hon. cbn [ret Monad_Js].
    rewrite <- (Permutation_length Hp), length_map. reflexivity.
  - split; [exact Hp|]. split; [apply links_of_sorted|].
    intros l als Hl. apply (Permutation_in _ (Permutation_sym Hp)) in Hl.
    apply in_map_iff in Hl. destruct Hl as (r & <- & Hr).
    cbn [Queries.link_of_row id aliases]. split; [discriminate|].
    unfold Queries.aliases_of. rewrite in_map_iff. split.
    + intros (ar & <- & Har). apply filter_In in Har. destruct Har as [Hin Hid].
      apply Z.eqb_eq in Hid. exists ar. rewrite Hid. auto.
    + intros (ar & Hin & Hid & <-). exists ar. split; [reflexivity|].
      apply filter_In. split; [exact Hin|]. inversion Hid. apply Z.eqb_refl.
Qed.

Lemma getAllWikiLinks_lists_every_row_witness :
  db_online ShadowExamples.three = true
  /\ exists links,
       Queries.getAllWikiLinks ShadowExamples.three
       = Returned links ShadowExamples.three
       /\ Queries.getWikiLinkCount ShadowExamples.three
          = Returned (Z.of_nat (List.length links)) ShadowExamples.three.
Proof.
  split; [reflexivity|].
  destruct (getAllWikiLinks_lists_every_row ShadowExamples.three eq_refl)
    as (links & H1 & H2 & _).
  exists links. split; assumption.
Defined.

(** [clearAllLinks] deletes every link and alias and invalidates the cache:
    afterwards the count is 0, the list is empty and, the clock not being
    before the epoch, [findMatch] finds nothing for any input, whatever was
    cached before.  The [AUTOINCREMENT] counter survives the deletion, so a
    link stored after a clear gets an id above every id used before. *)
Theorem clearAllLinks_empties_the_corpus (w : World) :
  db_online w = true ->
  (0 <= clock w)%Z ->
  well_formed (db w) ->
  let w1 := world_of (WikiLinkService.clearAllLinks w) in
  WikiLinkService.clearAllLinks w = Returned tt w1
  /\ Queries.getWikiLinkCount w1 = Returned 0%Z w1
  /\ Queries.getAllWikiLinks w1 = Returned [] w1
  /\ (forall t, WikiLinkService.findMatch t w1 = Returned None (reloaded w1))
  /\ (forall link, exists i w2,
        Queries.upsertWikiLink link w1 = Returned i w2
        /\ forall r, In r (wiki_links (db w)) -> (row_id r < i)%Z).
Proof.
  intros Hon Hclock Hwf. cbv zeta.
  assert (E : WikiLinkService.clearAllLinks w =
              Returned tt
                (set_cacheExpiry 0%Z
                   (set_db (mkDatabase (schema (db w)) [] []
                              (seq_wiki_links (db w))
                              (seq_wiki_link_aliases (db w))) w))).
  { unfold WikiLinkService.clearAllLinks, Queries.clearWikiLinks,
      Queries.getDatabase. cbn [bind Monad_Js]. rewrite Hon. reflexivity. }
  rewrite E. cbn [world_of]. set (w1 := set_cacheExpiry _ _).
  assert (Hon1 : db_online w1 = true) by exact Hon.
  assert (Hr : must_reload w1 = true).
  { unfold must_reload. apply negb_true_iff. apply andb_false_iff. right.
    apply Z.ltb_ge. exact Hclock. }
  split; [reflexivity|].
  split.
  { unfold Queries.getWikiLinkCount, Queries.getDatabase.
    cbn [bind Monad_Js]. rewrite Hon1. reflexivity. }
  split; [rewrite (getAllWikiLinks_run w1 Hon1); reflexivity|].
  split.
  - intros t. unfold WikiLinkService.findMatch. cbn [bind Monad_Js].
    rewrite (loadLinks_reload w1 Hon1 Hr). cbn [gets].
    change (cache (reloaded w1)) with (@nil (string * WikiLink)).
    cbn [WikiLinkService.map_has existsb].
    rewrite (findWikiLinkByAlias_run (reloaded w1) _ Hon1).
    reflexivity.
  - intros link. rewrite (upsertWikiLink_run w1 link Hon1).
    change (Queries.select_by_text (text link) (db w1)) with (@None WikiLinkRow).
    eexists. eexists. split; [reflexivity|].
    intros r Hr0. destruct Hwf as (_ & _ & Hseq).
    rewrite Forall_forall in Hseq. specialize (Hseq r Hr0). cbn beta in Hseq.
    cbn [w1 db set_db set_cacheExpiry seq_wiki_links]. lia.
Qed.

Lemma clearAllLinks_empties_the_corpus_witness :
  let w := PartialExamples.corpus in
  db_online w = true
  /\ (0 <= clock w)%Z
  /\ List.length (wiki_links (db w)) = 3%nat
  /\ WikiLinkService.findMatch "Nate"
       (world_of (WikiLinkService.clearAllLinks w))
     = Returned None (reloaded (world_of (WikiLinkService.clearAllLinks w))).
Proof.
  cbv zeta. split; [reflexivity|]. split; [discriminate|].
  split; [reflexivity|].
  refine (proj1 (proj2 (proj2 (proj2
    (clearAllLinks_empties_the_corpus PartialExamples.corpus eq_refl _ _))))
    "Nate").
  - discriminate.
  - vm_compute. repeat constructor; cbn; try tauto; try lia;
      intuition discriminate.
Defined.

(* ================================================================== *)
(** * Writing through the service *)
(* ================================================================== *)

Section ServiceWrites.
Import JsString Queries WikiLinkService.

Lemma set_db_same (w : World) : set_db (db w) w = w.
Proof. destruct w; reflexivity. Qed.

(** What the loop over the aliases of a link changes: it appends alias rows
    for the link and leaves everything else alone. *)
Lemma insert_aliases_run (i : Z) (als : list string) :
  forall w,
    db_online w = true ->
    has_link_id i (db w) = true ->
    exists d,
      for_each als (fun a => insertWikiLinkAlias i a) w
      = Returned tt (set_db d w)
      /\ wiki_links d = wiki_links (db w)
      /\ seq_wiki_links d = seq_wiki_links (db w)
      /\ exists extra,
           wiki_link_aliases d = (wiki_link_aliases (db w) ++ extra)%list
           /\ Forall (fun ar => link_id ar = i) extra.
Proof.
  induction als as [|a r IH]; intros w Hon Hid; cbn [for_each].
  - exists (db w). cbn [ret Monad_Js]. rewrite set_db_same.
    split; [reflexivity|]. split; [reflexivity|]. split; [reflexivity|].
    exists []. rewrite app_nil_r. split; [reflexivity|constructor].
  - cbn [bind Monad_Js]. rewrite (insertWikiLinkAlias_run w _ _ Hon).
    unfold insert_or_ignore_alias. rewrite Hid. cbn [negb].
    destruct (aliases_unique_pair (schema (db w))
              && has_alias_pair i (toLowerCase a) (db w)).
    + rewrite set_db_same. apply IH; assumption.
    + set (d1 := mkDatabase _ _ _ _ _).
      destruct (IH (set_db d1 w) Hon Hid) as (d & E & H1 & H2 & extra & H3 & H4).
      exists d. split; [exact E|]. split; [exact H1|]. split; [exact H2|].
      exists (mkAliasRow (seq_wiki_link_aliases (db w) + 1) i (toLowerCase a)
                :: extra).
      split.
      * rewrite H3. cbn [db set_db d1 wiki_link_aliases].
        rewrite <- app_assoc. reflexivity.
      * constructor; [reflexivity|exact H4].
Qed.

(** One link written: the upsert, then its aliases. *)
Lemma write_link_run (link : WikiLink) (w : World) :
  db_online w = true ->
  exists i d,
    (i <- upsertWikiLink link ;;
     for_each (aliases link) (fun a => insertWikiLinkAlias i a)) w
    = Returned tt (set_db d w)
    /\ upsertWikiLink link w = Returned i (world_of (upsertWikiLink link w))
    /\ wiki_links d = wiki_links (db (world_of (upsertWikiLink link w)))
    /\ seq_wiki_links d = seq_wiki_links (db (world_of (upsertWikiLink link w)))
    /\ exists extra,
         wiki_link_aliases d = (wiki_link_aliases (db w) ++ extra)%list
         /\ Forall (fun ar => link_id ar = i) extra.
Proof.
  intros Hon. cbn [bind Monad_Js].
  rewrite (upsertWikiLink_run w link Hon).
  destruct (select_by_text (text link) (db w)) as [ex|] eqn:Hsel;
    cbn [world_of].
  - set (d1 := update_link _ _ _ _ _).
    assert (Hid : has_link_id (row_id ex) (db (set_db d1 w)) = true).
    { unfold has_link_id. cbn [db set_db]. unfold d1.
      rewrite update_link_rows. apply existsb_exists.
      destruct (select_by_text_Some _ _ _ Hsel) as [Hin _].
      eexists. split; [apply in_map; exact Hin|].
      rewrite upd_id. apply Z.eqb_refl. }
    destruct (insert_aliases_run (row_id ex) (aliases link) (set_db d1 w) Hon Hid)
      as (d & E & H1 & H2 & extra & H3 & H4).
    exists (row_id ex), d. split; [exact E|]. split; [reflexivity|].
    split; [exact H1|]. split; [exact H2|]. exists extra.
    split; [exact H3|exact H4].
  - set (d1 := mkDatabase _ _ _ _ _).
    assert (Hid : has_link_id (seq_wiki_links (db w) + 1) (db (set_db d1 w))
                  = true).
    { unfold has_link_id. cbn [db set_db d1 wiki_links].
      rewrite existsb_app. cbn [existsb inserted row_id].
      rewrite Z.eqb_refl. cbn. apply orb_true_r. }
    destruct (insert_aliases_run _ (aliases link) (set_db d1 w) Hon Hid)
      as (d & E & H1 & H2 & extra & H3 & H4).
    exists (seq_wiki_links (db w) + 1)%Z, d. split; [exact E|].
    split; [reflexivity|]. split; [exact H1|]. split; [exact H2|].
    exists extra. split; [exact H3|exact H4].
Qed.

Lemma write_links_run (links : list WikiLink) :
  forall w,
    db_online w = true ->
    exists d,
      for_each links (fun link =>
        i <- upsertWikiLink link ;;
        for_each (aliases link) (fun a => insertWikiLinkAlias i a)) w
      = Returned tt (set_db d w).
Proof.
  induction links as [|l r IH]; intros w Hon; cbn [for_each].
  - exists (db w). cbn [ret Monad_Js]. rewrite set_db_same. reflexivity.
  - destruct (write_link_run l w Hon) as (i & d1 & E & _).
    destruct (IH (set_db d1 w) Hon) as (d & E').
    exists d. change (set_db d w) with (set_db d (set_db d1 w)).
    rewrite <- E'. cbn [bind Monad_Js] in *.
    destruct (upsertWikiLink l w) as [j w1|e w1]; [|discriminate].
    rewrite E. reflexivity.
Qed.

Lemma addLink_run (t : string) (ty : option WikiLinkType) (w : World) :
  db_online w = true ->
  let link := mkWikiLink None t
                (match ty with Some x => x | None => categorizeLink t end)
                1 (generateAliases t) (clock w) (clock w) in
  exists i d,
    addLink t ty w = Returned (set_id i link) (set_cacheExpiry 0%Z (set_db d w))
    /\ upsertWikiLink link w = Returned i (world_of (upsertWikiLink link w))
    /\ wiki_links d = wiki_links (db (world_of (upsertWikiLink link w))).
Proof.
  intros Hon link.
  destruct (write_link_run link w Hon) as (i & d & E & Hup & H1 & _).
  exists i, d. split; [|split; [exact Hup|exact H1]].
  unfold addLink. cbn [bind Monad_Js gets]. fold link.
  cbn [bind Monad_Js] in E. rewrite Hup in *.
  destruct (for_each (aliases link) (fun a => insertWikiLinkAlias i a)
                     (world_of (upsertWikiLink link w))) as [[] w2|e w2] eqn:F;
    [|discriminate].
  injection E as ->. reflexivity.
Qed.

End ServiceWrites.

(** While the store is available, the writing operations of the service
    ([addLink], [bulkAddLinks], [clearAllLinks]) always return: the alias
    inserts cannot fail the foreign key, because the id comes from the upsert
    just made.  They change the database, leave the cached entries alone and
    set the cache expiry to the epoch; with a clock that is not before the
    epoch, the next [loadLinks] therefore reads the store again. *)
Theorem service_writes_return_and_invalidate (w : World) :
  db_online w = true ->
  (forall t ty, exists l d,
      WikiLinkService.addLink t ty w
      = Returned l (set_cacheExpiry 0%Z (set_db d w))
      /\ text l = t /\ id l <> None)
  /\ (forall links, exists d,
        WikiLinkService.bulkAddLinks links w
        = Returned tt (set_cacheExpiry 0%Z (set_db d w)))
  /\ (exists d,
        WikiLinkService.clearAllLinks w
        = Returned tt (set_cacheExpiry 0%Z (set_db d w)))
  /\ (forall d,
        (0 <= clock w)%Z ->
        WikiLinkService.loadLinks (set_cacheExpiry 0%Z (set_db d w))
        = Returned tt (reloaded (set_cacheExpiry 0%Z (set_db d w)))).
Proof.
  intros Hon. split; [|split; [|split]].
  - intros t ty. destruct (addLink_run t ty w Hon) as (i & d & E & _).
    eexists. exists d. split; [exact E|]. split; [reflexivity|discriminate].
  - intros links. destruct (write_links_run links w Hon) as (d & E).
    exists d. unfold WikiLinkService.bulkAddLinks.
    cbn [bind Monad_Js] in E |- *. rewrite E. reflexivity.
  - eexists. unfold WikiLinkService.clearAllLinks, Queries.clearWikiLinks,
      Queries.getDatabase. cbn [bind Monad_Js]. rewrite Hon. reflexivity.
  - intros d Hclock. apply loadLinks_reload; [exact Hon|].
    unfold must_reload. apply negb_true_iff. apply andb_false_iff. right.
    apply Z.ltb_ge. exact Hclock.
Qed.

Lemma service_writes_witness :
  let w := StoreUnavailableExamples.warm in
  let w' := mkWorld true (db w) (clock w) (cache w) (cacheExpiry w)
                    (config w) (permission w) (vault w) (progress w) in
  db_online w' = true
  /\ must_reload w' = false
  /\ exists l d,
       WikiLinkService.addLink "Climbing" None w'
       = Returned l (set_cacheExpiry 0%Z (set_db d w'))
       /\ text l = "Climbing" /\ id l <> None.
Proof.
  cbv zeta. split; [reflexivity|]. split; [reflexivity|].
  refine (proj1 (service_writes_return_and_invalidate _ _) "Climbing" None).
  reflexivity.
Defined.

Section AddThenMatch.
Import JsString Queries WikiLinkService.

Lemma last_such {A : Type} (p : A -> bool) (l : list A) :
  existsb p l = true ->
  exists before x after,
    l = (before ++ x :: after)%list /\ p x = true
    /\ forall y, In y after -> p y = false.
Proof.
  induction l as [|a r IH]; cbn [existsb]; [discriminate|].
  intros H. destruct (existsb p r) eqn:E.
  - destruct (IH eq_refl) as (before & x & after & -> & Hx & Hafter).
    exists (a :: before), x, after. auto.
  - rewrite orb_false_r in H. exists [], a, r.
    split; [reflexivity|]. split; [exact H|].
    intros y Hy. destruct (p y) eqn:Py; [|reflexivity].
    assert (T : existsb p r = true) by (apply existsb_exists; eauto).
    congruence.
Qed.

(** A key that some loaded link carries is in the cache, with a link that
    carries it. *)
Lemma map_get_load_cache_some (k : string) (links : list WikiLink) (l0 : WikiLink) :
  In l0 links -> In k (link_keys l0) ->
  exists l, map_get k (load_cache links) = Some l
            /\ In l links /\ In k (link_keys l).
Proof.
  intros Hin Hk.
  set (p := fun l => existsb (String.eqb k) (link_keys l)).
  assert (Hex : existsb p links = true).
  { apply existsb_exists. exists l0. split; [exact Hin|].
    apply existsb_eqb_In. exact Hk. }
  destruct (last_such p links Hex) as (before & x & after & E & Hx & Hafter).
  exists x. split; [|split].
  - rewrite E. apply map_get_load_cache.
    + apply existsb_eqb_In. exact Hx.
    + intros y Hy Hky. apply existsb_eqb_In in Hky.
      specialize (Hafter y Hy). unfold p in Hafter. congruence.
  - rewrite E. apply in_or_app. right. left. reflexivity.
  - apply existsb_eqb_In. exact Hx.
Qed.

Lemma links_of_has_text (d : Database) (r : WikiLinkRow) :
  In r (wiki_links d) ->
  exists l, In l (links_of d) /\ text l = row_text r.
Proof.
  intros H. eexists. split.
  - unfold links_of. apply in_map.
    apply (Permutation_in _ (order_by_frequency_desc_perm (wiki_links d))).
    exact H.
  - reflexivity.
Qed.

End AddThenMatch.

(** A text that has been added is matched.  After [addLink(t)] on an
    available store, with a clock that is not before the epoch, [findMatch]
    on [t] in any letter case reloads the cache and returns a stored link
    that carries the lowercased [t] as its text or as one of its aliases; it
    never returns no match. *)
Theorem addLink_then_findMatch
        (w : World) (t t' : string) (ty : option WikiLinkType) :
  db_online w = true ->
  (0 <= clock w)%Z ->
  well_formed (db w) ->
  JsString.toLowerCase t' = JsString.toLowerCase t ->
  let w1 := world_of (WikiLinkService.addLink t ty w) in
  exists l,
    WikiLinkService.findMatch t' w1 = Returned (Some l) (reloaded w1)
    /\ In l (links_of (db w1))
    /\ In (JsString.toLowerCase t) (link_keys l).
Proof.
  intros Hon Hclock Hwf Hlow. cbv zeta.
  destruct (addLink_run t ty w Hon) as (i & d & E & Hup & Hrows).
  rewrite E. cbn [world_of]. set (w1 := set_cacheExpiry _ _).
  set (link := mkWikiLink None t _ 1 _ (clock w) (clock w)) in *.
  assert (Hrow : exists r, In r (wiki_links d) /\ row_text r = t).
  { rewrite Hrows.
    destruct (Queries.select_by_text (text link) (db w)) as [ex|] eqn:Hsel.
    - destruct (upsert_existing w link ex Hon Hwf Hsel)
        as (_ & _ & _ & _ & Hs & _).
      apply select_by_text_Some in Hs. eexists. exact Hs.
    - destruct (upsert_new w link Hon Hwf Hsel) as (_ & _ & _ & _ & Hs).
      apply select_by_text_Some in Hs. eexists. exact Hs. }
  destruct Hrow as (r & Hr & Ht).
  destruct (links_of_has_text d r Hr) as (l0 & Hl0 & Hl0t).
  assert (Hk0 : In (JsString.toLowerCase t) (link_keys l0)).
  { left. rewrite Hl0t, Ht. reflexivity. }
  destruct (map_get_load_cache_some _ _ _ Hl0 Hk0) as (l & Hget & Hl & Hk).
  exists l. split; [|split; [exact Hl|exact Hk]].
  assert (Hon1 : db_online w1 = true) by exact Hon.
  assert (Hr1 : must_reload w1 = true).
  { unfold must_reload. apply negb_true_iff. apply andb_false_iff. right.
    apply Z.ltb_ge. exact Hclock. }
  unfold WikiLinkService.findMatch. cbn [bind Monad_Js].
  rewrite (loadLinks_reload w1 Hon1 Hr1). cbn [gets].
  change (cache (reloaded w1)) with (load_cache (links_of d)).
  rewrite Hlow, map_has_get, Hget. reflexivity.
Qed.

Lemma addLink_then_findMatch_witness :
  let w := world_with Queries.empty_database in
  let w1 := world_of (WikiLinkService.addLink "Nate Stapleton" None w) in
  db_online w = true
  /\ (0 <= clock w)%Z
  /\ well_formed (db w)
  /\ exists l,
       WikiLinkService.findMatch "NATE STAPLETON" w1
       = Returned (Some l) (reloaded w1)
       /\ In l (links_of (db w1))
       /\ In "nate stapleton" (link_keys l).
Proof.
  cbv zeta. split; [reflexivity|]. split; [discriminate|].
  split; [exact well_formed_empty|].
  refine (addLink_then_findMatch (world_with Queries.empty_database)
            "Nate Stapleton" "NATE STAPLETON" None
            eq_refl _ well_formed_empty eq_refl).
  discriminate.
Defined.

(* ================================================================== *)
(** * Further properties of the vault scan *)
(* ================================================================== *)

Section ScanRun.
Import JsString FileSystem VaultService.

(** What [readTextFile] returns for a path of the tree. *)
Definition read_text (root_path : string) (root : Node) (path : string)
  : option string :=
  match node_at root_path root path with
  | Some (File (Some content)) => Some content
  | _ => None
  end.

Lemma readTextFile_run (root_path path : string) (w : World) :
  readTextFile root_path path w
  = Returned (read_text root_path (vault w) path) w.
Proof.
  unfold readTextFile, pathExists, read_text. cbn [bind Monad_Js gets].
  destruct (node_at root_path (vault w) path) as [[[c|]|e|]|] eqn:E;
    cbn [ret Monad_Js bind gets]; try rewrite E; reflexivity.
Qed.

(** The mentions of one file: the captures of its content, none for a file
    that cannot be read. *)
Definition captures_of (root_path : string) (root : Node) (path : string)
  : list string :=
  match read_text root_path root path with
  | Some c => exec_all 0 c
  | None => []
  end.

(** The calls of [onProgress] for the files, the latest first. *)
Fixpoint progress_calls (total i : Z) (files : list string) : list (Z * Z) :=
  match files with
  | [] => []
  | _ :: rest => (progress_calls total (i + 1) rest ++ [((i + 1)%Z, total)])%list
  end.

Definition with_progress (calls : list (Z * Z)) (w : World) : World :=
  mkWorld (db_online w) (db w) (clock w) (cache w) (cacheExpiry w)
          (config w) (permission w) (vault w) (calls ++ progress w).

Lemma with_progress_nil (w : World) : with_progress [] w = w.
Proof. destruct w; reflexivity. Qed.

(** The loop over the files reports every file and folds [record_link] over
    the captures of the readable ones, in order. *)
Lemma scan_files_run (root_path : string) (total : Z) (files : list string) :
  forall i m w,
    scan_files root_path total i files m w
    = Returned
        (fold_left (record_link (clock w))
           (flat_map (captures_of root_path (vault w)) files) m)
        (with_progress (progress_calls total i files) w).
Proof.
  induction files as [|f rest IH]; intros i m w; cbn [scan_files].
  - cbn [ret Monad_Js flat_map fold_left progress_calls].
    rewrite with_progress_nil. reflexivity.
  - cbn [bind Monad_Js]. unfold modify at 1.
    rewrite readTextFile_run.
    change (vault (add_progress (i + 1, total)%Z w)) with (vault w).
    cbn [flat_map progress_calls]. rewrite fold_left_app.
    assert (Hw : forall calls,
               with_progress calls (add_progress (i + 1, total)%Z w)
               = with_progress (calls ++ [((i + 1)%Z, total)]) w).
    { intros calls. unfold with_progress, add_progress. cbn.
      rewrite <- app_assoc. reflexivity. }
    assert (Hf : captures_of root_path (vault w) f
                 = match read_text root_path (vault w) f with
                   | Some c => exec_all 0 c
                   | None => []
                   end) by reflexivity.
    rewrite Hf.
    destruct (read_text root_path (vault w) f) as [[|c0 c]|];
      cbn [gets]; rewrite IH, Hw; reflexivity.
Qed.

Lemma progress_calls_spec (total : Z) (files : list string) :
  forall i,
    progress_calls total i files
    = rev (map (fun k => ((i + Z.of_nat k + 1)%Z, total))
               (seq 0 (List.length files))).
Proof.
  induction files as [|f rest IH]; intros i; cbn [progress_calls List.length];
    [reflexivity|].
  rewrite IH. cbn [seq map rev]. f_equal.
  - f_equal. rewrite <- seq_shift, map_map. apply map_ext.
    intros k. f_equal. lia.
  - do 2 f_equal. lia.
Qed.

End ScanRun.

(** With a configured vault and the storage permission, a scan calls
    [onProgress(current, total)] once per markdown file of the vault, with
    [current] running from 1 to [total] in the order of the files and [total]
    the number of files, whether or not the files can be read and whether or
    not the commit to the store succeeds. *)
Theorem scan_reports_every_file (w : World) (c : VaultConfig) :
  config w = Some c ->
  permission w = true ->
  let n := List.length (FileSystem.walk (vaultPath c) (vault w)) in
  progress (world_of (VaultService.scanVaultForLinks w))
  = (rev (map (fun k => ((Z.of_nat k + 1)%Z, Z.of_nat n)) (seq 0 n))
     ++ progress w)%list.
Proof.
  intros Hc Hp. cbv zeta.
  set (files := FileSystem.walk (vaultPath c) (vault w)).
  replace (rev (map (fun k => ((Z.of_nat k + 1)%Z,
                               Z.of_nat (List.length files)))
                    (seq 0 (List.length files))))
    with (progress_calls (Z.of_nat (List.length files)) 0 files)
    by (rewrite progress_calls_spec; f_equal; apply map_ext; intros k;
        f_equal).
  unfold VaultService.scanVaultForLinks.
  cbn [bind Monad_Js gets]. rewrite Hc.
  unfold FileSystem.requestStoragePermissions.
  cbn [bind Monad_Js gets]. rewrite Hp. cbn [negb].
  cbn [catch Exception_Js].
  unfold FileSystem.getAllMarkdownFiles.
  cbn [bind Monad_Js gets ret]. fold files.
  rewrite scan_files_run.
  set (w1 := with_progress _ w).
  set (links := map snd _).
  unfold WikiLinkService.clearAllLinks, Queries.clearWikiLinks,
    Queries.getDatabase, Queries.commit, WikiLinkService.invalidateCache,
    modify.
  cbn [bind Monad_Js].
  destruct (db_online w1) eqn:Hon; [|reflexivity].
  set (w2 := set_cacheExpiry 0%Z (set_db _ w1)).
  destruct (write_links_run links w2 Hon) as (d & E).
  unfold WikiLinkService.bulkAddLinks, WikiLinkService.invalidateCache, modify.
  cbn [bind Monad_Js]. cbn [bind Monad_Js] in E. rewrite E. reflexivity.
Qed.

Module ScanExamples.

Definition tree : Node :=
  Dir (Some [ ("a.md", File (Some "[[Nate Stapleton]] [[Climbing]]"));
              ("notes", Dir (Some [ ("b.md", File (Some "[[Nate]] [[ Climbing ]]"));
                                    ("c.txt", File (Some "[[Nobody]]")) ]));
              ("locked", Dir None);
              ("d.md", File None) ]).

Definition world : World :=
  mkWorld true (database_of [sample_link "Old Entry" 7 ["old entry"]])
          1000%Z [] 0%Z (Some (mkVaultConfig "/vault" "Daily Notes"))
          true tree [].

End ScanExamples.

Lemma scan_reports_every_file_witness :
  config ScanExamples.world = Some (mkVaultConfig "/vault" "Daily Notes")
  /\ permission ScanExamples.world = true
  /\ progress (world_of (VaultService.scanVaultForLinks ScanExamples.world))
     = [(3, 3); (2, 3); (1, 3)]%Z.
Proof.
  split; [reflexivity|]. split; [reflexivity|].
  exact (scan_reports_every_file ScanExamples.world
           (mkVaultConfig "/vault" "Daily Notes") eq_refl eq_refl).
Defined.

(* ================================================================== *)
(** * What the scan counts and what it stores *)
(* ================================================================== *)

Section ScanCounts.
Import JsString WikiLinkService VaultService.












End ScanCounts.



Section ScanStore.
Import JsString Queries WikiLinkService FileSystem VaultService.





End ScanStore.



(* ================================================================== *)
(** * Reading the links of a text ([utils/markdownGenerator.ts]) *)
(* ================================================================== *)

(** [extractWikiLinks]: the captures of [/\[\[([^\]]+)\]\]/g], duplicates
    removed. *)
Definition extractWikiLinks (markdown : string) : list string :=
  JsString.uniq (VaultService.exec_all 0 markdown).

Section Captures.
Import JsString VaultService.

(** The character does not occur in the string. *)
Definition lacks (a : ascii) (s : string) : Prop :=
  ~ In a (list_ascii_of_string s).

Lemma run_spec (s : string) :
  forall a b, run s = (a, b) -> s = a ++ b /\ lacks "]" a.
Proof.
  induction s as [|c r IH]; intros a b; cbn [run].
  - intros E. inversion E; subst. split; [reflexivity|intros []].
  - destruct (Ascii.eqb_spec c "]") as [->|Hne].
    + intros E. inversion E; subst. split; [reflexivity|intros []].
    + destruct (run r) as [a' b'] eqn:Er. intros E. inversion E; subst.
      destruct (IH a' b eq_refl) as (H1 & H2).
      split; [cbn [append]; rewrite <- H1; reflexivity|].
      intros [H|H]; [congruence|exact (H2 H)].
Qed.

Lemma run_lacks (t rest : string) :
  lacks "]" t -> run (t ++ String "]" rest) = (t, String "]" rest).
Proof.
  induction t as [|c r IH]; intros H; cbn [append run].
  - reflexivity.
  - destruct (Ascii.eqb_spec c "]") as [->|Hne].
    + exfalso. apply H. left. reflexivity.
    + rewrite IH; [reflexivity|]. intros Hin. apply H. right. exact Hin.
Qed.

Lemma startsWith_split (s p : string) :
  startsWith s p = true -> exists rest, s = p ++ rest.
Proof.
  revert s. induction p as [|a p IH]; intros s; cbn [startsWith].
  - intros _. exists s. reflexivity.
  - destruct s as [|b s]; [discriminate|].
    intros H. apply andb_true_iff in H. destruct H as [H1 H2].
    apply Ascii.eqb_eq in H1. subst b.
    destruct (IH s H2) as (rest & ->). exists rest. reflexivity.
Qed.

Lemma link_here_spec (s inner : string) (len : nat) :
  link_here s = Some (inner, len) ->
  inner <> "" /\ lacks "]" inner /\ len = String.length inner + 4
  /\ exists post, s = "[[" ++ inner ++ "]]" ++ post.
Proof.
  unfold link_here.
  destruct s as [|c0 [|c1 r]]; try discriminate.
  - destruct c0 as [[] [] [] [] [] [] [] []]; discriminate.
  - destruct (Ascii.eqb_spec c0 "[") as [->|H0].
    2:{ destruct c0 as [[] [] [] [] [] [] [] []]; try discriminate.
        congruence. }
    destruct (Ascii.eqb_spec c1 "[") as [->|H1].
    2:{ destruct c1 as [[] [] [] [] [] [] [] []]; try discriminate.
        congruence. }
    destruct (run r) as [a b] eqn:Er.
    destruct (run_spec r a b Er) as (E & Hl).
    destruct a as [|a0 a]; [discriminate|].
    destruct (startsWith b "]]") eqn:Hs; [|discriminate].
    intros H. inversion H; subst inner len.
    split; [discriminate|]. split; [exact Hl|]. split; [reflexivity|].
    destruct (startsWith_split _ _ Hs) as (post & ->).
    exists post. rewrite E. reflexivity.
Qed.

(** Every capture is what stands between an opening and the next closing
    pair of brackets of the text. *)
Lemma exec_all_sound (s : string) :
  forall skip t,
    In t (exec_all skip s) ->
    t <> "" /\ lacks "]" t
    /\ exists pre post, s = pre ++ "[[" ++ t ++ "]]" ++ post.
Proof.
  induction s as [|c r IH]; intros skip t; cbn [exec_all]; [intros []|].
  assert (Hr : forall k, In t (exec_all k r) ->
                         t <> "" /\ lacks "]" t
                         /\ exists pre post,
                              String c r = pre ++ "[[" ++ t ++ "]]" ++ post).
  { intros k H. destruct (IH k t H) as (H1 & H2 & pre & post & E).
    split; [exact H1|]. split; [exact H2|].
    exists (String c pre), post. cbn [append]. rewrite E. reflexivity. }
  destruct skip as [|k]; [|apply Hr].
  destruct (link_here (String c r)) as [[inner len]|] eqn:El; [|apply Hr].
  intros [<-|H]; [|exact (Hr _ H)].
  destruct (link_here_spec _ _ _ El) as (H1 & H2 & _ & post & E).
  split; [exact H1|]. split; [exact H2|].
  exists "", post. exact E.
Qed.

Lemma exec_all_skip (x post : string) :
  exec_all (String.length x) (x ++ post) = exec_all 0 post.
Proof.
  induction x as [|c x IH]; cbn [String.length append]; [reflexivity|].
  cbn [exec_all]. exact IH.
Qed.

Lemma link_here_wrapped (t post : string) :
  t <> "" -> lacks "]" t ->
  link_here ("[[" ++ t ++ "]]" ++ post)
  = Some (t, String.length t + 4).
Proof.
  intros Hne Hl. cbn [append link_here].
  change (t ++ "]]" ++ post) with (t ++ String "]" (String "]" post)).
  rewrite (run_lacks t (String "]" post) Hl).
  destruct t as [|a t]; [congruence|].
  cbn [startsWith]. rewrite !Ascii.eqb_refl, startsWith_nil. reflexivity.
Qed.

Lemma link_here_no_open (c : ascii) (r : string) :
  c <> "["%char -> link_here (String c r) = None.
Proof.
  intros H. unfold link_here.
  destruct c as [[] [] [] [] [] [] [] []]; try reflexivity. congruence.
Qed.

Lemma exec_all_here (c : ascii) (r : string) :
  exec_all 0 (String c r)
  = match link_here (String c r) with
    | Some (inner, len) => inner :: exec_all (len - 1) r
    | None => exec_all 0 r
    end.
Proof. reflexivity. Qed.

Lemma exec_all_wrapped (pre t post : string) :
  lacks "[" pre -> t <> "" -> lacks "]" t ->
  exec_all 0 (pre ++ "[[" ++ t ++ "]]" ++ post) = t :: exec_all 0 post.
Proof.
  intros Hpre Hne Hl. induction pre as [|c pre IH].
  - pose proof (link_here_wrapped t post Hne Hl) as E.
    change ("" ++ "[[" ++ t ++ "]]" ++ post)
      with (String "[" ("[" ++ t ++ "]]" ++ post)).
    rewrite exec_all_here.
    change (String "[" ("[" ++ t ++ "]]" ++ post))
      with ("[[" ++ t ++ "]]" ++ post).
    rewrite E. f_equal.
    replace (String.length t + 4 - 1) with (String.length ("[" ++ t ++ "]]"))
      by (cbn [append String.length]; rewrite length_append;
          cbn [String.length]; lia).
    replace ("[" ++ t ++ "]]" ++ post) with (("[" ++ t ++ "]]") ++ post)
      by (cbn [append]; rewrite append_assoc; reflexivity).
    apply exec_all_skip.
  - change ((String c pre) ++ "[[" ++ t ++ "]]" ++ post)
      with (String c (pre ++ "[[" ++ t ++ "]]" ++ post)).
    rewrite exec_all_here, link_here_no_open.
    + apply IH. intros H. apply Hpre. right. exact H.
    + intros ->. apply Hpre. left. reflexivity.
Qed.

Lemma uniq_acc_NoDup (xs : list string) :
  forall seen, NoDup (uniq_acc seen xs).
Proof.
  induction xs as [|x r IH]; intros seen; cbn [uniq_acc]; [constructor|].
  destruct (existsb (String.eqb x) seen) eqn:E; [apply IH|].
  constructor; [|apply IH].
  rewrite uniq_acc_In. intros [_ H]. apply H. left. reflexivity.
Qed.

Lemma uniq_acc_ext (xs : list string) :
  forall seen seen',
    (forall x, In x seen <-> In x seen') ->
    uniq_acc seen xs = uniq_acc seen' xs.
Proof.
  induction xs as [|x r IH]; intros seen seen' H; cbn [uniq_acc];
    [reflexivity|].
  assert (E : existsb (String.eqb x) seen = existsb (String.eqb x) seen').
  { apply eq_true_iff_eq. rewrite !existsb_eqb_In. apply H. }
  rewrite E. destruct (existsb (String.eqb x) seen').
  - apply IH. exact H.
  - f_equal. apply IH. intros y. cbn [In]. rewrite H. tauto.
Qed.

Lemma uniq_acc_seen_last (xs : list string) (t : string) :
  forall seen,
    uniq_acc (seen ++ [t]) xs
    = filter (fun x => negb (String.eqb x t)) (uniq_acc seen xs).
Proof.
  induction xs as [|x r IH]; intros seen; cbn [uniq_acc]; [reflexivity|].
  rewrite existsb_app. cbn [existsb]. rewrite orb_false_r.
  destruct (existsb (String.eqb x) seen) eqn:E; cbn [orb].
  - apply IH.
  - destruct (String.eqb_spec x t) as [->|Hx].
    + cbn [filter]. rewrite String.eqb_refl. cbn [negb].
      rewrite <- (IH (t :: seen)). apply uniq_acc_ext.
      intros y. cbn [In]. rewrite !in_app_iff. cbn [In]. tauto.
    + cbn [filter]. destruct (String.eqb_spec x t); [congruence|].
      cbn [negb]. f_equal. apply (IH (x :: seen)).
Qed.

End Captures.

(** [extractWikiLinks] returns no text twice, and every text it returns is
    non-empty, has no closing bracket, and stands in the markdown between
    [[[] and []]]. *)
Theorem extractWikiLinks_distinct_wrapped_texts (markdown : string) :
  NoDup (extractWikiLinks markdown)
  /\ forall t, In t (extractWikiLinks markdown) ->
       t <> "" /\ lacks "]" t
       /\ exists pre post, markdown = pre ++ "[[" ++ t ++ "]]" ++ post.
Proof.
  unfold extractWikiLinks. split; [apply uniq_acc_NoDup|].
  intros t H. exact (exec_all_sound markdown 0 t (proj1 (uniq_In _ t) H)).
Qed.

(** A non-empty text without closing bracket that is wrapped after a
    bracket-free beginning is the first text [extractWikiLinks] returns; the
    remaining ones are those of what follows the wrapped text. *)
Theorem extractWikiLinks_finds_wrapped_text (pre t post : string) :
  lacks "[" pre -> t <> "" -> lacks "]" t ->
  extractWikiLinks (pre ++ "[[" ++ t ++ "]]" ++ post)
  = t :: filter (fun x => negb (String.eqb x t)) (extractWikiLinks post).
Proof.
  intros Hpre Hne Hl. unfold extractWikiLinks.
  rewrite (exec_all_wrapped pre t post Hpre Hne Hl).
  unfold JsString.uniq. cbn [JsString.uniq_acc existsb]. f_equal.
  apply (uniq_acc_seen_last (VaultService.exec_all 0 post) t []).
Qed.

Lemma extractWikiLinks_finds_wrapped_text_witness :
  lacks "[" "With " /\ "Nate" <> "" /\ lacks "]" "Nate"
  /\ extractWikiLinks ("With " ++ "[[" ++ "Nate" ++ "]]" ++ " and [[Nate]] at [[Smith Rock]].")
     = ["Nate"; "Smith Rock"].
Proof.
  assert (H1 : lacks "[" "With ").
  { unfold lacks. cbn. intuition discriminate. }
  assert (H2 : "Nate" <> "") by discriminate.
  assert (H3 : lacks "]" "Nate").
  { unfold lacks. cbn. intuition discriminate. }
  split; [exact H1|]. split; [exact H2|]. split; [exact H3|].
  exact (extractWikiLinks_finds_wrapped_text
           "With " "Nate" " and [[Nate]] at [[Smith Rock]]." H1 H2 H3).
Defined.

(* ================================================================== *)
(** * The files of the vault ([utils/fileSystem.ts]) *)
(* ================================================================== *)

Section MarkdownFiles.
Import JsString FileSystem.

Lemma endsWith_append (x s p : string) :
  endsWith s p = true -> endsWith (x ++ s) p = true.
Proof.
  intros H. induction x as [|c x IH]; cbn [append]; [exact H|].
  cbn [endsWith]. rewrite IH. apply orb_true_r.
Qed.

Lemma startsWith_append (p rest : string) : startsWith (p ++ rest) p = true.
Proof.
  induction p as [|c p IH]; cbn [append startsWith]; [apply startsWith_nil|].
  rewrite Ascii.eqb_refl. exact IH.
Qed.

Lemma startsWith_longer (s p q : string) :
  startsWith s (p ++ q) = true -> startsWith s p = true.
Proof.
  revert s. induction p as [|c p IH]; intros s; cbn [append startsWith];
    [intros _; apply startsWith_nil|].
  destruct s as [|b s]; cbn [startsWith]; [discriminate|].
  intros H. apply andb_true_iff in H. destruct H as [H1 H2].
  rewrite H1. exact (IH s H2).
Qed.

(** Induction over a tree, with the property for the children of a
    directory. *)
Section NodeInduction.
Variable P : Node -> Prop.
Hypothesis HFile : forall content, P (File content).
Hypothesis HNoInfo : P NoInfo.
Hypothesis HUnlisted : P (Dir None).
Hypothesis HDir :
  forall items, Forall (fun e => P (snd e)) items -> P (Dir (Some items)).

Fixpoint Node_induction (n : Node) : P n :=
  match n with
  | File content => HFile content
  | NoInfo => HNoInfo
  | Dir None => HUnlisted
  | Dir (Some items) =>
      HDir items
        ((fix children (l : list (string * Node))
            : Forall (fun e => P (snd e)) l :=
            match l with
            | [] => Forall_nil _
            | (item, child) :: rest =>
                Forall_cons (item, child) (Node_induction child)
                            (children rest)
            end) items)
  end.

End NodeInduction.

(** What [walk] pushes: paths below the directory it starts from, of files
    whose name ends with [.md]. *)
Lemma walk_spec (n : Node) :
  forall (current p : string),
    In p (walk current n) ->
    startsWith p (current ++ "/") = true
    /\ endsWith p ".md" = true
    /\ exists content, In (p, File content) (index current n).
Proof.
  induction n as [content| | |items IH] using Node_induction;
    intros current p; cbn [walk]; try (intros []).
  cbn [index].
  enough (Hloop :
      In p ((fix loop (items : list (string * Node)) : list string :=
               match items with
               | [] => []
               | (item, child) :: rest =>
                   let fullPath := join current item in
                   match child with
                   | NoInfo => []
                   | Dir _ => (walk fullPath child ++ loop rest)%list
                   | File _ =>
                       if endsWith item ".md" then fullPath :: loop rest
                       else loop rest
                   end
               end) items) ->
      startsWith p (current ++ "/") = true
      /\ endsWith p ".md" = true
      /\ exists content,
           In (p, File content)
              ((fix loop (items : list (string * Node))
                  : list (string * Node) :=
                  match items with
                  | [] => []
                  | (item, child) :: rest =>
                      (index (join current item) child ++ loop rest)%list
                  end) items)).
  { intros H. destruct (Hloop H) as (H1 & H2 & c' & H3).
    split; [exact H1|]. split; [exact H2|].
    exists c'. right. exact H3. }
  induction IH as [|[item child] rest Hchild _ IHr]; [intros []|].
  cbv zeta. cbn [snd] in Hchild.
  destruct child as [content|entries|].
  - destruct (endsWith item ".md") eqn:Hmd.
    + intros [<-|H].
      * split.
        { unfold join. rewrite <- append_assoc. apply startsWith_append. }
        split.
        { unfold join. apply endsWith_append.
          apply (endsWith_append "/" item ".md" Hmd). }
        exists content. apply in_app_iff. left. cbn [index]. left.
        reflexivity.
      * destruct (IHr H) as (H1 & H2 & c' & H3).
        split; [exact H1|]. split; [exact H2|].
        exists c'. apply in_app_iff. right. exact H3.
    + intros H. destruct (IHr H) as (H1 & H2 & c' & H3).
      split; [exact H1|]. split; [exact H2|].
      exists c'. apply in_app_iff. right. exact H3.
  - intros H. apply in_app_iff in H. destruct H as [H|H].
    + destruct (Hchild (join current item) p H) as (H1 & H2 & c' & H3).
      split.
      { unfold join in H1. rewrite <- append_assoc in H1.
        rewrite append_assoc in H1.
        exact (startsWith_longer p (current ++ "/") (item ++ "/") H1). }
      split; [exact H2|].
      exists c'. apply in_app_iff. left. exact H3.
    + destruct (IHr H) as (H1 & H2 & c' & H3).
      split; [exact H1|]. split; [exact H2|].
      exists c'. apply in_app_iff. right. exact H3.
  - intros [].
Qed.

End MarkdownFiles.

(** Every path [getAllMarkdownFiles(dir)] returns lies below [dir], ends
    with [.md], and is the path of a file of the tree; the world is left as
    it was. *)
Theorem getAllMarkdownFiles_only_markdown_files (dir : string) (w : World) :
  exists files,
    FileSystem.getAllMarkdownFiles dir w = Returned files w
    /\ forall p, In p files ->
         JsString.startsWith p (dir ++ "/") = true
         /\ JsString.endsWith p ".md" = true
         /\ exists content,
              In (p, File content) (FileSystem.index dir (vault w)).
Proof.
  exists (FileSystem.walk dir (vault w)). split; [reflexivity|].
  intros p H. exact (walk_spec (vault w) dir p H).
Qed.

(* ================================================================== *)
(** * The vault path check ([services/VaultService.ts]) *)
(* ================================================================== *)

Definition allowed_prefixes : list string :=
  [ "/storage/emulated/0/Documents";
    "/storage/emulated/0/Download";
    "/storage/emulated/0/";
    "file://" ].

(** [isValidVaultPath] *)
Definition isValidVaultPath (path : string) : bool :=
  existsb (fun prefix => JsString.startsWith path prefix) allowed_prefixes
  || Nat.ltb 0 (String.length path).

(** [isValidVaultPath] accepts every path but the empty one: the list of
    allowed prefixes rejects nothing. *)
Theorem isValidVaultPath_rejects_only_empty (path : string) :
  isValidVaultPath path = negb (String.eqb path "").
Proof.
  unfold isValidVaultPath. destruct path as [|c r].
  - reflexivity.
  - cbn [String.length Nat.ltb Nat.leb String.eqb negb].
    apply orb_true_r.
Qed.

(* ================================================================== *)
(** * Gratitude in a conversation ([utils/markdownGenerator.ts]) *)
(* ================================================================== *)

Inductive Role : Type := user | assistant.

Record Message : Type := mkMessage {
  message_id : string;
  sessionId : string;
  role : Role;
  content : string;
  timestamp : Date;
  message_date : string
}.

Definition gratitudeKeywords : list string :=
  [ "grateful"; "thankful"; "thank"; "blessed"; "appreciate";
    "appreciate"; "gratitude"; "fortunate"; "lucky" ].

(** [hasGratitudeExpression] *)
Definition hasGratitudeExpression (messages : list Message) : bool :=
  let combined :=
    String.concat " " (map (fun m => JsString.toLowerCase (content m))
                           messages) in
  existsb (fun kw => JsString.includes combined kw) gratitudeKeywords.

Section Gratitude.
Import JsString.

Lemma startsWith_before_space (kw : string) :
  lacks " " kw ->
  forall a b, startsWith (a ++ String " " b) kw = startsWith a kw.
Proof.
  induction kw as [|k kw IH]; intros Hl a b; [destruct a; reflexivity|].
  assert (Hk : k <> " "%char) by (intros ->; apply Hl; left; reflexivity).
  assert (Hl' : lacks " " kw) by (intros H; apply Hl; right; exact H).
  destruct a as [|c a]; cbn [append startsWith].
  - destruct (Ascii.eqb_spec k " ") as [E|_]; [congruence|reflexivity].
  - rewrite (IH Hl'). reflexivity.
Qed.

Lemma includes_across_space (kw : string) :
  lacks " " kw ->
  forall a b,
    includes (a ++ String " " b) kw = includes a kw || includes b kw.
Proof.
  intros Hl a b. induction a as [|c a IH].
  - pose proof (startsWith_before_space kw Hl "" b) as E.
    cbn [append] in E |- *. cbn [includes]. rewrite E.
    rewrite orb_false_r. reflexivity.
  - pose proof (startsWith_before_space kw Hl (String c a) b) as E.
    cbn [append] in E |- *. cbn [includes]. rewrite E, IH.
    rewrite orb_assoc. reflexivity.
Qed.

Lemma includes_concat (kw : string) (xs : list string) :
  lacks " " kw -> kw <> "" ->
  includes (String.concat " " xs) kw = existsb (fun x => includes x kw) xs.
Proof.
  intros Hl Hne. induction xs as [|x r IH]; cbn [String.concat existsb].
  - destruct kw; [congruence|reflexivity].
  - destruct r as [|y r]; [cbn [existsb]; rewrite orb_false_r; reflexivity|].
    change (x ++ " " ++ String.concat " " (y :: r))
      with (x ++ String " " (String.concat " " (y :: r))).
    rewrite (includes_across_space kw Hl), IH. reflexivity.
Qed.

Lemma gratitudeKeywords_plain :
  Forall (fun kw => lacks " " kw /\ kw <> "") gratitudeKeywords.
Proof.
  unfold gratitudeKeywords, lacks.
  repeat constructor; cbn; try discriminate; intuition discriminate.
Qed.

End Gratitude.

(** [hasGratitudeExpression] holds exactly when one of the messages, taken
    alone and in lower case, contains one of the keywords: joining the
    messages with a space creates no keyword across two messages, and the
    case of the messages does not matter. *)
Theorem hasGratitudeExpression_per_message (messages : list Message) :
  hasGratitudeExpression messages = true
  <-> exists m kw,
        In m messages /\ In kw gratitudeKeywords
        /\ JsString.includes (JsString.toLowerCase (content m)) kw = true.
Proof.
  unfold hasGratitudeExpression. cbv zeta. rewrite existsb_exists. split.
  - intros (kw & Hkw & H).
    destruct (proj1 (Forall_forall _ _) gratitudeKeywords_plain kw Hkw)
      as [Hl Hne].
    rewrite (includes_concat kw _ Hl Hne) in H.
    apply existsb_exists in H. destruct H as (x & Hx & H).
    apply in_map_iff in Hx. destruct Hx as (m & <- & Hm).
    exists m, kw. auto.
  - intros (m & kw & Hm & Hkw & H).
    exists kw. split; [exact Hkw|].
    destruct (proj1 (Forall_forall _ _) gratitudeKeywords_plain kw Hkw)
      as [Hl Hne].
    rewrite (includes_concat kw _ Hl Hne).
    apply existsb_exists.
    exists (JsString.toLowerCase (content m)). split; [|exact H].
    apply in_map_iff. exists m. auto.
Qed.

From Stdlib Require Import DecimalString.

(* ================================================================== *)
(** * Dates as link texts ([utils/dateUtils.ts]) *)
(* ================================================================== *)

(** The local calendar fields of a [Date]: [getFullYear()], [getMonth()]
    (from 0) and [getDate()]. *)
Record CalendarDate : Type := mkCalendarDate {
  getFullYear : Z;
  getMonth : Z;
  getDate : Z
}.

Module DateUtils.

(** [String(n)] of an integer. *)
Definition String_of (n : Z) : string := NilZero.string_of_int (Z.to_int n).

Fixpoint repeat_char (n : nat) (fill : ascii) : string :=
  match n with
  | O => EmptyString
  | S k => String fill (repeat_char k fill)
  end.

(** [s.padStart(n, fill)] for a fill of one character. *)
Definition padStart (n : nat) (fill : ascii) (s : string) : string :=
  repeat_char (n - String.length s) fill ++ s.

(** [formatObsidianFilename]: [M_D_YY.md] *)
Definition formatObsidianFilename (d : CalendarDate) : string :=
  let month := (getMonth d + 1)%Z in
  let day := getDate d in
  let year := Z.rem (getFullYear d) 100 in
  String_of month ++ "_" ++ String_of day ++ "_" ++ String_of year ++ ".md".

(** [formatWikiDate]: [M.DD.YY] *)
Definition formatWikiDate (d : CalendarDate) : string :=
  let month := (getMonth d + 1)%Z in
  let day := padStart 2 "0" (String_of (getDate d)) in
  let year := Z.rem (getFullYear d) 100 in
  String_of month ++ "." ++ day ++ "." ++ padStart 2 "0" (String_of year).

End DateUtils.

Section WikiDates.
Import DateUtils.

Definition upto (n : nat) : list Z := map Z.of_nat (seq 0 n).

Lemma upto_In (n : nat) (z : Z) : (0 <= z < Z.of_nat n)%Z -> In z (upto n).
Proof.
  intros H. unfold upto. apply in_map_iff. exists (Z.to_nat z).
  split; [lia|]. apply in_seq. lia.
Qed.

Lemma forallb3 (f : Z -> Z -> Z -> bool) (l1 l2 l3 : list Z) :
  forallb (fun a => forallb (fun b => forallb (f a b) l3) l2) l1 = true ->
  forall a b c, In a l1 -> In b l2 -> In c l3 -> f a b c = true.
Proof.
  intros H a b c Ha Hb Hc.
  rewrite forallb_forall in H. specialize (H a Ha). cbv beta in H.
  rewrite forallb_forall in H. specialize (H b Hb). cbv beta in H.
  rewrite forallb_forall in H. exact (H c Hc).
Qed.

(** The text for month [m] (from 0), day [d + 1] and year [y] is matched by
    the pattern of dates. *)
Definition wiki_date_matches (m d y : Z) : bool :=
  WikiLinkService.is_date (formatWikiDate (mkCalendarDate y m (d + 1))).

Lemma wiki_dates_match :
  forallb (fun m =>
    forallb (fun d => forallb (wiki_date_matches m d) (upto 100)) (upto 31))
    (upto 12) = true.
Proof. vm_compute. reflexivity. Qed.

Lemma wiki_date_matches_true (m d y : Z) :
  (0 <= m < 12)%Z -> (0 <= d < 31)%Z -> (0 <= y < 100)%Z ->
  wiki_date_matches m d y = true.
Proof.
  intros Hm Hd Hy.
  apply (forallb3 wiki_date_matches (upto 12) (upto 31) (upto 100)
           wiki_dates_match);
    apply upto_In; lia.
Qed.

Lemma formatWikiDate_year (d : CalendarDate) :
  formatWikiDate d
  = formatWikiDate
      (mkCalendarDate (Z.rem (getFullYear d) 100) (getMonth d) (getDate d)).
Proof.
  unfold formatWikiDate. cbn [getFullYear getMonth getDate].
  rewrite Z.rem_rem by lia. reflexivity.
Qed.

End WikiDates.

(** A date of the calendar (month 0 to 11, day 1 to 31) of a year that is
    not negative, formatted by [formatWikiDate], is a link text that
    [categorizeLink] classifies as a date. *)
Theorem formatWikiDate_is_categorized_as_date (d : CalendarDate) :
  (0 <= getFullYear d)%Z ->
  (0 <= getMonth d <= 11)%Z ->
  (1 <= getDate d <= 31)%Z ->
  WikiLinkService.categorizeLink (DateUtils.formatWikiDate d) = date.
Proof.
  intros Hy Hm Hd.
  assert (H : WikiLinkService.is_date (DateUtils.formatWikiDate d) = true).
  { rewrite formatWikiDate_year.
    assert (Hr : (0 <= Z.rem (getFullYear d) 100 < 100)%Z).
    { pose proof (Z.rem_bound_pos (getFullYear d) 100 Hy ltac:(lia)). lia. }
    pose proof (wiki_date_matches_true (getMonth d) (getDate d - 1)
                  (Z.rem (getFullYear d) 100)
                  ltac:(lia) ltac:(lia) Hr) as H.
    unfold wiki_date_matches in H.
    replace (getDate d - 1 + 1)%Z with (getDate d) in H by lia.
    exact H. }
  unfold WikiLinkService.categorizeLink. rewrite H. reflexivity.
Qed.

Lemma formatWikiDate_is_categorized_as_date_witness :
  DateUtils.formatWikiDate (mkCalendarDate 2026 1 3) = "2.03.26"
  /\ WikiLinkService.categorizeLink
       (DateUtils.formatWikiDate (mkCalendarDate 2026 1 3)) = date.
Proof.
  split; [vm_compute; reflexivity|].
  apply (formatWikiDate_is_categorized_as_date (mkCalendarDate 2026 1 3));
    cbn; lia.
Defined.

(** The file name of a daily note ends with [.md], so the scan of the
    directory that holds it reaches the note, unless [getInfoAsync] fails for
    an entry listed before it. *)
Theorem daily_note_is_scanned (d : CalendarDate) (current : string)
        (before after : list (string * Node)) (content : option string) :
  Forall (fun e => snd e <> NoInfo) before ->
  In (FileSystem.join current (DateUtils.formatObsidianFilename d))
     (FileSystem.walk current
        (Dir (Some (before
                    ++ (DateUtils.formatObsidianFilename d, File content)
                    :: after)%list))).
Proof.
  intros Hb. cbn [FileSystem.walk].
  induction Hb as [|[item child] rest Hchild _ IH]; cbn [app].
  - cbv zeta.
    assert (E : JsString.endsWith (DateUtils.formatObsidianFilename d) ".md"
                = true).
    { unfold DateUtils.formatObsidianFilename. cbv zeta.
      rewrite <- !append_assoc. apply endsWith_append. reflexivity. }
    rewrite E. left. reflexivity.
  - cbv zeta. cbn [snd] in Hchild.
    destruct child as [c|entries|]; [| |congruence].
    + destruct (JsString.endsWith item ".md"); [right|]; exact IH.
    + apply in_app_iff. right. exact IH.
Qed.

Lemma daily_note_is_scanned_witness :
  Forall (fun e : string * Node => snd e <> NoInfo)
         [("archive", Dir None); ("todo.txt", File (Some "x"))]
  /\ In "/vault/Daily Notes/2_23_26.md"
        (FileSystem.walk "/vault/Daily Notes"
           (Dir (Some [ ("archive", Dir None);
                        ("todo.txt", File (Some "x"));
                        ("2_23_26.md", File None);
                        ("broken", NoInfo) ]))).
Proof.
  assert (H : Forall (fun e : string * Node => snd e <> NoInfo)
                     [("archive", Dir None); ("todo.txt", File (Some "x"))]).
  { repeat constructor; discriminate. }
  split; [exact H|].
  exact (daily_note_is_scanned (mkCalendarDate 2026 1 23) "/vault/Daily Notes"
           _ [("broken", NoInfo)] None H).
Defined.
